(** * edb.server.buildmeta: a shallow embedding and its specification

    The module under study resolves build metadata, locates [pg_config],
    hashes source directories, keeps a key-prefixed file cache and models the
    server version.  Each Python function is embedded as a Rocq function of
    the same name; what Python takes from its environment (the process
    environment, the embedded [_buildmeta] module, the file system, the
    [pickle] and [hashlib] libraries) is an explicit argument. *)

From stdpp Require Import ssreflect base option list gmap strings pretty sorting.
From Stdlib Require Import Strings.Ascii Strings.Byte.

Set Warnings "-register-all,-rewrite-rw".

Local Open Scope Z_scope.

(** ** Python preliminaries *)

(** [bytes] objects. *)
Abbreviation bytes := (list byte).

#[global] Instance byte_eq_dec : EqDecision byte := Byte.byte_eq_dec.

(** The exceptions this module raises or lets through. *)
Inductive exn : Type :=
  | MetadataError (msg : string)
  | ImportError
  | AttributeError
  | IndexError
  | TypeError
  | UnboundLocalError
  | FileNotFoundError
  | FileExistsError
  | NotADirectoryError
  | IsADirectoryError
  | OSError
  | PicklingError
  | UnpicklingError.

(** A call either returns or raises. *)
Inductive outcome (A : Type) : Type :=
  | Return (a : A)
  | Raise (e : exn).
Arguments Return {A} a.
Arguments Raise {A} e.

#[global] Instance outcome_ret : MRet outcome := @Return.
#[global] Instance outcome_bind : MBind outcome := λ A B f m,
  match m with
  | Return a => f a
  | Raise e => Raise e
  end.
#[global] Instance outcome_fmap : FMap outcome := λ A B f m,
  match m with
  | Return a => Return (f a)
  | Raise e => Raise e
  end.

(** Monadic left fold: a [for] loop whose body may raise. *)
Fixpoint foldM {A B : Type} (f : B → A → outcome B) (b : B) (l : list A)
  : outcome B :=
  match l with
  | [] => Return b
  | a :: l' => b' ← f b a; foldM f b' l'
  end.

(** The Python values that travel through this module. *)
Inductive value : Type :=
  | VNone
  | VBool (b : bool)
  | VInt (n : Z)
  | VStr (s : string)
  | VBytes (b : bytes)
  | VTuple (items : list value).

(** [str(n)] for an [int]. *)
Definition str_of_int (n : Z) : string := pretty n.

(** [s.lower()], on ASCII letters. *)
Definition lower_ascii (c : ascii) : ascii :=
  let n := N_of_ascii c in
  if ((65 <=? n) && (n <=? 90))%N then ascii_of_N (n + 32) else c.

Fixpoint lower (s : string) : string :=
  match s with
  | EmptyString => EmptyString
  | String c s' => String (lower_ascii c) (lower s')
  end.

(** [sep.join(l)] *)
Definition join (sep : string) (l : list string) : string :=
  String.concat sep l.

(** ** The version model *)

(** [class VersionStage(enum.IntEnum)] *)
Inductive VersionStage : Type := DEV | ALPHA | BETA | RC | FINAL.

#[global] Instance VersionStage_eq_dec : EqDecision VersionStage.
Proof. solve_decision. Defined.

Definition VersionStage_value (s : VersionStage) : Z :=
  match s with
  | DEV => 0 | ALPHA => 10 | BETA => 20 | RC => 30 | FINAL => 40
  end.

Definition VersionStage_name (s : VersionStage) : string :=
  match s with
  | DEV => "DEV" | ALPHA => "ALPHA" | BETA => "BETA" | RC => "RC"
  | FINAL => "FINAL"
  end.

(** [class Version(NamedTuple)] *)
Record Version : Type := mkVersion {
  major : Z;
  minor : Z;
  stage : VersionStage;
  stage_no : Z;
  local : list string;
}.

(** [Version.__str__] *)
Definition Version_str (self : Version) : string :=
  let ver := str_of_int (major self) +:+ "." +:+ str_of_int (minor self) in
  let ver :=
    if decide (stage self ≠ FINAL)
    then ver +:+ ("-" +:+ lower (VersionStage_name (stage self)) +:+ "."
                  +:+ str_of_int (stage_no self))
    else ver in
  let ver :=
    if decide (local self ≠ [])
    then ver +:+ (if decide (local self ≠ [])
                  then "+" +:+ join "." (local self) else "")
    else ver in
  ver.

(** The text before any suffix. *)
Definition plain (v : Version) : string :=
  str_of_int (major v) +:+ "." +:+ str_of_int (minor v).

(** The same version without its local segments. *)
Definition without_local (v : Version) : Version :=
  mkVersion (major v) (minor v) (stage v) (stage_no v) [].

(** The foreign version object handed to [parse_version]: [ver._version]
    carries the release numbers, the optional pre-release and dev markers
    (a tag and a number each) and the optional local segments; [str(ver)]
    is only used in the error message. *)
Record RawVersion : Type := mkRawVersion {
  release : list Z;
  pre : option (string * Z);
  dev : option (string * Z);
  raw_local : option (list string);
}.

Record ForeignVersion : Type := mkForeignVersion {
  ver_str : string;
  _version : RawVersion;
}.

(** [t[i]] on a tuple. *)
Definition getitem {A : Type} (t : list A) (i : nat) : outcome A :=
  match t !! i with
  | Some x => Return x
  | None => Raise IndexError
  end.

(** [parse_version] *)
Definition parse_version (ver : ForeignVersion) : outcome Version :=
  let v := _version ver in
  let local := [] in
  '(stage, stage_no, local) ←
    match pre v with
    | Some (letter, n) =>
        stage ←
          (if decide (letter = "a") then Return ALPHA
           else if decide (letter = "b") then Return BETA
           else if decide (letter = "c") then Return RC
           else Raise (MetadataError
                  ("cannot determine release stage from " +:+ ver_str ver)));
        let stage_no := n in
        let local :=
          match dev v with
          | Some (_, d) => local ++ ["dev"; str_of_int d]
          | None => local
          end in
        Return (stage, stage_no, local)
    | None =>
        match dev v with
        | Some (_, d) => Return (DEV, d, local)
        | None => Return (FINAL, 0, local)
        end
    end;
  let local :=
    match raw_local v with
    | Some (s :: l) => local ++ (s :: l)
    | _ => local
    end in
  major ← getitem (release v) 0;
  minor ← getitem (release v) 1;
  Return (mkVersion major minor stage stage_no local).

(** The stage a pre-release letter stands for. *)
Definition stage_of_letter (letter : string) : option VersionStage :=
  if decide (letter = "a") then Some ALPHA
  else if decide (letter = "b") then Some BETA
  else if decide (letter = "c") then Some RC
  else None.

(** The segments a dev marker next to a pre-release turns into. *)
Definition dev_segments (d : option (string * Z)) : list string :=
  match d with
  | Some (_, k) => ["dev"; str_of_int k]
  | None => []
  end.

(** ** Paths

    A [pathlib] path is kept as its tuple of parts ([PurePosixPath.parts]):
    an absolute path starts with its root, the part ["/"] or ["//"]. *)
Abbreviation Path := (list string).

(** [s.split(sep)] for a one-character separator. *)
Fixpoint split_on (sep : ascii) (s : string) : list string :=
  match s with
  | EmptyString => [""]
  | String c s' =>
      if decide (c = sep) then "" :: split_on sep s'
      else match split_on sep s' with
           | w :: ws => String c w :: ws
           | [] => [String c ""]
           end
  end.

Definition startswith (s pfx : string) : bool := String.prefix pfx s.

(** [s.endswith(sfx)] *)
Definition endswith (s sfx : string) : bool :=
  String.prefix (String.rev sfx) (String.rev s).

(** The components of a path written with slashes; empty and ["."]
    components are dropped. *)
Definition components (s : string) : list string :=
  filter (λ w, w ≠ "" ∧ w ≠ ".") (split_on "/"%char s).

(** How many slashes [s] starts with. *)
Fixpoint leading_slashes (s : string) : nat :=
  match s with
  | String c s' =>
      if decide (c = "/"%char) then S (leading_slashes s') else 0%nat
  | EmptyString => 0%nat
  end.

(** The root [pathlib] gives a POSIX path: none for a relative path, ["//"]
    for exactly two leading slashes, ["/"] for one and for three or more. *)
Definition root_of (s : string) : list string :=
  match leading_slashes s with
  | 0%nat => []
  | 2%nat => ["//"]
  | _ => ["/"]
  end.

Definition is_root (part : string) : bool :=
  bool_decide (part = "/" ∨ part = "//").

(** [pathlib.Path(s)] *)
Definition Path_of_str (s : string) : Path := root_of s ++ components s.

(** [str(p)] *)
Definition Path_str (p : Path) : string :=
  match p with
  | [] => "."
  | r :: rest => if is_root r then r +:+ join "/" rest else join "/" p
  end.

(** The built-in [repr] on text: which quotes it picks and what it escapes
    is the interpreter's business. *)
Class Repr : Type := repr_str : string → string.

(** [repr(p)]: the class name around [repr] of the path's text. *)
Definition Path_repr `{Repr} (p : Path) : string :=
  "PosixPath(" +:+ repr_str (Path_str p) +:+ ")".

(** [a / b] *)
Definition joinpath (a b : Path) : Path :=
  match b with
  | r :: _ => if is_root r then b else a ++ b
  | [] => a ++ b
  end.
Declare Scope path_scope.
Delimit Scope path_scope with path.
Infix "/" := joinpath : path_scope.

(** [p.parent] *)
Definition parent (p : Path) : Path :=
  match p with
  | [] => []
  | [r] => if is_root r then [r] else []
  | _ => removelast p
  end.

(** [pathlib.Path(v)] for a Python value [v]. *)
Definition Path_of_value (v : value) : outcome Path :=
  match v with
  | VStr s => Return (Path_of_str s)
  | _ => Raise TypeError
  end.

(** ** The file system

    A finite map from paths to what is there: a regular file with its
    contents, or a directory.  Paths name entries as given (no symbolic
    links, no [".."]). *)
Inductive node : Type :=
  | File (data : bytes)
  | Dir.

#[global] Instance node_eq_dec : EqDecision node.
Proof. solve_decision. Defined.

Abbreviation FS := (gmap Path node).

(** [p.exists()] *)
Definition exists_ (fs : FS) (p : Path) : bool :=
  match fs !! p with
  | Some _ => true
  | None => false
  end.

(** [p.is_file()] *)
Definition is_file (fs : FS) (p : Path) : bool :=
  match fs !! p with
  | Some (File _) => true
  | _ => false
  end.

(** ** The process environment

    What the module reads from outside itself: [os.environ], the optional
    embedded module [_buildmeta] (absent when its import fails), the
    collaborators of [edb.common.devmode], the location of the [edb.server]
    package, and [Path.resolve]. *)
Record World : Type := mkWorld {
  os_environ : gmap string string;
  _buildmeta : option (gmap string value);
  is_in_dev_mode : bool;
  get_dev_mode_cache_dir : Path;
  edb_server_path : string;
  resolve : Path → Path;
}.

(** ** The metadata accessor *)

(** [from . import _buildmeta] *)
Definition import_buildmeta (w : World) : outcome (gmap string value) :=
  match _buildmeta w with
  | Some m => Return m
  | None => Raise ImportError
  end.

(** [getattr(module, prop)] *)
Definition getattr (m : gmap string value) (prop : string) : outcome value :=
  match m !! prop with
  | Some v => Return v
  | None => Raise AttributeError
  end.

(** The name of the environment variable that overrides [prop]. *)
Definition env_name (prop : string) : string := "_EDGEDB_BUILDMETA_" +:+ prop.

(** [get_build_metadata_value] *)
Definition get_build_metadata_value (w : World) (prop : string)
  : outcome value :=
  let env_val := os_environ w !! env_name prop in
  let embedded :=
    match (m ← import_buildmeta w; getattr m prop) with
    | Raise ImportError | Raise AttributeError =>
        Raise (MetadataError
                 ("could not find " +:+ prop +:+ " in build metadata"))
    | r => r
    end in
  match env_val with
  | Some s => if decide (s ≠ "") then Return (VStr s) else embedded
  | None => embedded
  end.

(** The override of [prop] in the environment, when there is one that is
    not empty. *)
Definition env_override (w : World) (prop : string) : option string :=
  match os_environ w !! env_name prop with
  | Some s => if decide (s ≠ "") then Some s else None
  | None => None
  end.

(** The attribute [prop] of the embedded record, when both exist. *)
Definition embedded_value (w : World) (prop : string) : option value :=
  m ← _buildmeta w; m !! prop.

(** ** Path resolvers *)

Definition dev_pg_config (w : World) : Path :=
  let root := parent (parent (Path_of_str (edb_server_path w))) in
  resolve w
    (root / ["build"] / ["postgres"] / ["install"] / ["bin"]
       / ["pg_config"])%path.

Definition dev_mode_message : string :=
  "DEV mode: Could not find PostgreSQL build, run `pip install -e .`".

Definition invalid_path_message `{Repr} (pg_config : Path) : string :=
  "invalid pg_config path: " +:+ Path_repr pg_config
    +:+ ": file does not exist or is not a regular file".

(** [get_pg_config_path] *)
Definition get_pg_config_path `{Repr} (w : World) (fs : FS) : outcome Path :=
  if is_in_dev_mode w then
    let pg_config := dev_pg_config w in
    pg_config ←
      (if negb (is_file fs pg_config) then
         match get_build_metadata_value w "PG_CONFIG_PATH" with
         | Return v => Path_of_value v
         | Raise (MetadataError _) => Return pg_config
         | Raise e => Raise e
         end
       else Return pg_config);
    if negb (is_file fs pg_config) then
      Raise (MetadataError dev_mode_message)
    else Return pg_config
  else
    v ← get_build_metadata_value w "PG_CONFIG_PATH";
    pg_config ← Path_of_value v;
    if negb (is_file fs pg_config) then
      Raise (MetadataError (invalid_path_message pg_config))
    else Return pg_config.

(** [get_runstate_path] *)
Definition get_runstate_path (w : World) (data_dir : Path) : outcome Path :=
  if is_in_dev_mode w then Return data_dir
  else v ← get_build_metadata_value w "RUNSTATE_DIR"; Path_of_value v.

(** [get_shared_data_dir_path] *)
Definition get_shared_data_dir_path (w : World) : outcome Path :=
  if is_in_dev_mode w then Return (get_dev_mode_cache_dir w)
  else v ← get_build_metadata_value w "SHARED_DATA_DIR"; Path_of_value v.

(** ** The content-addressed cache *)

(** The [pickle] library, as far as the cache uses it:
    [pickle.dumps(obj, protocol=pickle.HIGHEST_PROTOCOL)] and
    [pickle.loads(data)]. *)
Class Pickle : Type := {
  pickle_dumps : value → outcome bytes;
  pickle_loads : bytes → outcome value;
}.

(** The machine the cache functions run on: the file system, the bytes the
    disk can still take ([None]: no limit), whether [os.unlink] is refused,
    the names [tempfile] draws (in the order it tries them), the records
    handed to [logging], and every file-system state reached so far, oldest
    first. *)
Record machine : Type := mkMachine {
  files : FS;
  free_space : option nat;
  unlink_denied : bool;
  tmp_names : list string;
  log : list string;
  seen : list FS;
}.

(** A computation on the machine that returns or raises. *)
Definition M (A : Type) : Type := machine → outcome A * machine.

#[global] Instance M_ret : MRet M := λ A a s, (Return a, s).
#[global] Instance M_bind : MBind M := λ A B f m s,
  match m s with
  | (Return a, s') => f a s'
  | (Raise e, s') => (Raise e, s')
  end.

Definition lift {A : Type} (r : outcome A) : M A := λ s, (r, s).

Definition raise {A : Type} (e : exn) : M A := lift (Raise e).

(** [try: body / except Exception as e: handler e] *)
Definition try_except {A : Type} (body : M A) (handler : exn → M A) : M A :=
  λ s,
    match body s with
    | (Return a, s') => (Return a, s')
    | (Raise e, s') => handler e s'
    end.

(** Every change of the file system is recorded in [seen]. *)
Definition set_files (fs : FS) : M unit := λ s,
  (Return (),
   mkMachine fs (free_space s) (unlink_denied s) (tmp_names s) (log s)
     (seen s ++ [fs])).

Definition set_free_space (k : option nat) : M unit := λ s,
  (Return (),
   mkMachine (files s) k (unlink_denied s) (tmp_names s) (log s) (seen s)).

(** [logging.exception(msg)] *)
Definition logging_exception (msg : string) : M unit := λ s,
  (Return (),
   mkMachine (files s) (free_space s) (unlink_denied s) (tmp_names s)
     (log s ++ [msg]) (seen s)).

(** Subclasses of [OSError]. *)
Definition is_OSError (e : exn) : bool :=
  match e with
  | OSError | FileNotFoundError | FileExistsError | NotADirectoryError
  | IsADirectoryError => true
  | _ => false
  end.

(** [full_path.exists()] *)
Definition path_exists (p : Path) : M bool := λ s,
  (Return (exists_ (files s) p), s).

(** [open(p, 'rb')]: the bytes still to be read. *)
Definition open_rb (p : Path) : M bytes := λ s,
  match files s !! p with
  | Some (File data) => (Return data, s)
  | Some Dir => (Raise IsADirectoryError, s)
  | None => (Raise FileNotFoundError, s)
  end.

(** [f.read(n)]: what was read, and the bytes that remain. *)
Definition file_read (n : nat) (f : bytes) : bytes * bytes :=
  (take n f, drop n f).

(** [f.read()] *)
Definition file_read_all (f : bytes) : bytes * bytes := (f, []).

(** [tempfile.NamedTemporaryFile(mode='wb', dir=dir, delete=False)]: the
    first drawn name that is free in [dir] is created empty; the open file is
    known by its name, [f.name]. *)
Definition NamedTemporaryFile (dir : Path) : M Path := λ s,
  match files s !! dir with
  | Some Dir =>
      match
        List.find (λ n, bool_decide (files s !! (dir ++ [n]) = None))
          (tmp_names s)
      with
      | Some n =>
          (f ← mret (dir ++ [n]);
           set_files (<[f := File []]> (files s));;
           mret f) s
      | None => (Raise FileExistsError, s)
      end
  | Some (File _) => (Raise NotADirectoryError, s)
  | None => (Raise FileNotFoundError, s)
  end.

(** [f.write(data)] on the file opened under the name [f]: the bytes are
    appended as far as the disk takes them; the write raises [OSError] when
    they do not all fit. *)
Definition file_write (f : Path) (data : bytes) : M unit := λ s,
  match files s !! f with
  | Some (File old) =>
      match free_space s with
      | Some k =>
          if decide (length data ≤ k)%nat then
            (set_files (<[f := File (old ++ data)]> (files s));;
             set_free_space (Some (k - length data)%nat)) s
          else
            (set_files (<[f := File (old ++ take k data)]> (files s));;
             set_free_space (Some 0%nat);;
             raise OSError) s
      | None => set_files (<[f := File (old ++ data)]> (files s)) s
      end
  | _ => (Raise OSError, s)
  end.

(** [os.unlink(p)] *)
Definition os_unlink (p : Path) : M unit := λ s,
  if unlink_denied s then (Raise OSError, s)
  else
    match files s !! p with
    | Some (File _) => set_files (delete p (files s)) s
    | Some Dir => (Raise IsADirectoryError, s)
    | None => (Raise FileNotFoundError, s)
    end.

(** [os.rename(src, dst)] for a regular file [src] (the only use): an
    existing regular file at [dst] is replaced in the same step. *)
Definition os_rename (src dst : Path) : M unit := λ s,
  match files s !! src with
  | Some (File data) =>
      match files s !! dst with
      | Some Dir => (Raise IsADirectoryError, s)
      | _ => set_files (<[dst := File data]> (delete src (files s))) s
      end
  | Some Dir => (Raise OSError, s)
  | None => (Raise FileNotFoundError, s)
  end.

(** [source_dir] and [target_dir] default to the shared data directory. *)
Definition dir_or_default (w : World) (d : option Path) : outcome Path :=
  match d with
  | None => get_shared_data_dir_path w
  | Some d => Return d
  end.

(** [read_data_cache]; a call that ends without [return] gives [None]. *)
Definition read_data_cache `{Pickle} (w : World) (cache_key : bytes)
    (path : Path) (pickled : bool) (source_dir : option Path) : M value :=
  source_dir ← lift (dir_or_default w source_dir);
  let full_path := (source_dir / path)%path in
  ex ← path_exists full_path;
  if ex : bool then
    f ← open_rb full_path;
    let '(src_hash, f) := file_read (length cache_key) f in
    if decide (src_hash = cache_key) then
      if pickled then
        let '(data, f) := file_read_all f in
        try_except (lift (pickle_loads data))
          (λ _, logging_exception ("could not unpickle " +:+ Path_str path);;
                mret VNone)
      else
        let '(data, f) := file_read_all f in
        mret (VBytes data)
    else mret VNone
  else mret VNone.

(** The bytes [write_data_cache] puts after the key: the pickled object,
    or the object itself, which then has to be a [bytes]. *)
Definition payload `{Pickle} (obj : value) (pickled : bool) : outcome bytes :=
  if pickled then pickle_dumps obj
  else match obj with
       | VBytes b => Return b
       | _ => Raise TypeError
       end.

(** The [except Exception] clause of [write_data_cache]:
    [[
        try: os.unlink(f.name)
        except OSError: pass
        finally: raise
    ]]
    entered with the exception [original].  When [f] was never bound,
    evaluating [f.name] raises [UnboundLocalError], which is no [OSError]
    and is what the bare [raise] then re-raises. *)
Definition cleanup (f : option Path) (original : exn) : M unit :=
  match f with
  | None => raise UnboundLocalError
  | Some name => λ s,
      match os_unlink name s with
      | (Return _, s') => (Raise original, s')
      | (Raise e, s') =>
          if is_OSError e then (Raise original, s') else (Raise e, s')
      end
  end.

(** [write_data_cache] *)
Definition write_data_cache `{Pickle} (w : World) (obj : value)
    (cache_key : bytes) (path : Path) (pickled : bool)
    (target_dir : option Path) : M unit :=
  target_dir ← lift (dir_or_default w target_dir);
  let full_path := (target_dir / path)%path in
  (λ s,
    match NamedTemporaryFile (parent full_path) s with
    | (Raise e, s1) => cleanup None e s1
    | (Return f, s1) =>
        match
          (file_write f cache_key;;
           data ← lift (payload obj pickled);
           file_write f data) s1
        with
        | (Raise e, s2) => cleanup (Some f) e s2
        | (Return _, s2) => os_rename f full_path s2
        end
    end) : M unit.

(** *** Vocabulary for the cache's specification *)

(** The machine after a step that leaves the file system as [fs] and the
    free space as [free]. *)
Definition step (s : machine) (fs : FS) (free : option nat) : machine :=
  mkMachine fs free (unlink_denied s) (tmp_names s) (log s) (seen s ++ [fs]).

(** Whether [n] more bytes fit on the disk. *)
Definition fits (free : option nat) (n : nat) : Prop :=
  match free with
  | Some k => (n ≤ k)%nat
  | None => True
  end.

#[global] Instance fits_dec free n : Decision (fits free n).
Proof. destruct free; simpl; apply _. Defined.

(** The free space once [n] bytes are written. *)
Definition free_after (free : option nat) (n : nat) : option nat :=
  (λ k, (k - n)%nat) <$> free.

(** The name [tempfile] settles on in [dir]. *)
Definition fresh_name (s : machine) (dir : Path) : option string :=
  List.find (λ n, bool_decide (files s !! (dir ++ [n]) = None)) (tmp_names s).

(** What the writing of the temporary file fails with, if it does: the key
    does not fit on the disk, the payload cannot be produced, or the payload
    does not fit. *)
Definition write_failure (free : option nat) (key : bytes)
    (payload : outcome bytes) : option exn :=
  if decide (fits free (length key)) then
    match payload with
    | Raise e => Some e
    | Return data =>
        if decide (fits free (length key + length data)) then None
        else Some OSError
    end
  else Some OSError.

(** The machine after [logging.exception(msg)]. *)
Definition logged (s : machine) (msg : string) : machine :=
  mkMachine (files s) (free_space s) (unlink_denied s) (tmp_names s)
    (log s ++ [msg]) (seen s).

(** The three ways a lookup misses: there is no file, the stored key is not
    the supplied one, or (for pickled entries) what follows the key cannot be
    deserialized. *)
Definition file_missing (fs : FS) (full : Path) : Prop := fs !! full = None.

Definition key_mismatch (fs : FS) (full : Path) (key : bytes) : Prop :=
  ∃ content, fs !! full = Some (File content)
             ∧ take (length key) content ≠ key.

Definition unpickle_fails `{Pickle} (fs : FS) (full : Path) (key : bytes)
    (pickled : bool) : Prop :=
  pickled = true
  ∧ ∃ content e, fs !! full = Some (File content)
                 ∧ take (length key) content = key
                 ∧ pickle_loads (drop (length key) content) = Raise e.

(** The entry holds a pickled [None]. *)
Definition stores_None `{Pickle} (fs : FS) (full : Path) (key : bytes)
    (pickled : bool) : Prop :=
  pickled = true
  ∧ ∃ content, fs !! full = Some (File content)
               ∧ take (length key) content = key
               ∧ pickle_loads (drop (length key) content) = Return VNone.

(** ** The directory hasher *)

(** What [os.scandir] finds: regular files with their contents, directories
    with their entries in the order the file system yields them, and entries
    that are neither (sockets, dangling links).  A directory is a finite tree:
    there are no links back into an enclosing directory. *)
Inductive tree : Type :=
  | TFile (data : bytes)
  | TDir (entries : list (string * tree))
  | TOther.

(** [entry.is_file()] and [entry.is_dir()] *)
Definition entry_is_file (t : tree) : bool :=
  match t with TFile _ => true | _ => false end.
Definition entry_is_dir (t : tree) : bool :=
  match t with TDir _ => true | _ => false end.

(** [os.path.join(a, b)] *)
Definition os_path_join (a b : string) : string :=
  if startswith b "/" then b
  else if bool_decide (a = "") || endswith a "/" then a +:+ b
  else a +:+ "/" +:+ b.

(** The body of the nested function [hash_dir], run on the directory [t]
    that [os.scandir(dirname)] opened; [entry.path] is
    [os.path.join(dirname, entry.name)], and the recursive call scans the
    entry the loop is at. *)
Fixpoint hash_dir_in (t : tree) (dirname ext : string) (paths : list string)
  {struct t} : list string :=
  match t with
  | TDir es =>
      (fix each (es : list (string * tree)) (paths : list string)
         : list string :=
         match es with
         | [] => paths
         | (name, entry) :: es' =>
             let path := os_path_join dirname name in
             let paths :=
               if entry_is_file entry && endswith name ext
               then paths ++ [path]
               else if entry_is_dir entry
                    then hash_dir_in entry path ext paths
                    else paths in
             each es' paths
         end) es paths
  | _ => paths
  end.

(** Where the walk along a path stands: the entry reached, and the
    directories it came through, the nearest first. *)
Abbreviation place := (tree * list tree)%type.

(** One component of a path, as the operating system resolves it.  The walk
    must stand in a directory ([ENOTDIR] otherwise); an empty component and
    ["."] stay there, [".."] goes back one directory (the top is its own
    parent), and a name goes to the entry of that name ([ENOENT] when there
    is none). *)
Definition walk_step (here : place) (name : string) : outcome place :=
  match here.1 with
  | TDir es =>
      if decide (name = "" ∨ name = ".") then Return here
      else if decide (name = "..") then
        Return match here.2 with
               | [] => here
               | up :: above => (up, above)
               end
      else
        match List.find (λ e, bool_decide (e.1 = name)) es with
        | Some e => Return (e.2, here.1 :: here.2)
        | None => Raise FileNotFoundError
        end
  | _ => Raise NotADirectoryError
  end.

(** The walk along the path [path], from the top of the tree: the working
    directory is the top, and so is the root. *)
Definition walk (root : tree) (path : string) : outcome place :=
  foldM walk_step (root, []) (split_on "/"%char path).

(** The entry the path leads to; the empty path leads nowhere. *)
Definition entry_at (root : tree) (path : string) : outcome tree :=
  if decide (path = "") then Raise FileNotFoundError
  else here ← walk root path; Return here.1.

(** [os.scandir(dirname)] *)
Definition scandir (root : tree) (dirname : string) : outcome tree :=
  it ← entry_at root dirname;
  match it with
  | TDir es => Return (TDir es)
  | _ => Raise NotADirectoryError
  end.

(** [hash_dir(dirname, ext, paths)], with [paths] returned instead of
    extended in place. *)
Definition hash_dir (root : tree) (dirname ext : string)
    (paths : list string) : outcome (list string) :=
  it ← scandir root dirname;
  Return (hash_dir_in it dirname ext paths).

(** [open(path, 'rb').read()] *)
Definition read_file (root : tree) (path : string) : outcome bytes :=
  it ← entry_at root path;
  match it with
  | TFile data => Return data
  | TDir _ => Raise IsADirectoryError
  | TOther => Raise OSError
  end.

(** [sorted(paths)] on strings: the non-decreasing arrangement. *)
Definition sorted (paths : list string) : list string :=
  merge_sort String.le paths.

(** [hashlib.sha1]: the digest function, and a hash object that takes its
    input in pieces. *)
Class Hashlib : Type := sha1_digest : bytes → bytes.

Record sha1_object : Type := mkSha1 { fed : bytes }.

Definition sha1_new : sha1_object := mkSha1 [].
Definition sha1_update (h : sha1_object) (data : bytes) : sha1_object :=
  mkSha1 (fed h ++ data).
Definition digest `{Hashlib} (h : sha1_object) : bytes := sha1_digest (fed h).

(** The paths [hash_dirs] has collected once its first loop is over. *)
Definition collect_paths (root : tree) (dirs : list (string * string))
  : outcome (list string) :=
  foldM (λ paths '(dirname, ext), hash_dir root dirname ext paths) [] dirs.

(** [hash_dirs] *)
Definition hash_dirs `{Hashlib} (root : tree) (dirs : list (string * string))
  : outcome bytes :=
  paths ← collect_paths root dirs;
  let h := sha1_new in
  h ← foldM (λ h path, data ← read_file root path;
                        Return (sha1_update h data)) h (sorted paths);
  Return (digest h).

(** *** Vocabulary for the hasher's specification *)

(** What one entry of a directory adds to [paths]. *)
Definition visit (dirname ext name : string) (entry : tree) : list string :=
  let path := os_path_join dirname name in
  if entry_is_file entry && endswith name ext then [path]
  else if entry_is_dir entry then hash_dir_in entry path ext []
  else [].

(** A loop that collects one result per element. *)
Fixpoint mapM_o {A B : Type} (f : A → outcome B) (l : list A)
  : outcome (list B) :=
  match l with
  | [] => Return []
  | a :: l' => b ← f a; bs ← mapM_o f l'; Return (b :: bs)
  end.

(** The bytes [hash_dirs] feeds to SHA-1: the matched files' contents, in
    the order of their sorted paths. *)
Definition hashed_stream (root : tree) (dirs : list (string * string))
  : outcome bytes :=
  paths ← collect_paths root dirs;
  (λ parts, concat parts) <$> mapM_o (read_file root) (sorted paths).

(** Every directory lists each name once. *)
Fixpoint wf_tree (t : tree) : Prop :=
  match t with
  | TDir es =>
      NoDup es.*1
      ∧ (fix all (es : list (string * tree)) : Prop :=
           match es with
           | [] => True
           | e :: es' => wf_tree e.2 ∧ all es'
           end) es
  | _ => True
  end.

(** The same directory contents, enumerated in another order: at every
    level the entries are the same up to their order. *)
Inductive tperm : tree → tree → Prop :=
  | tperm_file data : tperm (TFile data) (TFile data)
  | tperm_other : tperm TOther TOther
  | tperm_dir es es' : eperm es es' → tperm (TDir es) (TDir es')
with eperm : list (string * tree) → list (string * tree) → Prop :=
  | eperm_nil : eperm [] []
  | eperm_skip name t t' es es' :
      tperm t t' → eperm es es' → eperm ((name, t) :: es) ((name, t') :: es')
  | eperm_swap e1 e2 es : eperm (e1 :: e2 :: es) (e2 :: e1 :: es)
  | eperm_trans es1 es2 es3 : eperm es1 es2 → eperm es2 es3 → eperm es1 es3.

Scheme tperm_mut := Minimality for tperm Sort Prop
  with eperm_mut := Minimality for eperm Sort Prop.
Combined Scheme tperm_eperm_ind from tperm_mut, eperm_mut.

(** One matched file changed its contents, from [c] to [c'], and every
    other matched file kept its own. *)
Definition one_file_changed (root root' : tree) (paths : list string)
  : Prop :=
  ∃ c c',
    c ≠ c'
    ∧ (∃ p, p ∈ paths
            ∧ read_file root p = Return c ∧ read_file root' p = Return c')
    ∧ ∀ q, q ∈ paths →
        (read_file root q = Return c ∧ read_file root' q = Return c')
        ∨ ∃ x, read_file root q = Return x ∧ read_file root' q = Return x.

(** [root'] has one matched file more than [root], which is not empty, and
    every matched file of [root] is there unchanged. *)
Definition one_file_added (root root' : tree) (paths paths' : list string)
  : Prop :=
  ∃ p c,
    paths' ≡ₚ p :: paths
    ∧ c ≠ []
    ∧ read_file root' p = Return c
    ∧ ∀ q, q ∈ paths →
        ∃ x, read_file root q = Return x ∧ read_file root' q = Return x.

(** ** Concrete libraries to run the embedding on *)

Definition byte_of_Z (z : Z) : byte :=
  default Byte.x00 (Byte.of_N (Z.to_N (z mod 256))).
Definition Z_of_byte (b : byte) : Z := Z.of_N (Byte.to_N b).

(** [b"..."] *)
Definition b (s : string) : bytes := String.list_byte_of_string s.

(** SHA-1 as FIPS 180-4 defines it, on 32-bit words kept in [Z]; this is the
    function [hashlib.sha1(data).digest()] computes. *)
Module SHA1.

Definition w32 (x : Z) : Z := x mod 2 ^ 32.
Definition rotl (n x : Z) : Z :=
  w32 (Z.lor (Z.shiftl x n) (Z.shiftr x (32 - n))).
Definition lnot32 (x : Z) : Z := Z.lxor x (2 ^ 32 - 1).

(** Big-endian bytes of a number, [n] of them. *)
Fixpoint be_bytes (n : nat) (x : Z) : list Z :=
  match n with
  | O => []
  | S n' => be_bytes n' (Z.shiftr x 8) ++ [x mod 256]
  end.

Definition be_word (bs : list Z) : Z :=
  fold_left (λ acc x, acc * 256 + x) bs 0.

(** The message followed by the bit 1, zeros up to 56 modulo 64 bytes,
    and the bit length on 8 bytes. *)
Definition pad (msg : list Z) : list Z :=
  let len := Z.of_nat (length msg) in
  let zeros := Z.to_nat ((55 - len) mod 64) in
  msg ++ [128] ++ replicate zeros 0 ++ be_bytes 8 (8 * len).

Fixpoint chunks (fuel : nat) (k : nat) (l : list Z) : list (list Z) :=
  match fuel with
  | O => []
  | S fuel' =>
      match l with
      | [] => []
      | _ => take k l :: chunks fuel' k (drop k l)
      end
  end.

(** The message schedule, most recent word first. *)
Fixpoint schedule (n : nat) (rev_w : list Z) : list Z :=
  match n with
  | O => rev_w
  | S n' =>
      let at_ i := nth i rev_w 0 in
      let x :=
        rotl 1 (Z.lxor (Z.lxor (at_ 2%nat) (at_ 7%nat))
                  (Z.lxor (at_ 13%nat) (at_ 15%nat))) in
      schedule n' (x :: rev_w)
  end.

Definition f_k (t : nat) (x y z : Z) : Z * Z :=
  if (t <? 20)%nat then
    (Z.lor (Z.land x y) (Z.land (lnot32 x) z), 0x5A827999)
  else if (t <? 40)%nat then (Z.lxor (Z.lxor x y) z, 0x6ED9EBA1)
  else if (t <? 60)%nat then
    (Z.lor (Z.lor (Z.land x y) (Z.land x z)) (Z.land y z), 0x8F1BBCDC)
  else (Z.lxor (Z.lxor x y) z, 0xCA62C1D6).

Definition state : Type := Z * Z * Z * Z * Z.

Fixpoint rounds (t : nat) (ws : list Z) (s : state) : state :=
  match ws with
  | [] => s
  | w :: ws' =>
      let '(a, b, c, d, e) := s in
      let '(f, k) := f_k t b c d in
      let temp := w32 (rotl 5 a + f + e + k + w) in
      rounds (S t) ws' (temp, a, rotl 30 b, c, d)
  end.

Definition block (s : state) (blk : list Z) : state :=
  let words := (λ c, be_word c) <$> chunks 16 4 blk in
  let ws := rev (schedule 64 (rev words)) in
  let '(h0, h1, h2, h3, h4) := s in
  let '(a, b, c, d, e) := rounds 0 ws s in
  (w32 (h0 + a), w32 (h1 + b), w32 (h2 + c), w32 (h3 + d), w32 (h4 + e)).

Definition init : state :=
  (0x67452301, 0xEFCDAB89, 0x98BADCFE, 0x10325476, 0xC3D2E1F0).

Definition sha1 (msg : bytes) : bytes :=
  let m := pad (Z_of_byte <$> msg) in
  let blocks := chunks (length m) 64 m in
  let '(h0, h1, h2, h3, h4) := fold_left block blocks init in
  byte_of_Z <$> (be_bytes 4 h0 ++ be_bytes 4 h1 ++ be_bytes 4 h2
                   ++ be_bytes 4 h3 ++ be_bytes 4 h4).

End SHA1.

Definition hashlib_sha1 : Hashlib := SHA1.sha1.

(** [repr] on text as CPython writes it, for text whose characters outside
    ASCII are printable (they are copied): single quotes unless the text has
    a single quote and no double quote; the quote in use and the backslash
    get a backslash, tab, newline and carriage return their letter, the
    other control characters their two hexadecimal digits. *)
Definition hex_digit (n : nat) : ascii :=
  nth n (String.list_ascii_of_string "0123456789abcdef") "0"%char.

Definition repr_char (quote c : ascii) : string :=
  let n := nat_of_ascii c in
  if decide (c = quote ∨ c = "092"%char) then String "092" (String c "")
  else if decide (n = 9%nat) then String "092" "t"
  else if decide (n = 10%nat) then String "092" "n"
  else if decide (n = 13%nat) then String "092" "r"
  else if decide ((n < 32)%nat ∨ n = 127%nat)
       then String "092"
              (String "x" (String (hex_digit (n / 16))
                             (String (hex_digit (n mod 16)) "")))
  else String c "".

Definition builtin_repr : Repr := λ s,
  let cs := String.list_ascii_of_string s in
  let quote : ascii :=
    if bool_decide ("'"%char ∈ cs ∧ "034"%char ∉ cs) then "034"%char
    else "'"%char in
  String quote
    (fold_right (λ c acc, repr_char quote c +:+ acc) (String quote "") cs).

(** A fragment of pickle protocol 5, byte for byte what CPython writes and
    reads: [None], the booleans, the integers 0 to 255 and the empty tuple.
    Anything else is outside the fragment and raises; like CPython, [loads]
    stops reading at the STOP opcode. *)
Definition mini_dumps (v : value) : outcome bytes :=
  let proto := [byte_of_Z 0x80; byte_of_Z 5] in
  match v with
  | VNone => Return (proto ++ b "N.")
  | VBool true => Return (proto ++ [byte_of_Z 0x88] ++ b ".")
  | VBool false => Return (proto ++ [byte_of_Z 0x89] ++ b ".")
  | VInt n =>
      if decide (0 ≤ n ≤ 255)
      then Return (proto ++ b "K" ++ [byte_of_Z n] ++ b ".")
      else Raise PicklingError
  | VTuple [] => Return (proto ++ b ").")
  | _ => Raise PicklingError
  end.

Definition mini_loads (data : bytes) : outcome value :=
  match Z_of_byte <$> data with
  | 0x80 :: 5 :: 78 :: 46 :: _ => Return VNone
  | 0x80 :: 5 :: 0x88 :: 46 :: _ => Return (VBool true)
  | 0x80 :: 5 :: 0x89 :: 46 :: _ => Return (VBool false)
  | 0x80 :: 5 :: 75 :: n :: 46 :: _ => Return (VInt n)
  | 0x80 :: 5 :: 41 :: 46 :: _ => Return (VTuple [])
  | _ => Raise UnpicklingError
  end.

Definition mini_pickle : Pickle :=
  {| pickle_dumps := mini_dumps; pickle_loads := mini_loads |}.

(** ** Concrete inputs *)

Definition demo_world : World :=
  mkWorld ∅ None true ["var"; "cache"] "/src/edb/server" id.

(** A directory [d] and nothing in it; the one name [tempfile] draws. *)
Definition demo_machine (free : option nat) (denied : bool) : machine :=
  mkMachine {[ ["d"] := Dir ]} free denied ["tmpq1w2e3r4"] [] [].

Definition demo_write (obj : value) (s : machine) : outcome () * machine :=
  @write_data_cache mini_pickle demo_world obj (b "KEY") ["c.pickle"] true
    (Some ["d"]) s.

Definition demo_read (s : machine) : outcome value * machine :=
  @read_data_cache mini_pickle demo_world (b "KEY") ["c.pickle"] true
    (Some ["d"]) s.

Definition demo_tree : tree :=
  TDir [("lib", TDir [("b.py", TFile (b "B"));
                      ("a.py", TFile (b "A"));
                      ("sub", TDir [("c.py", TFile (b "C"));
                                    ("d.txt", TFile (b "D"))]);
                      ("sock", TOther)]);
        ("etc", TDir [("x.py", TFile (b "X"))])].

(** The same contents, listed in another order at every level. *)
Definition demo_tree_reordered : tree :=
  TDir [("etc", TDir [("x.py", TFile (b "X"))]);
        ("lib", TDir [("a.py", TFile (b "A"));
                      ("b.py", TFile (b "B"));
                      ("sub", TDir [("d.txt", TFile (b "D"));
                                    ("c.py", TFile (b "C"))]);
                      ("sock", TOther)])].

Definition one_file (data : bytes) : tree :=
  TDir [("lib", TDir [("a.py", TFile data)])].

Definition with_empty_init : tree :=
  TDir [("lib", TDir [("a.py", TFile (b "A")); ("__init__.py", TFile [])])].

Definition two_files (a_py b_py : bytes) : tree :=
  TDir [("lib", TDir [("a.py", TFile a_py); ("b.py", TFile b_py)])].

(** ** The version accessors *)

(** What [get_version] and its callers can end with besides the exceptions
    above: [ValueError], and whatever a collaborator raises, known by its
    name. *)
Inductive raised : Type :=
  | Known (e : exn)
  | ValueError
  | Foreign (name : string).

Inductive result (A : Type) : Type :=
  | Ok (a : A)
  | Fail (r : raised).
Arguments Ok {A} a.
Arguments Fail {A} r.

#[global] Instance result_ret : MRet result := @Ok.
#[global] Instance result_bind : MBind result := λ A B f m,
  match m with
  | Ok a => f a
  | Fail r => Fail r
  end.

Definition of_outcome {A : Type} (o : outcome A) : result A :=
  match o with
  | Return a => Ok a
  | Raise e => Fail (Known e)
  end.

(** A [Version] as [get_version] hands it out.  A named tuple checks nothing:
    apart from the stage, which is coerced to a member of [VersionStage], its
    fields are the values it was built from. *)
Record VersionTuple : Type := mkVersionTuple {
  vt_major : value;
  vt_minor : value;
  vt_stage : VersionStage;
  vt_stage_no : value;
  vt_local : value;
}.

(** The named tuple [parse_version] returns, seen as such a tuple. *)
Definition Version_as_tuple (v : Version) : VersionTuple :=
  mkVersionTuple (VInt (major v)) (VInt (minor v)) (stage v)
    (VInt (stage_no v)) (VTuple (VStr <$> local v)).

(** [VersionStage(x)]: the member whose value equals [x]; a [bool] is an
    [int]. *)
Definition VersionStage_of_int (n : Z) : result VersionStage :=
  match
    List.find (λ s, bool_decide (VersionStage_value s = n))
      [DEV; ALPHA; BETA; RC; FINAL]
  with
  | Some s => Ok s
  | None => Fail ValueError
  end.

Definition VersionStage_of_value (x : value) : result VersionStage :=
  match x with
  | VInt n => VersionStage_of_int n
  | VBool b => VersionStage_of_int (if b then 1 else 0)
  | _ => Fail ValueError
  end.

(** What the byte [n] starts in UTF-8: how many bytes must follow, and the
    range the first of them must be in ([None] for a byte that starts
    nothing). *)
Definition utf8_lead (n : nat) : option (nat * nat * nat) :=
  if decide (n < 128)%nat then Some (0, 0, 0)%nat
  else if decide (194 ≤ n ≤ 223)%nat then Some (1, 128, 191)%nat
  else if decide (n = 224)%nat then Some (2, 160, 191)%nat
  else if decide (n = 237)%nat then Some (2, 128, 159)%nat
  else if decide (225 ≤ n ≤ 239)%nat then Some (2, 128, 191)%nat
  else if decide (n = 240)%nat then Some (3, 144, 191)%nat
  else if decide (n = 244)%nat then Some (3, 128, 143)%nat
  else if decide (241 ≤ n ≤ 243)%nat then Some (3, 128, 191)%nat
  else None.

(** Each byte by itself. *)
Definition singles (s : string) : list string :=
  (λ c, String c EmptyString) <$> String.list_ascii_of_string s.

(** The characters of a string.  Text is kept as its UTF-8 encoding; a
    character is a complete sequence, and a byte that belongs to none is a
    character of its own, as the interpreter decodes the environment
    ([surrogateescape]).  [cur] is the sequence begun, which still needs
    [need] bytes, the next one between [lo] and [hi]. *)
Fixpoint chars_go (cur : string) (need lo hi : nat) (s : string)
  : list string :=
  match s with
  | EmptyString => singles cur
  | String c s' =>
      let n := nat_of_ascii c in
      if decide (0 < need ∧ lo ≤ n ≤ hi)%nat then
        if decide (need = 1%nat)
        then (cur +:+ String c "") :: chars_go "" 0 0 0 s'
        else chars_go (cur +:+ String c "") (need - 1) 128 191 s'
      else
        singles cur ++
        match utf8_lead n with
        | Some (S k, lo', hi') => chars_go (String c "") (S k) lo' hi' s'
        | _ => String c "" :: chars_go "" 0 0 0 s'
        end
  end.

Definition chars (s : string) : list string := chars_go "" 0 0 0 s.

(** [list(v)] *)
Definition list_of_value (v : value) : outcome (list value) :=
  match v with
  | VTuple items => Return items
  | VStr s => Return (VStr <$> chars s)
  | VBytes bs => Return ((λ x, VInt (Z_of_byte x)) <$> bs)
  | _ => Raise TypeError
  end.

(** [tuple(v)] *)
Definition tuple_of_value (v : value) : outcome value :=
  VTuple <$> list_of_value v.

(** The truth value of [v]. *)
Definition truthy (v : value) : bool :=
  match v with
  | VNone => false
  | VBool b => b
  | VInt n => bool_decide (n ≠ 0)
  | VStr s => bool_decide (s ≠ "")
  | VBytes bs => bool_decide (bs ≠ [])
  | VTuple items => bool_decide (items ≠ [])
  end.

(** The optional modules of development mode: [pkg_resources] with its
    [parse_version], and [setuptools_scm] with the outcome of
    [get_version(root='../..', relative_to=__file__)].  [None] stands for a
    module whose import failed. *)
Record DevTools : Type := mkDevTools {
  pkg_resources : option (string → result ForeignVersion);
  setuptools_scm : option (result string);
}.

(** [get_version].  In the installed branch the list [vertuple] keeps its
    length when its third element is replaced by the stage, and [Version],
    called with the elements of [vertuple], wants five arguments. *)
Definition get_version (w : World) (tools : DevTools) : result VersionTuple :=
  if is_in_dev_mode w then
    match pkg_resources tools with
    | None =>
        Fail (Known (MetadataError
                "cannot determine build version: no pkg_resources module"))
    | Some pkg_parse_version =>
        match setuptools_scm tools with
        | None =>
            Fail (Known (MetadataError
                    "cannot determine build version: no setuptools_scm module"))
        | Some scm_get_version =>
            version ← scm_get_version;
            pv ← pkg_parse_version version;
            version ← of_outcome (parse_version pv);
            Ok (Version_as_tuple version)
        end
    end
  else
    v ← of_outcome (get_build_metadata_value w "VERSION");
    vertuple ← of_outcome (list_of_value v);
    x ← of_outcome (getitem vertuple 2);
    st ← VersionStage_of_value x;
    match vertuple with
    | [major; minor; _; stage_no; local] =>
        Ok (mkVersionTuple major minor st stage_no local)
    | _ => Fail (Known TypeError)
    end.

(** The module's two memo slots, [None] until filled. *)
Record Memo : Type := mkMemo {
  _version_dict : option (gmap string value);
  _version_json : option string;
}.

(** The mapping [get_version_dict] builds from a version. *)
Definition version_dict_of (ver : VersionTuple)
  : outcome (gmap string value) :=
  local ← (if truthy (vt_local ver) then tuple_of_value (vt_local ver)
           else Return (VTuple []));
  Return (<["major" := vt_major ver]>
          (<["minor" := vt_minor ver]>
           (<["stage" := VStr (lower (VersionStage_name (vt_stage ver)))]>
            (<["stage_no" := vt_stage_no ver]>
             (<["local" := local]> ∅))))).

(** [get_version_dict] *)
Definition get_version_dict (w : World) (tools : DevTools) (m : Memo)
  : result (gmap string value) * Memo :=
  match _version_dict m with
  | None =>
      match ver ← get_version w tools; of_outcome (version_dict_of ver) with
      | Ok d => (Ok d, mkMemo (Some d) (_version_json m))
      | Fail r => (Fail r, m)
      end
  | Some d => (Ok d, m)
  end.

(** [get_version_json]; [json_dumps] is [json.dumps] on the mapping turned
    into a [dict]. *)
Definition get_version_json (json_dumps : gmap string value → result string)
    (w : World) (tools : DevTools) (m : Memo) : result string * Memo :=
  match _version_json m with
  | None =>
      match get_version_dict w tools m with
      | (Ok d, m') =>
          match json_dumps d with
          | Ok text => (Ok text, mkMemo (_version_dict m') (Some text))
          | Fail r => (Fail r, m')
          end
      | (Fail r, m') => (Fail r, m')
      end
  | Some text => (Ok text, m)
  end.

(** ** Directory entries, as the file system names them *)

(** A name [os.scandir] can yield: not empty, neither ["."] nor [".."],
    without a slash. *)
Definition valid_name (name : string) : Prop :=
  name ≠ "" ∧ name ≠ "." ∧ name ≠ ".."
  ∧ "/"%char ∉ String.list_ascii_of_string name.

(** Every entry below [t] has such a name. *)
Fixpoint valid_names (t : tree) : Prop :=
  match t with
  | TDir es =>
      (fix all (es : list (string * tree)) : Prop :=
         match es with
         | [] => True
         | e :: es' => valid_name e.1 ∧ valid_names e.2 ∧ all es'
         end) es
  | _ => True
  end.

(** A regular file below [t], found at the path [path] when [t] is scanned
    as [dirname], whose name ends with [ext]. *)
Inductive matched (ext : string) : tree → string → string → Prop :=
  | matched_here es dirname name data :
      (name, TFile data) ∈ es → endswith name ext = true →
      matched ext (TDir es) dirname (os_path_join dirname name)
  | matched_below es dirname name sub path :
      (name, TDir sub) ∈ es →
      matched ext (TDir sub) (os_path_join dirname name) path →
      matched ext (TDir es) dirname path.

(** ** Paths that name their file directly *)

(** A path with nothing to resolve: its root, if it has one, is ["/"], and
    every other part is a name.  Two such paths, both absolute or both
    relative, lead to the same file only when they are equal. *)
Definition direct (p : Path) : Prop :=
  match p with
  | "/" :: rest => Forall valid_name rest
  | _ => Forall valid_name p
  end.

(** [p.is_absolute()] *)
Definition is_absolute (p : Path) : bool :=
  match p with
  | r :: _ => is_root r
  | [] => false
  end.

(** ** Versions at run time

    The annotation [Tuple[str, ...]] of [Version.local] is not enforced.
    [packaging] keeps a local segment made of digits as an [int] and any
    other as a [str], and [parse_version] copies the segments as they are;
    so the functions are given here once more, on what they meet at run
    time. *)
Module Untyped.

Inductive segment : Type :=
  | Str (s : string)
  | Int (n : Z).

Record RawVersion : Type := mkRawVersion {
  release : list Z;
  pre : option (string * Z);
  dev : option (string * Z);
  raw_local : option (list segment);
}.

Record ForeignVersion : Type := mkForeignVersion {
  ver_str : string;
  _version : RawVersion;
}.

Record Version : Type := mkVersion {
  major : Z;
  minor : Z;
  stage : VersionStage;
  stage_no : Z;
  local : list segment;
}.

(** [parse_version] *)
Definition parse_version (ver : ForeignVersion) : outcome Version :=
  let v := _version ver in
  let local := [] in
  '(stage, stage_no, local) ←
    match pre v with
    | Some (letter, n) =>
        stage ←
          (if decide (letter = "a") then Return ALPHA
           else if decide (letter = "b") then Return BETA
           else if decide (letter = "c") then Return RC
           else Raise (MetadataError
                  ("cannot determine release stage from " +:+ ver_str ver)));
        let stage_no := n in
        let local :=
          match dev v with
          | Some (_, d) => local ++ [Str "dev"; Str (str_of_int d)]
          | None => local
          end in
        Return (stage, stage_no, local)
    | None =>
        match dev v with
        | Some (_, d) => Return (DEV, d, local)
        | None => Return (FINAL, 0, local)
        end
    end;
  let local :=
    match raw_local v with
    | Some (s :: l) => local ++ (s :: l)
    | _ => local
    end in
  major ← getitem (release v) 0;
  minor ← getitem (release v) 1;
  Return (mkVersion major minor stage stage_no local).

(** The items of [sep.join(items)], which must all be [str]. *)
Fixpoint texts (items : list segment) : outcome (list string) :=
  match items with
  | [] => Return []
  | Str s :: items' => ss ← texts items'; Return (s :: ss)
  | Int _ :: _ => Raise TypeError
  end.

(** [Version.__str__] *)
Definition Version_str (self : Version) : outcome string :=
  let ver := str_of_int (major self) +:+ "." +:+ str_of_int (minor self) in
  let ver :=
    if decide (stage self ≠ FINAL)
    then ver +:+ ("-" +:+ lower (VersionStage_name (stage self)) +:+ "."
                  +:+ str_of_int (stage_no self))
    else ver in
  if decide (local self ≠ [])
  then
    suffix ← (if decide (local self ≠ [])
              then ss ← texts (local self); Return ("+" +:+ join "." ss)
              else Return "");
    Return (ver +:+ suffix)
  else Return ver.

End Untyped.

(** A version as annotated, seen at run time. *)
Definition Version_at_run_time (v : Version) : Untyped.Version :=
  Untyped.mkVersion (major v) (minor v) (stage v) (stage_no v)
    (Untyped.Str <$> local v).

Definition ForeignVersion_at_run_time (ver : ForeignVersion)
  : Untyped.ForeignVersion :=
  Untyped.mkForeignVersion (ver_str ver)
    (Untyped.mkRawVersion (release (_version ver)) (pre (_version ver))
       (dev (_version ver))
       ((λ l : list string, Untyped.Str <$> l)
          <$> raw_local (_version ver))).

(** * Specification *)

(** ** String facts *)

Lemma append_cons (c : ascii) (a b : string) :
  String c a +:+ b = String c (a +:+ b).
Proof. reflexivity. Qed.

Lemma append_nil_r (s : string) : s +:+ "" = s.
Proof.
  induction s as [|c s IH]; [done|]. by rewrite append_cons IH.
Qed.

Lemma append_assoc (a b c : string) : (a +:+ b) +:+ c = a +:+ (b +:+ c).
Proof.
  induction a as [|x a IH]; [done|]. by rewrite !append_cons IH.
Qed.

Lemma length_append (a b : string) :
  String.length (a +:+ b) = (String.length a + String.length b)%nat.
Proof.
  induction a as [|x a IH]; [done|]. rewrite append_cons /=. by rewrite IH.
Qed.

Lemma append_eq_self (a b : string) : a +:+ b = a → b = "".
Proof.
  intros H. apply (f_equal String.length) in H.
  rewrite length_append in H. destruct b; [done|simpl in H; lia].
Qed.

Lemma append_cons_ne (c : ascii) (a x : string) : a +:+ String c x ≠ a.
Proof. intros H%append_eq_self. discriminate. Qed.

(** ** The concrete libraries

    SHA-1 on the test vectors of FIPS 180-4, and the pickle fragment on the
    bytes CPython writes. *)

Lemma sha1_abc :
  Z_of_byte <$> SHA1.sha1 (b "abc")
  = [0xa9; 0x99; 0x3e; 0x36; 0x47; 0x06; 0x81; 0x6a; 0xba; 0x3e;
     0x25; 0x71; 0x78; 0x50; 0xc2; 0x6c; 0x9c; 0xd0; 0xd8; 0x9d].
Proof. by vm_compute. Qed.

Lemma sha1_two_blocks :
  Z_of_byte
    <$> SHA1.sha1
          (b "abcdbcdecdefdefgefghfghighijhijkijkljklmklmnlmnomnopnopq")
  = [0x84; 0x98; 0x3e; 0x44; 0x1c; 0x3b; 0xd2; 0x6e; 0xba; 0xae;
     0x4a; 0xa1; 0xf9; 0x51; 0x29; 0xe5; 0xe5; 0x46; 0x70; 0xf1].
Proof. by vm_compute. Qed.

Lemma sha1_length (msg : bytes) : length (SHA1.sha1 msg) = 20%nat.
Proof.
  rewrite /SHA1.sha1.
  by destruct (fold_left _ _ _) as [[[[h0 h1] h2] h3] h4].
Qed.

Lemma mini_pickle_round_trip (v : value) (data : bytes) :
  mini_dumps v = Return data → mini_loads data = Return v.
Proof.
  destruct v as [|[]|n| | |[|??]]; simpl; try done; try by intros [= <-].
  case_decide as Hn; [|done]. intros [= <-].
  assert (Z_of_byte (byte_of_Z n) = n) as Hbyte.
  { rewrite /Z_of_byte /byte_of_Z Z.mod_small; [|lia].
    destruct (Byte.of_N (Z.to_N n)) as [x|] eqn:Hx.
    - apply Byte.to_of_N in Hx. rewrite /= Hx. lia.
    - pose proof (Byte.to_of_N_option_map (Z.to_N n)) as Hopt.
      rewrite Hx /= in Hopt.
      destruct (N.leb_spec (Z.to_N n) 255); [done|lia]. }
  by rewrite /mini_loads /= Hbyte.
Qed.

(** ** The version model *)

Section version.
Implicit Types (v : Version) (ver : ForeignVersion).

Lemma Version_str_final_plain v :
  stage v = FINAL → local v = [] → Version_str v = plain v.
Proof.
  intros Hs Hl. rewrite /Version_str /plain Hs Hl. cbv zeta.
  by repeat case_decide.
Qed.

Lemma Version_str_plain_inv v :
  Version_str v = plain v → stage v = FINAL ∧ local v = [].
Proof.
  rewrite /Version_str /plain. cbv zeta.
  destruct (decide (stage v ≠ FINAL)) as [Hs|Hs];
    destruct (decide (local v ≠ [])) as [Hl|Hl].
  - rewrite !append_assoc. intros H.
    apply (inj (String.app _)), (inj (String.app _)) in H.
    by apply append_cons_ne in H.
  - rewrite !append_assoc. intros H.
    apply (inj (String.app _)), (inj (String.app _)) in H.
    by apply append_cons_ne in H.
  - rewrite !append_assoc. intros H.
    apply (inj (String.app _)), (inj (String.app _)) in H.
    by apply append_cons_ne in H.
  - intros _. split; [by destruct (decide (stage v = FINAL))|].
    by destruct (local v); [|destruct Hl].
Qed.

Lemma Version_str_stage v :
  stage v ≠ FINAL →
  Version_str (without_local v)
  = plain v +:+ "-" +:+ lower (VersionStage_name (stage v)) +:+ "."
      +:+ str_of_int (stage_no v).
Proof.
  intros Hs. rewrite /Version_str /plain /=.
  by repeat case_decide.
Qed.

Lemma Version_str_local v :
  local v ≠ [] →
  Version_str v
  = Version_str (without_local v) +:+ "+" +:+ join "." (local v).
Proof.
  intros Hl. rewrite /Version_str /=.
  by repeat case_decide.
Qed.

(** C8: [str] of a version is ["{major}.{minor}"] exactly when the stage is
    FINAL and there are no local segments (so [Version(1, 2, FINAL, 0, ())]
    prints as ["1.2"]); a stage other than FINAL adds
    ["-{lowercase stage name}.{stage_no}"]; local segments, when there are
    any, are added last as ["+seg1.seg2..."], whatever the stage. *)
Theorem Version_str_spec v :
  (Version_str v = plain v ↔ stage v = FINAL ∧ local v = [])
  ∧ Version_str (mkVersion 1 2 FINAL 0 []) = "1.2"
  ∧ (stage v ≠ FINAL →
     Version_str (without_local v)
     = plain v +:+ "-" +:+ lower (VersionStage_name (stage v)) +:+ "."
         +:+ str_of_int (stage_no v))
  ∧ (stage v = FINAL → Version_str (without_local v) = plain v)
  ∧ (local v ≠ [] →
     Version_str v
     = Version_str (without_local v) +:+ "+" +:+ join "." (local v)).
Proof.
  split; [split|].
  - apply Version_str_plain_inv.
  - intros [??]. by apply Version_str_final_plain.
  - split; [done|]. split; [apply Version_str_stage|].
    split; [|apply Version_str_local].
    intros Hs. by apply (Version_str_final_plain (without_local v)).
Qed.

Lemma Version_str_spec_witness :
  Version_str (mkVersion 1 2 RC 3 []) = "1.2-rc.3"
  ∧ Version_str (mkVersion 1 2 FINAL 0 ["dev"; "5"]) = "1.2+dev.5"
  ∧ Version_str (mkVersion 4 0 BETA 1 ["x"]) = "4.0-beta.1+x".
Proof.
  split; [|split].
  - by apply (Version_str_spec (mkVersion 1 2 RC 3 [])).
  - destruct (Version_str_spec (mkVersion 1 2 FINAL 0 ["dev"; "5"]))
      as (_ & _ & _ & Hf & Hl).
    by rewrite Hl // Hf.
  - destruct (Version_str_spec (mkVersion 4 0 BETA 1 ["x"]))
      as (_ & _ & Hs & _ & Hl).
    by rewrite Hl // Hs.
Defined.

Lemma parse_version_bad_letter ver letter n :
  pre (_version ver) = Some (letter, n) →
  stage_of_letter letter = None →
  parse_version ver
  = Raise (MetadataError
             ("cannot determine release stage from " +:+ ver_str ver)).
Proof.
  rewrite /parse_version /stage_of_letter. intros -> H.
  by repeat case_decide.
Qed.

Lemma parse_version_pre ver letter n st M m rest :
  release (_version ver) = M :: m :: rest →
  pre (_version ver) = Some (letter, n) →
  stage_of_letter letter = Some st →
  parse_version ver
  = Return (mkVersion M m st n
              (dev_segments (dev (_version ver))
                 ++ default [] (raw_local (_version ver)))).
Proof.
  rewrite /parse_version /stage_of_letter /dev_segments.
  intros -> -> H.
  destruct (dev (_version ver)) as [[? k]|],
    (raw_local (_version ver)) as [[|??]|];
    repeat case_decide; by simplify_eq/=.
Qed.

Lemma parse_version_dev ver tag k M m rest :
  release (_version ver) = M :: m :: rest →
  pre (_version ver) = None →
  dev (_version ver) = Some (tag, k) →
  parse_version ver
  = Return (mkVersion M m DEV k (default [] (raw_local (_version ver)))).
Proof.
  rewrite /parse_version. intros -> -> ->.
  by destruct (raw_local (_version ver)) as [[|??]|].
Qed.

Lemma parse_version_final ver M m rest :
  release (_version ver) = M :: m :: rest →
  pre (_version ver) = None →
  dev (_version ver) = None →
  parse_version ver
  = Return (mkVersion M m FINAL 0 (default [] (raw_local (_version ver)))).
Proof.
  rewrite /parse_version. intros -> -> ->.
  by destruct (raw_local (_version ver)) as [[|??]|].
Qed.

Lemma parse_version_short_release ver :
  (length (release (_version ver)) < 2)%nat →
  (∀ letter n, pre (_version ver) = Some (letter, n) →
               is_Some (stage_of_letter letter)) →
  parse_version ver = Raise IndexError.
Proof.
  rewrite /parse_version /stage_of_letter. intros Hlen Hpre.
  destruct (pre (_version ver)) as [[letter n]|].
  - specialize (Hpre letter n eq_refl).
    destruct (release (_version ver)) as [|M [|m rest]]; [..|simpl in Hlen; lia];
      repeat case_decide; by (done || destruct Hpre).
  - destruct (release (_version ver)) as [|M [|m rest]]; [..|simpl in Hlen; lia];
      by destruct (dev (_version ver)) as [[??]|].
Qed.

(** C7: with a pre-release marker, the letters a, b and c give the stages
    ALPHA, BETA and RC, any other letter raises [MetadataError], [stage_no]
    is the marker's number, and a dev marker next to it adds the segments
    ["dev"] and its number as text; a dev marker alone gives stage DEV with
    its number; neither gives FINAL with 0; the foreign local segments come
    last, in order.  The value is returned for a foreign version whose
    release has a major and a minor number. *)
Theorem parse_version_spec ver :
  stage_of_letter "a" = Some ALPHA ∧ stage_of_letter "b" = Some BETA
  ∧ stage_of_letter "c" = Some RC
  ∧ (∀ letter, letter ≠ "a" → letter ≠ "b" → letter ≠ "c" →
       stage_of_letter letter = None)
  ∧ (∀ letter n,
       pre (_version ver) = Some (letter, n) →
       stage_of_letter letter = None →
       ∃ msg, parse_version ver = Raise (MetadataError msg))
  ∧ (∀ M m rest,
       release (_version ver) = M :: m :: rest →
       let foreign := default [] (raw_local (_version ver)) in
       (∀ letter n st,
          pre (_version ver) = Some (letter, n) →
          stage_of_letter letter = Some st →
          parse_version ver
          = Return (mkVersion M m st n
                      (dev_segments (dev (_version ver)) ++ foreign)))
       ∧ (∀ tag k,
            pre (_version ver) = None →
            dev (_version ver) = Some (tag, k) →
            parse_version ver = Return (mkVersion M m DEV k foreign))
       ∧ (pre (_version ver) = None →
          dev (_version ver) = None →
          parse_version ver = Return (mkVersion M m FINAL 0 foreign))).
Proof.
  split; [done|]. split; [done|]. split; [done|]. split.
  { intros letter ???. rewrite /stage_of_letter. by repeat case_decide. }
  split.
  { intros letter n Hp Hl. eexists. by eapply parse_version_bad_letter. }
  intros M m rest Hr foreign. split; [|split].
  - intros. by eapply parse_version_pre.
  - intros. by eapply parse_version_dev.
  - intros. by eapply parse_version_final.
Qed.

Lemma parse_version_spec_witness :
  parse_version
    (mkForeignVersion "1.0b2.dev3+abc.x"
       (mkRawVersion [1; 0] (Some ("b", 2)) (Some ("dev", 3))
          (Some ["abc"; "x"])))
  = Return (mkVersion 1 0 BETA 2 ["dev"; "3"; "abc"; "x"])
  ∧ parse_version
      (mkForeignVersion "1.0.dev7"
         (mkRawVersion [1; 0] None (Some ("dev", 7)) None))
    = Return (mkVersion 1 0 DEV 7 [])
  ∧ parse_version
      (mkForeignVersion "2.1+l" (mkRawVersion [2; 1; 5] None None (Some ["l"])))
    = Return (mkVersion 2 1 FINAL 0 ["l"])
  ∧ ∃ msg,
      parse_version
        (mkForeignVersion "1.0rc1"
           (mkRawVersion [1; 0] (Some ("rc", 1)) None None))
      = Raise (MetadataError msg).
Proof.
  split; [|split; [|split]].
  - by eapply (parse_version_spec
                 (mkForeignVersion "1.0b2.dev3+abc.x"
                    (mkRawVersion [1; 0] (Some ("b", 2)) (Some ("dev", 3))
                       (Some ["abc"; "x"])))).
  - by eapply (parse_version_spec
                 (mkForeignVersion "1.0.dev7"
                    (mkRawVersion [1; 0] None (Some ("dev", 7)) None))).
  - by eapply (parse_version_spec
                 (mkForeignVersion "2.1+l"
                    (mkRawVersion [2; 1; 5] None None (Some ["l"])))).
  - by eapply (parse_version_spec
                 (mkForeignVersion "1.0rc1"
                    (mkRawVersion [1; 0] (Some ("rc", 1)) None None))).
Defined.

End version.

(** ** The metadata accessor and the path resolvers *)

Section metadata.
Context `{Repr}.
Implicit Types (w : World) (fs : FS) (prop : string).

Lemma get_build_metadata_value_env w prop s :
  env_override w prop = Some s →
  get_build_metadata_value w prop = Return (VStr s).
Proof.
  rewrite /env_override /get_build_metadata_value.
  destruct (os_environ w !! env_name prop) as [s'|]; [|done].
  by case_decide; intros [= ->].
Qed.

Lemma get_build_metadata_value_embedded w prop :
  env_override w prop = None →
  get_build_metadata_value w prop
  = match embedded_value w prop with
    | Some v => Return v
    | None => Raise (MetadataError
                       ("could not find " +:+ prop +:+ " in build metadata"))
    end.
Proof.
  rewrite /env_override /get_build_metadata_value /embedded_value
    /import_buildmeta /getattr.
  cbv zeta. intros He.
  destruct (os_environ w !! env_name prop) as [s|];
    [case_decide; [done|]|];
    (destruct (_buildmeta w) as [m|]; simpl; [|done]);
    by destruct (m !! prop).
Qed.

Lemma env_override_cases w prop :
  env_override w prop = None
  ↔ os_environ w !! env_name prop = None
    ∨ os_environ w !! env_name prop = Some "".
Proof.
  rewrite /env_override.
  destruct (os_environ w !! env_name prop) as [s|]; [|by split; [left|]].
  case_decide as Hs.
  - split; [done|]. intros [?|[= ->]]; [done|]. by destruct Hs.
  - assert (s = "") as -> by by destruct (decide (s = "")).
    by split; [right|].
Qed.

(** C6: a present, non-empty environment override is returned verbatim,
    whatever the embedded record holds; without one, the embedded record's
    attribute is returned when it is there; [MetadataError] is raised
    exactly when neither source has a value, and nothing else is ever
    raised. *)
Theorem get_build_metadata_value_spec w prop :
  (∀ s, os_environ w !! env_name prop = Some s → s ≠ "" →
        get_build_metadata_value w prop = Return (VStr s))
  ∧ (∀ m v,
       os_environ w !! env_name prop = None
       ∨ os_environ w !! env_name prop = Some "" →
       _buildmeta w = Some m → m !! prop = Some v →
       get_build_metadata_value w prop = Return v)
  ∧ ((∃ msg, get_build_metadata_value w prop = Raise (MetadataError msg))
     ↔ (os_environ w !! env_name prop = None
        ∨ os_environ w !! env_name prop = Some "")
       ∧ (_buildmeta w = None
          ∨ ∃ m, _buildmeta w = Some m ∧ m !! prop = None))
  ∧ (∀ e, get_build_metadata_value w prop = Raise e →
          ∃ msg, e = MetadataError msg).
Proof.
  split; [|split; [|split]].
  - intros s Hs Hne. apply get_build_metadata_value_env.
    rewrite /env_override Hs. by case_decide.
  - intros m v He%env_override_cases Hm Hv.
    rewrite get_build_metadata_value_embedded // /embedded_value Hm /= Hv //.
  - rewrite -env_override_cases. split.
    + intros [msg Hr]. destruct (env_override w prop) as [s|] eqn:He.
      { by rewrite (get_build_metadata_value_env _ _ s) in Hr. }
      split; [done|]. rewrite get_build_metadata_value_embedded // in Hr.
      rewrite /embedded_value in Hr.
      destruct (_buildmeta w) as [m|]; [right|by left].
      exists m. split; [done|]. simpl in Hr. by destruct (m !! prop).
    + intros [He Hb]. rewrite get_build_metadata_value_embedded //.
      rewrite /embedded_value.
      destruct Hb as [->|(m & -> & Hm)]; simpl; [|rewrite Hm]; by eexists.
  - intros e. destruct (env_override w prop) as [s|] eqn:He.
    { by rewrite (get_build_metadata_value_env _ _ s). }
    rewrite get_build_metadata_value_embedded //.
    destruct (embedded_value w prop); [done|]. intros [= <-]. by eexists.
Qed.

Lemma get_build_metadata_value_spec_witness :
  let record : gmap string value :=
    {[ "PG_CONFIG_PATH" := VStr "/usr/bin/pg_config";
       "RUNSTATE_DIR" := VStr "/run/edgedb" ]} in
  let w :=
    mkWorld {[ env_name "PG_CONFIG_PATH" := "/opt/pg/bin/pg_config";
               env_name "RUNSTATE_DIR" := "" ]}
      (Some record) false [] "/srv/edb/server" id in
  get_build_metadata_value w "PG_CONFIG_PATH"
  = Return (VStr "/opt/pg/bin/pg_config")
  ∧ get_build_metadata_value w "RUNSTATE_DIR" = Return (VStr "/run/edgedb")
  ∧ ∃ msg, get_build_metadata_value w "VERSION" = Raise (MetadataError msg).
Proof.
  intros record w. split; [|split].
  - by apply (get_build_metadata_value_spec w "PG_CONFIG_PATH").
  - apply (proj1 (proj2 (get_build_metadata_value_spec w "RUNSTATE_DIR"))
             record); [by right|done|done].
  - apply (get_build_metadata_value_spec w "VERSION").
    split; [by left|]. right. by exists record.
Defined.

Lemma is_file_false fs (p : Path) :
  is_file fs p = false ↔ fs !! p = None ∨ fs !! p = Some Dir.
Proof.
  rewrite /is_file. destruct (fs !! p) as [[]|].
  - by split; [|intros [|]].
  - by split; [right|].
  - by split; [left|].
Qed.

Lemma get_pg_config_path_dev_built w fs :
  is_in_dev_mode w = true → is_file fs (dev_pg_config w) = true →
  get_pg_config_path w fs = Return (dev_pg_config w).
Proof.
  intros Hd Hf. rewrite /get_pg_config_path. cbv zeta.
  by rewrite Hd Hf /= Hf.
Qed.

Lemma get_pg_config_path_dev_fallback w fs s :
  is_in_dev_mode w = true → is_file fs (dev_pg_config w) = false →
  get_build_metadata_value w "PG_CONFIG_PATH" = Return (VStr s) →
  get_pg_config_path w fs
  = if is_file fs (Path_of_str s) then Return (Path_of_str s)
    else Raise (MetadataError dev_mode_message).
Proof.
  intros Hd Hf Ha. rewrite /get_pg_config_path. cbv zeta.
  rewrite Hd Hf Ha /=. by destruct (is_file fs (Path_of_str s)).
Qed.

Lemma get_pg_config_path_dev_nothing w fs msg :
  is_in_dev_mode w = true → is_file fs (dev_pg_config w) = false →
  get_build_metadata_value w "PG_CONFIG_PATH" = Raise (MetadataError msg) →
  get_pg_config_path w fs = Raise (MetadataError dev_mode_message).
Proof.
  intros Hd Hf Ha. rewrite /get_pg_config_path. cbv zeta.
  by rewrite Hd Hf Ha /= Hf.
Qed.

Lemma get_pg_config_path_installed w fs s :
  is_in_dev_mode w = false →
  get_build_metadata_value w "PG_CONFIG_PATH" = Return (VStr s) →
  get_pg_config_path w fs
  = if is_file fs (Path_of_str s) then Return (Path_of_str s)
    else Raise (MetadataError (invalid_path_message (Path_of_str s))).
Proof.
  intros Hd Ha. rewrite /get_pg_config_path Hd Ha /=.
  by destruct (is_file fs (Path_of_str s)).
Qed.

Lemma get_pg_config_path_installed_missing w fs e :
  is_in_dev_mode w = false →
  get_build_metadata_value w "PG_CONFIG_PATH" = Raise e →
  get_pg_config_path w fs = Raise e.
Proof. intros Hd Ha. by rewrite /get_pg_config_path Hd Ha. Qed.

(** C9: in development mode the path is the conventional build output,
    [build/postgres/install/bin/pg_config] under the grandparent directory
    of the package, when that is a regular file; otherwise the accessor's
    [PG_CONFIG_PATH] is tried, and [MetadataError] (asking for
    [pip install -e .]) is raised when the result is absent or no regular
    file.  Outside development mode the path comes from the accessor alone,
    and unless it is a regular file [MetadataError] is raised with [repr] of
    the path in its message: the path's own text wherever [repr] only puts
    quotes around it. *)
Theorem get_pg_config_path_spec w fs :
  dev_pg_config w
  = resolve w (parent (parent (Path_of_str (edb_server_path w)))
                 ++ ["build"; "postgres"; "install"; "bin"; "pg_config"])
  ∧ (is_in_dev_mode w = true →
     (is_file fs (dev_pg_config w) = true →
        get_pg_config_path w fs = Return (dev_pg_config w))
     ∧ (is_file fs (dev_pg_config w) = false →
          (∀ s, get_build_metadata_value w "PG_CONFIG_PATH"
                = Return (VStr s) →
                get_pg_config_path w fs
                = if is_file fs (Path_of_str s) then Return (Path_of_str s)
                  else Raise (MetadataError dev_mode_message))
          ∧ (∀ msg, get_build_metadata_value w "PG_CONFIG_PATH"
                    = Raise (MetadataError msg) →
                    get_pg_config_path w fs
                    = Raise (MetadataError dev_mode_message))))
  ∧ (is_in_dev_mode w = false →
       (∀ s, get_build_metadata_value w "PG_CONFIG_PATH"
             = Return (VStr s) →
             get_pg_config_path w fs
             = if is_file fs (Path_of_str s) then Return (Path_of_str s)
               else Raise (MetadataError
                             (invalid_path_message (Path_of_str s))))
       ∧ (∀ e, get_build_metadata_value w "PG_CONFIG_PATH" = Raise e →
               get_pg_config_path w fs = Raise e))
  ∧ (∀ p : Path, is_file fs p = false
                 ↔ fs !! p = None ∨ fs !! p = Some Dir)
  ∧ (∀ p : Path,
       invalid_path_message p
       = "invalid pg_config path: PosixPath(" +:+ repr_str (Path_str p)
           +:+ "): file does not exist or is not a regular file")
  ∧ (∀ p : Path,
       repr_str (Path_str p) = "'" +:+ Path_str p +:+ "'" →
       ∃ before after,
         invalid_path_message p = before +:+ Path_str p +:+ after)
  ∧ (∃ before, dev_mode_message = before +:+ "run `pip install -e .`").
Proof.
  assert (∀ p : Path,
            invalid_path_message p
            = "invalid pg_config path: PosixPath(" +:+ repr_str (Path_str p)
                +:+ "): file does not exist or is not a regular file")
    as Hmsg.
  { intros p. by rewrite /invalid_path_message /Path_repr !append_assoc. }
  split; [|split; [|split; [|split; [|split; [|split]]]]].
  - rewrite /dev_pg_config. cbv zeta. f_equal.
    by rewrite /joinpath /= -!app_assoc.
  - intros Hd. split; [by apply get_pg_config_path_dev_built|].
    intros Hf. split.
    + intros s. by apply get_pg_config_path_dev_fallback.
    + intros msg. by apply get_pg_config_path_dev_nothing.
  - intros Hd. split.
    + intros s. by apply get_pg_config_path_installed.
    + intros e. by apply get_pg_config_path_installed_missing.
  - apply is_file_false.
  - apply Hmsg.
  - intros p Hrepr. exists "invalid pg_config path: PosixPath('",
      "'): file does not exist or is not a regular file".
    by rewrite Hmsg Hrepr !append_assoc.
  - by exists "DEV mode: Could not find PostgreSQL build, ".
Qed.

End metadata.

Lemma get_pg_config_path_spec_witness :
  let fs : FS :=
    {[ ["/"; "usr"; "bin"; "pg_config"] := File [];
       ["//"; "opt"; "pg"] := Dir ]} in
  let dev :=
    mkWorld {[ env_name "PG_CONFIG_PATH" := "/usr/bin/pg_config" ]}
      None true [] "/src/edb/server" id in
  let broken :=
    mkWorld {[ env_name "PG_CONFIG_PATH" := "//opt/pg" ]}
      None false [] "/src/edb/server" id in
  dev_pg_config dev
  = ["/"; "src"; "build"; "postgres"; "install"; "bin"; "pg_config"]
  ∧ @get_pg_config_path builtin_repr dev fs
    = Return ["/"; "usr"; "bin"; "pg_config"]
  ∧ @get_pg_config_path builtin_repr broken fs
    = Raise (MetadataError
               ("invalid pg_config path: PosixPath('//opt/pg')"
                  +:+ ": file does not exist or is not a regular file"))
  ∧ ∃ before after,
      @invalid_path_message builtin_repr ["//"; "opt"; "pg"]
      = before +:+ "//opt/pg" +:+ after.
Proof.
  intros fs dev broken.
  destruct (@get_pg_config_path_spec builtin_repr dev fs)
    as (Hwhere & Hdev & _).
  destruct (@get_pg_config_path_spec builtin_repr broken fs)
    as (_ & _ & Hinst & _ & _ & Htext & _).
  split; [by rewrite Hwhere|]. split.
  - by apply (proj1 (proj2 (Hdev eq_refl) eq_refl) "/usr/bin/pg_config").
  - split; [by apply (proj1 (Hinst eq_refl) "//opt/pg")|].
    by apply (Htext ["//"; "opt"; "pg"]).
Defined.

(** ** The content-addressed cache *)

Section cache_primitives.
Implicit Types (s : machine) (fs : FS) (p f dir : Path) (data : bytes).

Lemma fresh_name_free s dir n :
  fresh_name s dir = Some n → files s !! (dir ++ [n]) = None.
Proof.
  rewrite /fresh_name. intros [_ Hn]%find_some.
  by apply bool_decide_eq_true in Hn.
Qed.

Lemma NamedTemporaryFile_created s dir n :
  files s !! dir = Some Dir → fresh_name s dir = Some n →
  NamedTemporaryFile dir s
  = (Return (dir ++ [n]),
     step s (<[dir ++ [n] := File []]> (files s)) (free_space s)).
Proof.
  rewrite /NamedTemporaryFile /fresh_name. by intros -> ->.
Qed.

Lemma NamedTemporaryFile_raises s dir :
  files s !! dir ≠ Some Dir ∨ fresh_name s dir = None →
  ∃ e, NamedTemporaryFile dir s = (Raise e, s).
Proof.
  rewrite /NamedTemporaryFile /fresh_name.
  destruct (files s !! dir) as [[]|]; [by eexists| |by eexists].
  intros [?| ->]; [done|by eexists].
Qed.

Lemma file_write_fits s f old data :
  files s !! f = Some (File old) → fits (free_space s) (length data) →
  file_write f data s
  = (Return (),
     step s (<[f := File (old ++ data)]> (files s))
       (free_after (free_space s) (length data))).
Proof.
  rewrite /file_write /fits /free_after. intros ->.
  destruct (free_space s) as [k|] eqn:Hk; [|by rewrite /set_files /step Hk].
  intros ?. by rewrite decide_True.
Qed.

Lemma file_write_overflow s f old data k :
  files s !! f = Some (File old) → free_space s = Some k →
  (k < length data)%nat →
  file_write f data s
  = (Raise OSError,
     step s (<[f := File (old ++ take k data)]> (files s)) (Some 0%nat)).
Proof.
  rewrite /file_write. intros -> -> ?. rewrite decide_False //. lia.
Qed.

Lemma os_unlink_file s p data :
  unlink_denied s = false → files s !! p = Some (File data) →
  os_unlink p s = (Return (), step s (delete p (files s)) (free_space s)).
Proof. rewrite /os_unlink. by intros -> ->. Qed.

Lemma os_unlink_denied s p :
  unlink_denied s = true → os_unlink p s = (Raise OSError, s).
Proof. rewrite /os_unlink. by intros ->. Qed.

Lemma os_rename_file s src dst data :
  files s !! src = Some (File data) → files s !! dst ≠ Some Dir →
  os_rename src dst s
  = (Return (),
     step s (<[dst := File data]> (delete src (files s))) (free_space s)).
Proof.
  rewrite /os_rename. intros -> ?. by destruct (files s !! dst) as [[]|].
Qed.

Lemma os_rename_onto_dir s src dst data :
  files s !! src = Some (File data) → files s !! dst = Some Dir →
  os_rename src dst s = (Raise IsADirectoryError, s).
Proof. rewrite /os_rename. by intros -> ->. Qed.

Lemma cleanup_removes s f e data :
  unlink_denied s = false → files s !! f = Some (File data) →
  cleanup (Some f) e s
  = (Raise e, step s (delete f (files s)) (free_space s)).
Proof. intros ??. by rewrite /cleanup (os_unlink_file _ _ data). Qed.

Lemma cleanup_denied s f e :
  unlink_denied s = true → cleanup (Some f) e s = (Raise e, s).
Proof. intros ?. by rewrite /cleanup os_unlink_denied. Qed.

End cache_primitives.

Section write.
Context `{Pickle}.
Local Arguments cleanup : simpl never.
Local Arguments os_rename : simpl never.
Local Arguments file_write : simpl never.
Local Arguments NamedTemporaryFile : simpl never.
Variables (w : World) (obj : value) (key : bytes) (path : Path).
Variables (pickled : bool) (target_dir : option Path).
Variables (d : Path) (s : machine) (n : string).

Let full : Path := (d / path)%path.
Let tmp : Path := parent full ++ [n].
(** The file system with the temporary file holding [content]. *)
Let with_tmp (content : bytes) : FS := <[tmp := File content]> (files s).

Hypothesis Hd : dir_or_default w target_dir = Return d.
Hypothesis Hdir : files s !! parent full = Some Dir.
Hypothesis Hn : fresh_name s (parent full) = Some n.

Lemma tmp_free : files s !! tmp = None.
Proof. by apply fresh_name_free. Qed.

Lemma with_tmp_again c c' : <[tmp := File c']> (with_tmp c) = with_tmp c'.
Proof. by rewrite /with_tmp insert_insert_eq. Qed.

Lemma with_tmp_delete c : delete tmp (with_tmp c) = files s.
Proof. rewrite /with_tmp delete_insert_eq delete_id //. apply tmp_free. Qed.

(** What is left once the [except] clause has run on a file system that
    holds the temporary file. *)
Let cleaned (fs : FS) : FS := if unlink_denied s then fs else files s.
Let cleaned_seen : list FS := if unlink_denied s then [] else [files s].

Lemma cleanup_tmp s' e c :
  files s' = with_tmp c → unlink_denied s' = unlink_denied s →
  ∃ s'', cleanup (Some tmp) e s' = (Raise e, s'')
         ∧ files s'' = cleaned (with_tmp c)
         ∧ seen s'' = seen s' ++ cleaned_seen.
Proof.
  intros Hf Hu. rewrite /cleaned /cleaned_seen.
  destruct (unlink_denied s) eqn:Hden.
  - exists s'. rewrite cleanup_denied // Hf app_nil_r //.
  - assert (files s' !! tmp = Some (File c)) as Hc.
    { by rewrite Hf /with_tmp lookup_insert_eq. }
    eexists. rewrite (cleanup_removes _ _ _ c) //.
    split; [done|]. by rewrite /= Hf with_tmp_delete.
Qed.

Lemma write_key_overflow k :
  free_space s = Some k → (k < length key)%nat →
  ∃ s', write_data_cache w obj key path pickled target_dir s
        = (Raise OSError, s')
        ∧ files s' = cleaned (with_tmp (take k key))
        ∧ seen s' = seen s ++ [with_tmp []; with_tmp (take k key)]
                      ++ cleaned_seen.
Proof.
  intros Hk Hlt. rewrite /write_data_cache Hd /mbind /M_bind /lift.
  rewrite (NamedTemporaryFile_created _ _ n) // -/full -/tmp.
  rewrite (file_write_overflow _ _ [] _ k) //=;
    [|by rewrite lookup_insert_eq].
  rewrite with_tmp_again.
  destruct (cleanup_tmp
              (step (step s (with_tmp []) (free_space s))
                 (with_tmp (take k key)) (Some 0%nat))
              OSError (take k key)) as (s' & Hc & Hf & Hs); [done..|].
  exists s'. split; [exact Hc|]. split; [done|].
  by rewrite Hs /= -!app_assoc.
Qed.

Lemma write_payload_raises e :
  fits (free_space s) (length key) → payload obj pickled = Raise e →
  ∃ s', write_data_cache w obj key path pickled target_dir s = (Raise e, s')
        ∧ files s' = cleaned (with_tmp key)
        ∧ seen s' = seen s ++ [with_tmp []; with_tmp key] ++ cleaned_seen.
Proof.
  intros Hk Hp. rewrite /write_data_cache Hd /mbind /M_bind /lift.
  rewrite (NamedTemporaryFile_created _ _ n) // -/full -/tmp.
  rewrite (file_write_fits _ _ []) //=; [|by rewrite lookup_insert_eq].
  rewrite Hp with_tmp_again.
  destruct (cleanup_tmp
              (step (step s (with_tmp []) (free_space s)) (with_tmp key)
                 (free_after (free_space s) (length key)))
              e key) as (s' & Hc & Hf & Hs); [done..|].
  exists s'. split; [exact Hc|]. split; [done|].
  by rewrite Hs /= -!app_assoc.
Qed.

Lemma write_payload_overflow data k :
  payload obj pickled = Return data → free_space s = Some k →
  (length key ≤ k < length key + length data)%nat →
  ∃ s', write_data_cache w obj key path pickled target_dir s
        = (Raise OSError, s')
        ∧ files s' = cleaned (with_tmp (key ++ take (k - length key) data))
        ∧ seen s' = seen s
                      ++ [with_tmp []; with_tmp key;
                          with_tmp (key ++ take (k - length key) data)]
                      ++ cleaned_seen.
Proof.
  intros Hp Hk [Hle Hlt]. rewrite /write_data_cache Hd /mbind /M_bind /lift.
  rewrite (NamedTemporaryFile_created _ _ n) // -/full -/tmp.
  rewrite (file_write_fits _ _ []) /=;
    [|by rewrite lookup_insert_eq|by rewrite Hk].
  rewrite Hp with_tmp_again.
  rewrite (file_write_overflow _ _ key _ (k - length key)) /=;
    [|by rewrite /with_tmp lookup_insert_eq|by rewrite Hk|lia].
  rewrite with_tmp_again.
  destruct (cleanup_tmp
              (step
                 (step (step s (with_tmp []) (free_space s)) (with_tmp key)
                    (free_after (free_space s) (length key)))
                 (with_tmp (key ++ take (k - length key) data))
                 (Some 0%nat))
              OSError (key ++ take (k - length key) data))
    as (s' & Hc & Hf & Hs); [done..|].
  exists s'. split; [exact Hc|]. split; [done|].
  by rewrite Hs /= -!app_assoc.
Qed.

Lemma fits_after (free : option nat) (a b : nat) :
  fits free (a + b) → fits free a ∧ fits (free_after free a) b.
Proof. destruct free; simpl; [lia|done]. Qed.

(** The state the body of the [try] ends in when nothing fails. *)
Lemma write_body_done data :
  payload obj pickled = Return data →
  fits (free_space s) (length key + length data) →
  (file_write tmp key ≫= λ _,
     lift (payload obj pickled) ≫= λ data, file_write tmp data)
    (step s (with_tmp []) (free_space s))
  = (Return (),
     step
       (step (step s (with_tmp []) (free_space s)) (with_tmp key)
          (free_after (free_space s) (length key)))
       (with_tmp (key ++ data))
       (free_after (free_after (free_space s) (length key))
          (length data))).
Proof.
  intros Hp [Hk Hkd]%fits_after. rewrite /mbind /M_bind /lift.
  rewrite (file_write_fits _ _ []) //=; [|by rewrite lookup_insert_eq].
  rewrite Hp with_tmp_again.
  rewrite (file_write_fits _ _ key) //=;
    [|by rewrite /with_tmp lookup_insert_eq].
  by rewrite with_tmp_again.
Qed.

Lemma write_success data :
  payload obj pickled = Return data →
  fits (free_space s) (length key + length data) →
  files s !! full ≠ Some Dir →
  ∃ s', write_data_cache w obj key path pickled target_dir s
        = (Return (), s')
        ∧ files s' = <[full := File (key ++ data)]> (files s)
        ∧ seen s' = seen s
                      ++ [with_tmp []; with_tmp key; with_tmp (key ++ data);
                          <[full := File (key ++ data)]> (files s)].
Proof.
  intros Hp Hfit Hfull.
  rewrite /write_data_cache Hd {1}/mbind {1}/M_bind {1}/lift.
  rewrite (NamedTemporaryFile_created _ _ n) // -/full -/tmp.
  rewrite (write_body_done data) //.
  assert (with_tmp (key ++ data) !! full ≠ Some Dir) as Hnd.
  { rewrite /with_tmp. destruct (decide (tmp = full)) as [Heq|?].
    - by rewrite -Heq lookup_insert_eq.
    - by rewrite lookup_insert_ne. }
  assert (with_tmp (key ++ data) !! tmp = Some (File (key ++ data))) as Htmp.
  { by rewrite /with_tmp lookup_insert_eq. }
  rewrite (os_rename_file _ _ _ (key ++ data)) //=.
  eexists. split; [done|]. rewrite with_tmp_delete.
  split; [done|]. by rewrite /= -!app_assoc.
Qed.

Lemma write_onto_directory data :
  payload obj pickled = Return data →
  fits (free_space s) (length key + length data) →
  files s !! full = Some Dir →
  ∃ s', write_data_cache w obj key path pickled target_dir s
        = (Raise IsADirectoryError, s')
        ∧ files s' = with_tmp (key ++ data)
        ∧ seen s' = seen s
                      ++ [with_tmp []; with_tmp key; with_tmp (key ++ data)].
Proof.
  intros Hp Hfit Hfull.
  rewrite /write_data_cache Hd {1}/mbind {1}/M_bind {1}/lift.
  rewrite (NamedTemporaryFile_created _ _ n) // -/full -/tmp.
  rewrite (write_body_done data) //.
  assert (with_tmp (key ++ data) !! full = Some Dir) as Hnd.
  { rewrite /with_tmp lookup_insert_ne //. intros Heq.
    pose proof tmp_free as Hfree. by rewrite Heq Hfull in Hfree. }
  assert (with_tmp (key ++ data) !! tmp = Some (File (key ++ data))) as Htmp.
  { by rewrite /with_tmp lookup_insert_eq. }
  rewrite (os_rename_onto_dir _ _ _ (key ++ data)) //=.
  eexists. split; [done|]. split; [done|]. by rewrite /= -!app_assoc.
Qed.

End write.

Section write_spec.
Context `{Pickle}.

Lemma write_no_temporary_file w obj key path pickled target_dir d s :
  dir_or_default w target_dir = Return d →
  files s !! parent (d / path)%path ≠ Some Dir
  ∨ fresh_name s (parent (d / path)%path) = None →
  write_data_cache w obj key path pickled target_dir s
  = (Raise UnboundLocalError, s).
Proof.
  intros Hd [e He]%NamedTemporaryFile_raises.
  by rewrite /write_data_cache Hd /mbind /M_bind /lift He.
Qed.

(** C2, amended: once the temporary file exists, a failure while it is
    written (the key or the payload does not fit on the disk, or the payload
    cannot be produced) reaches the caller as the very exception that
    occurred, also when deleting the temporary file fails; the destination
    is as it was before, and when the deletion went through the whole file
    system is, so no temporary file is left.  When nothing fails and the
    destination is not a directory, the temporary file is renamed onto the
    destination, whose earlier contents, if any, are replaced, and nothing
    else changes.  In every file-system state the call goes through, the
    destination is either as it was or holds the complete entry. *)
Theorem write_data_cache_atomic w obj key path pickled target_dir d s n :
  dir_or_default w target_dir = Return d →
  files s !! parent (d / path)%path = Some Dir →
  fresh_name s (parent (d / path)%path) = Some n →
  parent (d / path)%path ++ [n] ≠ (d / path)%path →
  ∃ r s' hist,
    write_data_cache w obj key path pickled target_dir s = (r, s')
    ∧ seen s' = seen s ++ hist
    ∧ (∀ e,
         write_failure (free_space s) key (payload obj pickled) = Some e →
         r = Raise e
         ∧ (∀ fs, fs ∈ hist →
                  fs !! (d / path)%path = files s !! (d / path)%path)
         ∧ files s' !! (d / path)%path = files s !! (d / path)%path
         ∧ (unlink_denied s = false → files s' = files s))
    ∧ (write_failure (free_space s) key (payload obj pickled) = None →
       ∃ data,
         payload obj pickled = Return data
         ∧ (∀ fs, fs ∈ hist →
              fs !! (d / path)%path = files s !! (d / path)%path
              ∨ fs !! (d / path)%path = Some (File (key ++ data)))
         ∧ (files s !! (d / path)%path ≠ Some Dir →
            r = Return ()
            ∧ files s' = <[(d / path)%path := File (key ++ data)]> (files s))).
Proof.
  intros Hd Hdir Hn Hne.
  set (full := (d / path)%path) in *. set (tmp := parent full ++ [n]) in *.
  assert (∀ c, <[tmp := File c]> (files s) !! full = files s !! full)
    as Htmp by (intros c; by rewrite lookup_insert_ne).
  rewrite /write_failure.
  destruct (decide (fits (free_space s) (length key))) as [Hk|Hk].
  - destruct (payload obj pickled) as [data|e] eqn:Hp.
    + destruct (decide (fits (free_space s) (length key + length data)))
        as [Hkd|Hkd].
      * destruct (decide (files s !! full = Some Dir)) as [Hfull|Hfull].
        -- destruct (write_onto_directory w obj key path pickled target_dir
                       d s n Hd Hdir Hn data Hp Hkd Hfull)
             as (s' & Hw & Hf & Hs).
           eexists _, s', _. split; [exact Hw|]. split; [exact Hs|].
           split; [done|]. intros _. exists data. split; [done|].
           split; [|done]. intros fs Hin. left.
           rewrite !elem_of_cons elem_of_nil in Hin.
           by destruct Hin as [->|[->|[->|[]]]].
        -- destruct (write_success w obj key path pickled target_dir
                       d s n Hd Hdir Hn data Hp Hkd Hfull)
             as (s' & Hw & Hf & Hs).
           eexists _, s', _. split; [exact Hw|]. split; [exact Hs|].
           split; [done|]. intros _. exists data. split; [done|].
           split; [|done]. intros fs Hin.
           rewrite !elem_of_cons elem_of_nil in Hin.
           destruct Hin as [->|[->|[->|[->|[]]]]]; [by left..|right].
           by rewrite lookup_insert_eq.
      * destruct (free_space s) as [k|] eqn:Hfree; [|done].
        simpl in Hk, Hkd.
        destruct (write_payload_overflow w obj key path pickled target_dir
                    d s n Hd Hdir Hn data k Hp Hfree ltac:(lia))
          as (s' & Hw & Hf & Hs).
        eexists _, s', _. split; [exact Hw|]. split; [exact Hs|].
        split; [|done]. intros e [= <-]. split; [done|].
        split; [|split].
        -- intros fs Hin. rewrite elem_of_app !elem_of_cons elem_of_nil in Hin.
           destruct Hin as [[->|[->|[->|[]]]]|Hin]; [done..|].
           destruct (unlink_denied s); [by apply elem_of_nil in Hin|].
           by apply list_elem_of_singleton in Hin as ->.
        -- rewrite Hf. by destruct (unlink_denied s).
        -- intros Hu. by rewrite Hf Hu.
    + destruct (write_payload_raises w obj key path pickled target_dir
                  d s n Hd Hdir Hn e Hk Hp) as (s' & Hw & Hf & Hs).
      eexists _, s', _. split; [exact Hw|]. split; [exact Hs|].
      split; [|done]. intros e' [= <-]. split; [done|].
      split; [|split].
      * intros fs Hin. rewrite elem_of_app !elem_of_cons elem_of_nil in Hin.
        destruct Hin as [[->|[->|[]]]|Hin]; [done..|].
        destruct (unlink_denied s); [by apply elem_of_nil in Hin|].
        by apply list_elem_of_singleton in Hin as ->.
      * rewrite Hf. by destruct (unlink_denied s).
      * intros Hu. by rewrite Hf Hu.
  - destruct (free_space s) as [k|] eqn:Hfree; [|done]. simpl in Hk.
    destruct (write_key_overflow w obj key path pickled target_dir
                d s n Hd Hdir Hn k Hfree ltac:(lia))
      as (s' & Hw & Hf & Hs).
    eexists _, s', _. split; [exact Hw|]. split; [exact Hs|].
    split; [|done]. intros e [= <-]. split; [done|].
    split; [|split].
    + intros fs Hin. rewrite elem_of_app !elem_of_cons elem_of_nil in Hin.
      destruct Hin as [[->|[->|[]]]|Hin]; [done..|].
      destruct (unlink_denied s); [by apply elem_of_nil in Hin|].
      by apply list_elem_of_singleton in Hin as ->.
    + rewrite Hf. by destruct (unlink_denied s).
    + intros Hu. by rewrite Hf Hu.
Qed.

End write_spec.

Section read_spec.
Context `{Pickle}.
Implicit Types (w : World) (s : machine) (key : bytes) (path d : Path).

Lemma read_data_cache_eq w key path pickled dir d s :
  dir_or_default w dir = Return d →
  read_data_cache w key path pickled dir s
  = match files s !! (d / path)%path with
    | None => (Return VNone, s)
    | Some Dir => (Raise IsADirectoryError, s)
    | Some (File content) =>
        if decide (take (length key) content = key) then
          if pickled then
            match pickle_loads (drop (length key) content) with
            | Return v => (Return v, s)
            | Raise _ =>
                (Return VNone,
                 logged s ("could not unpickle " +:+ Path_str path))
            end
          else (Return (VBytes (drop (length key) content)), s)
        else (Return VNone, s)
    end.
Proof.
  intros Hd.
  rewrite /read_data_cache Hd /mbind /M_bind /lift /path_exists /exists_
    /open_rb /file_read /file_read_all /try_except.
  destruct (files s !! (d / path)%path) as [[content|]|] eqn:Hf;
    rewrite /= ?Hf //.
  case_decide; [|done]. destruct pickled; [|done].
  by destruct (pickle_loads _).
Qed.

Lemma write_returns_inv w obj key path pickled dir s s' :
  write_data_cache w obj key path pickled dir s = (Return (), s') →
  ∃ d data,
    dir_or_default w dir = Return d
    ∧ payload obj pickled = Return data
    ∧ files s' = <[(d / path)%path := File (key ++ data)]> (files s).
Proof.
  destruct (dir_or_default w dir) as [d|e] eqn:Hd; last first.
  { by rewrite /write_data_cache Hd. }
  intros Hw. exists d.
  destruct (decide (files s !! parent (d / path)%path = Some Dir))
    as [Hdir|Hdir]; last first.
  { rewrite (write_no_temporary_file _ _ _ _ _ _ d) // in Hw. by left. }
  destruct (fresh_name s (parent (d / path)%path)) as [n|] eqn:Hn;
    last first.
  { rewrite (write_no_temporary_file _ _ _ _ _ _ d) // in Hw. by right. }
  destruct (decide (fits (free_space s) (length key))) as [Hk|Hk];
    last first.
  { destruct (free_space s) as [k|] eqn:Hfree; [|done]. simpl in Hk.
    destruct (write_key_overflow w obj key path pickled dir
                d s n Hd Hdir Hn k Hfree ltac:(lia)) as (? & Hw' & _).
    by rewrite Hw' in Hw. }
  destruct (payload obj pickled) as [data|e] eqn:Hp; last first.
  { destruct (write_payload_raises w obj key path pickled dir
                d s n Hd Hdir Hn e Hk Hp) as (? & Hw' & _).
    by rewrite Hw' in Hw. }
  exists data. split; [done|]. split; [done|].
  destruct (decide (fits (free_space s) (length key + length data)))
    as [Hkd|Hkd]; last first.
  { destruct (free_space s) as [k|] eqn:Hfree; [|done].
    simpl in Hk, Hkd.
    destruct (write_payload_overflow w obj key path pickled dir
                d s n Hd Hdir Hn data k Hp Hfree ltac:(lia))
      as (? & Hw' & _).
    by rewrite Hw' in Hw. }
  destruct (decide (files s !! (d / path)%path = Some Dir))
    as [Hfull|Hfull].
  { destruct (write_onto_directory w obj key path pickled dir
                d s n Hd Hdir Hn data Hp Hkd Hfull) as (? & Hw' & _).
    by rewrite Hw' in Hw. }
  destruct (write_success w obj key path pickled dir
              d s n Hd Hdir Hn data Hp Hkd Hfull) as (s'' & Hw' & Hf & _).
  rewrite Hw' in Hw. by simplify_eq.
Qed.

(** C1: when [write_data_cache(obj, key, p)] has returned, with an object
    that [pickle] gives back from its own output,
    [read_data_cache(key, p)] on the same directory returns [obj]
    (and logs nothing). *)
Theorem write_then_read w obj key path dir s s' :
  (∀ data, pickle_dumps obj = Return data → pickle_loads data = Return obj) →
  write_data_cache w obj key path true dir s = (Return (), s') →
  read_data_cache w key path true dir s' = (Return obj, s').
Proof.
  intros Hrt (d & data & Hd & Hp & Hf)%write_returns_inv.
  rewrite (read_data_cache_eq _ _ _ _ _ d) // Hf lookup_insert_eq.
  rewrite take_app_length drop_app_length decide_True //.
  by rewrite (Hrt data).
Qed.

Lemma read_missing w key path pickled dir d s :
  dir_or_default w dir = Return d →
  file_missing (files s) (d / path)%path →
  read_data_cache w key path pickled dir s = (Return VNone, s).
Proof.
  rewrite /file_missing. intros Hd Hf.
  by rewrite (read_data_cache_eq _ _ _ _ _ d) // Hf.
Qed.

Lemma read_key_mismatch w key path pickled dir d s :
  dir_or_default w dir = Return d →
  key_mismatch (files s) (d / path)%path key →
  read_data_cache w key path pickled dir s = (Return VNone, s).
Proof.
  intros Hd (content & Hf & Hk).
  by rewrite (read_data_cache_eq _ _ _ _ _ d) // Hf decide_False.
Qed.

Lemma read_unpickle_fails w key path pickled dir d s :
  dir_or_default w dir = Return d →
  unpickle_fails (files s) (d / path)%path key pickled →
  read_data_cache w key path pickled dir s
  = (Return VNone, logged s ("could not unpickle " +:+ Path_str path)).
Proof.
  intros Hd (-> & content & e & Hf & Hk & Hl).
  by rewrite (read_data_cache_eq _ _ _ _ _ d) // Hf decide_True // Hl.
Qed.

Lemma read_stores_None w key path pickled dir d s :
  dir_or_default w dir = Return d →
  stores_None (files s) (d / path)%path key pickled →
  read_data_cache w key path pickled dir s = (Return VNone, s).
Proof.
  intros Hd (-> & content & Hf & Hk & Hl).
  by rewrite (read_data_cache_eq _ _ _ _ _ d) // Hf decide_True // Hl.
Qed.

Lemma read_None_inv w key path pickled dir d s :
  dir_or_default w dir = Return d →
  (read_data_cache w key path pickled dir s).1 = Return VNone →
  file_missing (files s) (d / path)%path
  ∨ key_mismatch (files s) (d / path)%path key
  ∨ unpickle_fails (files s) (d / path)%path key pickled
  ∨ stores_None (files s) (d / path)%path key pickled.
Proof.
  intros Hd. rewrite (read_data_cache_eq _ _ _ _ _ d) //.
  rewrite /file_missing /key_mismatch /unpickle_fails /stores_None.
  destruct (files s !! (d / path)%path) as [[content|]|]; [|done|by left].
  case_decide as Hk; [|intros _; right; left; by exists content].
  destruct pickled; [|done].
  destruct (pickle_loads (drop (length key) content)) as [v|e] eqn:Hl.
  - simpl. intros [= ->]. do 3 right. split; [done|]. by exists content.
  - intros _. right; right; left. split; [done|]. by exists content, e.
Qed.

(** C3, amended: [read_data_cache] returns [None], and raises nothing, when
    the file does not exist, when the stored key is not the supplied one,
    and when a pickled entry cannot be deserialized, which is logged; it
    returns [None] in exactly these cases and one more: the pickled entry
    deserializes to [None] itself. *)
Theorem read_data_cache_miss w key path pickled dir d s :
  dir_or_default w dir = Return d →
  (file_missing (files s) (d / path)%path →
   read_data_cache w key path pickled dir s = (Return VNone, s))
  ∧ (key_mismatch (files s) (d / path)%path key →
     read_data_cache w key path pickled dir s = (Return VNone, s))
  ∧ (unpickle_fails (files s) (d / path)%path key pickled →
     read_data_cache w key path pickled dir s
     = (Return VNone, logged s ("could not unpickle " +:+ Path_str path)))
  ∧ ((read_data_cache w key path pickled dir s).1 = Return VNone
     ↔ file_missing (files s) (d / path)%path
       ∨ key_mismatch (files s) (d / path)%path key
       ∨ unpickle_fails (files s) (d / path)%path key pickled
       ∨ stores_None (files s) (d / path)%path key pickled).
Proof.
  intros Hd. split; [by apply read_missing|].
  split; [by apply read_key_mismatch|].
  split; [by apply read_unpickle_fails|]. split.
  - by apply read_None_inv.
  - intros [Hm|[Hm|[Hm|Hm]]].
    + by rewrite (read_missing _ _ _ _ _ d).
    + by rewrite (read_key_mismatch _ _ _ _ _ d).
    + by rewrite (read_unpickle_fails _ _ _ _ _ d).
    + by rewrite (read_stores_None _ _ _ _ _ d).
Qed.

(** C10: after [write_data_cache(None, key, path)], pickled,
    [read_data_cache(key, path)] returns [None]: the value it also returns
    for a missing file, for a key that does not match and for an entry that
    cannot be deserialized. *)
Theorem cached_None_reads_as_miss w key path dir s s' :
  (∀ data, pickle_dumps VNone = Return data →
           pickle_loads data = Return VNone) →
  write_data_cache w VNone key path true dir s = (Return (), s') →
  ∃ d, dir_or_default w dir = Return d
       ∧ (read_data_cache w key path true dir s').1 = Return VNone
       ∧ (∀ s0, file_missing (files s0) (d / path)%path →
                (read_data_cache w key path true dir s0).1 = Return VNone)
       ∧ (∀ s0, key_mismatch (files s0) (d / path)%path key →
                (read_data_cache w key path true dir s0).1 = Return VNone)
       ∧ (∀ s0, unpickle_fails (files s0) (d / path)%path key true →
                (read_data_cache w key path true dir s0).1 = Return VNone).
Proof.
  intros Hrt Hw. pose proof Hw as (d & data & Hd & Hp & Hf)%write_returns_inv.
  exists d. split; [done|]. split; [|split; [|split]].
  - rewrite (read_stores_None _ _ _ _ _ d) //.
    split; [done|]. exists (key ++ data).
    rewrite Hf lookup_insert_eq take_app_length drop_app_length.
    split; [done|]. split; [done|]. by apply Hrt.
  - intros s0 ?. by rewrite (read_missing _ _ _ _ _ d).
  - intros s0 ?. by rewrite (read_key_mismatch _ _ _ _ _ d).
  - intros s0 ?. by rewrite (read_unpickle_fails _ _ _ _ _ d).
Qed.

End read_spec.

(** ** The cache on a concrete machine *)

Lemma write_then_read_witness :
  let s' := (demo_write (VInt 7) (demo_machine None false)).2 in
  demo_read s' = (Return (VInt 7), s').
Proof.
  intros s'.
  apply (@write_then_read mini_pickle demo_world (VInt 7) (b "KEY")
           ["c.pickle"] (Some ["d"]) (demo_machine None false) s').
  - intros data [= <-]. reflexivity.
  - vm_compute. reflexivity.
Defined.

Lemma write_data_cache_atomic_witness :
  let full := demo_machine (Some 5%nat) false in
  let roomy := demo_machine None false in
  (demo_write (VInt 7) full).1 = Raise OSError
  ∧ files (demo_write (VInt 7) full).2 = files full
  ∧ (demo_write (VInt 7) roomy).1 = Return ()
  ∧ files (demo_write (VInt 7) roomy).2
    = <[["d"; "c.pickle"] :=
          File (b "KEY" ++ [Byte.x80; Byte.x05] ++ b "K" ++ [Byte.x07]
                  ++ b ".")]> (files roomy).
Proof.
  intros full roomy.
  destruct (@write_data_cache_atomic mini_pickle demo_world (VInt 7)
              (b "KEY") ["c.pickle"] true (Some ["d"]) ["d"] full
              "tmpq1w2e3r4")
    as (r & s' & hist & Hw & Hs & Hfail & _); [done..|].
  destruct (Hfail OSError) as (-> & _ & _ & Hfs); [reflexivity|].
  destruct (@write_data_cache_atomic mini_pickle demo_world (VInt 7)
              (b "KEY") ["c.pickle"] true (Some ["d"]) ["d"] roomy
              "tmpq1w2e3r4")
    as (r2 & s2 & hist2 & Hw2 & Hs2 & _ & Hok); [done..|].
  destruct Hok as (data & [= <-] & _ & Hdone); [reflexivity|].
  destruct Hdone as [-> Hfs2]; [done|].
  rewrite /demo_write Hw Hw2. split; [done|]. split; [by apply Hfs|].
  split; [done|]. exact Hfs2.
Defined.

(** C2 as stated fails.  With a full disk and a temporary file that cannot
    be deleted, the failed write leaves the temporary file behind, holding
    the part of the key that fit.  With a directory at the destination, the
    write goes through, the rename fails, and the temporary file stays. *)
Lemma write_data_cache_leaves_temporary_file :
  let full := demo_machine (Some 2%nat) true in
  let blocked :=
    mkMachine {[ ["d"] := Dir; ["d"; "c.pickle"] := Dir ]} None false
      ["tmpq1w2e3r4"] [] [] in
  (demo_write (VInt 7) full).1 = Raise OSError
  ∧ files full !! ["d"; "tmpq1w2e3r4"] = None
  ∧ files (demo_write (VInt 7) full).2 !! ["d"; "tmpq1w2e3r4"]
    = Some (File (b "KE"))
  ∧ (demo_write (VInt 7) blocked).1 = Raise IsADirectoryError
  ∧ files blocked !! ["d"; "tmpq1w2e3r4"] = None
  ∧ files (demo_write (VInt 7) blocked).2 !! ["d"; "c.pickle"] = Some Dir
  ∧ files (demo_write (VInt 7) blocked).2 !! ["d"; "tmpq1w2e3r4"]
    = Some (File (b "KEY" ++ [Byte.x80; Byte.x05] ++ b "K" ++ [Byte.x07]
                    ++ b ".")).
Proof. intros full blocked. repeat split; vm_compute; reflexivity. Qed.

(** C3 as stated fails on a cached [None]: the file exists, its key matches
    and its payload deserializes, yet the lookup returns [None]. *)
Lemma read_data_cache_None_is_no_miss :
  let s := (demo_write VNone (demo_machine None false)).2 in
  (demo_write VNone (demo_machine None false)).1 = Return ()
  ∧ (demo_read s).1 = Return VNone
  ∧ ¬ (file_missing (files s) ["d"; "c.pickle"]
       ∨ key_mismatch (files s) ["d"; "c.pickle"] (b "KEY")
       ∨ @unpickle_fails mini_pickle (files s) ["d"; "c.pickle"] (b "KEY")
           true).
Proof.
  intros s. split; [done|]. split; [done|].
  assert (files s !! ["d"; "c.pickle"]
          = Some (File (b "KEY" ++ [Byte.x80; Byte.x05] ++ b "N.")))
    as Hf by (vm_compute; reflexivity).
  rewrite /file_missing /key_mismatch /unpickle_fails.
  intros [Hm|[(c & Hc & Hk)|(_ & c & e & Hc & Hk & Hl)]].
  - by rewrite Hf in Hm.
  - rewrite Hf in Hc. injection Hc as <-. by apply Hk.
  - rewrite Hf in Hc. injection Hc as <-. by vm_compute in Hl.
Qed.

Lemma read_data_cache_miss_witness :
  demo_read (demo_machine None false)
  = (Return VNone, demo_machine None false)
  ∧ (demo_read (demo_write VNone (demo_machine None false)).2).1
    = Return VNone.
Proof.
  destruct (@read_data_cache_miss mini_pickle demo_world (b "KEY")
              ["c.pickle"] true (Some ["d"]) ["d"] (demo_machine None false)
              eq_refl) as (Hmiss & _).
  destruct (@read_data_cache_miss mini_pickle demo_world (b "KEY")
              ["c.pickle"] true (Some ["d"]) ["d"]
              (demo_write VNone (demo_machine None false)).2
              eq_refl) as (_ & _ & _ & Hiff).
  split; [by apply Hmiss|]. apply Hiff. do 3 right.
  split; [done|]. eexists. split; [by vm_compute|]. by split.
Defined.

Lemma cached_None_reads_as_miss_witness :
  let s' := (demo_write VNone (demo_machine None false)).2 in
  (demo_read s').1 = Return VNone
  ∧ (demo_read (demo_machine None false)).1 = Return VNone.
Proof.
  intros s'.
  destruct (@cached_None_reads_as_miss mini_pickle demo_world (b "KEY")
              ["c.pickle"] (Some ["d"]) (demo_machine None false) s')
    as (d & [= <-] & Hhit & Hmiss & _).
  - intros data [= <-]. reflexivity.
  - vm_compute. reflexivity.
  - split; [exact Hhit|]. by apply Hmiss.
Defined.

(** ** The directory hasher *)

Section tree_facts.

Lemma tree_ind' (P : tree → Prop) :
  (∀ data, P (TFile data)) → P TOther →
  (∀ es, Forall (λ e, P e.2) es → P (TDir es)) →
  ∀ t, P t.
Proof.
  intros Hfile Hother Hdir.
  fix IH 1. intros [data|es|]; [apply Hfile| |apply Hother].
  apply Hdir. induction es as [|[name t] es IHes]; constructor; [|done].
  apply IH.
Qed.

Lemma wf_tree_dir es :
  wf_tree (TDir es) ↔ NoDup es.*1 ∧ Forall (λ e, wf_tree e.2) es.
Proof.
  simpl. apply and_iff_compat_l.
  induction es as [|e es IH]; [by split; [constructor|]|].
  rewrite Forall_cons IH //.
Qed.

Lemma hash_dir_in_nil dirname ext paths :
  hash_dir_in (TDir []) dirname ext paths = paths.
Proof. done. Qed.

Lemma hash_dir_in_cons dirname ext name entry es paths :
  hash_dir_in (TDir ((name, entry) :: es)) dirname ext paths
  = hash_dir_in (TDir es) dirname ext
      (if entry_is_file entry && endswith name ext
       then paths ++ [os_path_join dirname name]
       else if entry_is_dir entry
            then hash_dir_in entry (os_path_join dirname name) ext paths
            else paths).
Proof. done. Qed.

(** The paths already found are kept, and what a directory adds does not
    depend on them. *)
Lemma hash_dir_in_app t dirname ext paths :
  hash_dir_in t dirname ext paths = paths ++ hash_dir_in t dirname ext [].
Proof.
  revert dirname paths.
  induction t as [data| |es IH] using tree_ind'; intros dirname paths;
    [by rewrite /= app_nil_r..|].
  revert paths. induction IH as [|[name entry] es Hentry _ IHes];
    intros paths; [by rewrite /= app_nil_r|].
  rewrite !hash_dir_in_cons.
  set (acc := if entry_is_file entry && endswith name ext then paths ++ _
              else _).
  set (acc0 := if entry_is_file entry && endswith name ext then [] ++ _
               else _).
  rewrite (IHes acc) (IHes acc0) app_assoc. f_equal.
  rewrite /acc /acc0. simpl in Hentry.
  destruct (entry_is_file entry && endswith name ext); [done|].
  destruct (entry_is_dir entry); [|by rewrite app_nil_r].
  by rewrite Hentry.
Qed.

Lemma hash_dir_in_visit dirname ext es :
  hash_dir_in (TDir es) dirname ext []
  = es ≫= λ e, visit dirname ext e.1 e.2.
Proof.
  induction es as [|[name entry] es IH]; [done|].
  by rewrite hash_dir_in_cons hash_dir_in_app IH /= /visit.
Qed.

Lemma tperm_refl t : tperm t t.
Proof.
  induction t as [data| |es IH] using tree_ind'; [constructor..|].
  constructor. induction IH as [|[name t] es Ht _ IHes]; by constructor.
Qed.

Lemma eperm_refl es : eperm es es.
Proof.
  induction es as [|[name t] es IH]; constructor; [apply tperm_refl|done].
Qed.

Lemma tperm_eperm_sym :
  (∀ t t', tperm t t' → tperm t' t)
  ∧ (∀ es es', eperm es es' → eperm es' es).
Proof.
  apply tperm_eperm_ind; try by constructor.
  intros es1 es2 es3 _ H21 _ H32. by eapply eperm_trans.
Qed.

Lemma tperm_trans t1 t2 t3 : tperm t1 t2 → tperm t2 t3 → tperm t1 t3.
Proof.
  destruct 1; inversion 1; subst; constructor. by eapply eperm_trans.
Qed.

Lemma tperm_kind t t' :
  tperm t t' →
  entry_is_file t = entry_is_file t' ∧ entry_is_dir t = entry_is_dir t'.
Proof. by destruct 1. Qed.

Lemma eperm_names es es' : eperm es es' → es.*1 ≡ₚ es'.*1.
Proof.
  induction 1 as [|name t t' es es' _ _ IH|e1 e2 es|es1 es2 es3 _ IH1 _ IH2];
    [done|by apply Permutation_skip|by apply Permutation_swap|by etrans].
Qed.

Lemma tperm_eperm_wf :
  (∀ t t', tperm t t' → wf_tree t → wf_tree t')
  ∧ (∀ es es', eperm es es' →
       Forall (λ e, wf_tree e.2) es → Forall (λ e, wf_tree e.2) es').
Proof.
  apply tperm_eperm_ind; try done.
  - intros es es' Hes IH [Hnd Hwf]%wf_tree_dir. apply wf_tree_dir.
    split; [|by apply IH]. by rewrite -(eperm_names es es').
  - intros name t t' es es' _ IHt _ IHes [??]%Forall_cons.
    constructor; [by apply IHt|by apply IHes].
  - intros e1 e2 es [? [??]%Forall_cons]%Forall_cons.
    by repeat constructor.
  - intros es1 es2 es3 _ IH1 _ IH2 ?. by apply IH2, IH1.
Qed.

(** Permuted entries yield the same paths, in another order. *)
Lemma tperm_eperm_found :
  (∀ t t', tperm t t' →
     ∀ dirname ext,
       hash_dir_in t dirname ext [] ≡ₚ hash_dir_in t' dirname ext [])
  ∧ (∀ es es', eperm es es' →
       ∀ dirname ext,
         hash_dir_in (TDir es) dirname ext []
         ≡ₚ hash_dir_in (TDir es') dirname ext []).
Proof.
  apply tperm_eperm_ind; try done.
  - intros name t t' es es' Ht IHt _ IHes dirname ext.
    rewrite !hash_dir_in_cons
      (hash_dir_in_app (TDir es)) (hash_dir_in_app (TDir es')).
    apply tperm_kind in Ht as [-> ->].
    apply Permutation_app; [|apply IHes].
    destruct (entry_is_file t' && endswith name ext); [reflexivity|].
    destruct (entry_is_dir t'); [apply IHt|reflexivity].
  - intros [n1 t1] [n2 t2] es dirname ext.
    rewrite !hash_dir_in_visit /= !app_assoc.
    by rewrite (comm app (visit _ _ n1 t1)).
  - intros es1 es2 es3 _ IH1 _ IH2 dirname ext.
    etrans; [apply IH1|apply IH2].
Qed.

End tree_facts.

Section hasher_facts.
Implicit Types (root t : tree) (dirs : list (string * string)).

Lemma find_eperm es es' name :
  eperm es es' → NoDup es.*1 →
  option_Forall2 (λ e e', tperm e.2 e'.2)
    (List.find (λ e, bool_decide (e.1 = name)) es)
    (List.find (λ e, bool_decide (e.1 = name)) es').
Proof.
  induction 1 as [|n t t' es es' Ht _ IH|[n1 t1] [n2 t2] es
                  |es1 es2 es3 H12 IH1 _ IH2]; intros Hnd.
  - constructor.
  - apply NoDup_cons in Hnd as [_ Hnd]. simpl.
    case_bool_decide; [by constructor|by apply IH].
  - simpl in *. repeat case_bool_decide; simplify_eq.
    + apply NoDup_cons in Hnd as [Hin _]. destruct Hin. by left.
    + constructor. apply tperm_refl.
    + constructor. apply tperm_refl.
    + destruct (List.find _ es); constructor. apply tperm_refl.
  - specialize (IH1 Hnd).
    assert (NoDup es2.*1) as Hnd2 by by rewrite -(eperm_names es1 es2).
    specialize (IH2 Hnd2).
    destruct IH1; inversion IH2; subst; constructor.
    by eapply tperm_trans.
Qed.

(** Two walks that stand at the same place of two enumerations of one
    directory tree. *)
Lemma walk_step_tperm (h h' : place) name :
  tperm h.1 h'.1 → Forall2 tperm h.2 h'.2 →
  wf_tree h.1 → Forall wf_tree h.2 →
  (∀ k, walk_step h name = Return k →
        ∃ k', walk_step h' name = Return k'
              ∧ tperm k.1 k'.1 ∧ Forall2 tperm k.2 k'.2
              ∧ wf_tree k.1 ∧ Forall wf_tree k.2)
  ∧ (∀ e, walk_step h name = Raise e → walk_step h' name = Raise e).
Proof.
  destruct h as [t above], h' as [t' above']. simpl.
  intros Ht Habove Hwf Hwfs. rewrite /walk_step /=.
  destruct Ht as [data| |es es' Hes]; simpl;
    [split; [intros ? [=]|by intros]..|].
  case_decide.
  { split; [|done]. intros k [= <-]. eexists. split; [done|]. simpl.
    split; [by constructor|]. by split. }
  case_decide.
  { split; [|done]. intros k [= <-].
    destruct Habove as [|up up' above above' Hup Hrest].
    - eexists. split; [done|]. simpl.
      split; [by constructor|]. by split.
    - eexists. split; [done|]. simpl. apply Forall_cons in Hwfs as [??].
      split; [done|]. by split. }
  pose proof Hwf as [Hnd Hsub]%wf_tree_dir.
  pose proof (find_eperm es es' name Hes Hnd) as Hfind.
  destruct (List.find _ es) as [e|] eqn:He; inversion Hfind as [? e' He'|];
    subst; [|by split].
  split; [|done]. intros k [= <-]. eexists. split; [done|]. simpl.
  split; [done|]. split; [constructor; [by constructor|done]|].
  apply find_some in He as [He _]. rewrite Forall_forall in Hsub.
  split; [by apply Hsub, list_elem_of_In|by constructor].
Qed.

Lemma foldM_walk_tperm (parts : list string) (h h' : place) :
  tperm h.1 h'.1 → Forall2 tperm h.2 h'.2 →
  wf_tree h.1 → Forall wf_tree h.2 →
  (∀ k, foldM walk_step h parts = Return k →
        ∃ k', foldM walk_step h' parts = Return k' ∧ tperm k.1 k'.1)
  ∧ (∀ e, foldM walk_step h parts = Raise e →
          foldM walk_step h' parts = Raise e).
Proof.
  revert h h'. induction parts as [|name parts IH]; intros h h' Ht Ha Hw Hws.
  { split; [|done]. intros k [= <-]. by eexists. }
  destruct (walk_step_tperm h h' name Ht Ha Hw Hws) as [Hret Hraise].
  simpl. destruct (walk_step h name) as [k|e].
  - destruct (Hret k eq_refl) as (k' & -> & Hk & Hka & Hkw & Hkws). simpl.
    by apply IH.
  - rewrite (Hraise e eq_refl). by split.
Qed.

Lemma entry_at_tperm t t' path :
  tperm t t' → wf_tree t →
  (∀ it, entry_at t path = Return it →
         ∃ it', entry_at t' path = Return it' ∧ tperm it it')
  ∧ (∀ e, entry_at t path = Raise e → entry_at t' path = Raise e).
Proof.
  intros Ht Hwf. rewrite /entry_at /walk. case_decide; [by split|].
  destruct (foldM_walk_tperm (split_on "/" path) (t, []) (t', []))
    as [Hret Hraise]; [done|constructor|done|constructor|].
  destruct (foldM walk_step (t, []) _) as [k|e]; simpl.
  - destruct (Hret k eq_refl) as (k' & -> & Hk). split; [|done].
    intros it [= <-]. by eexists.
  - rewrite (Hraise e eq_refl). by split.
Qed.

Lemma read_file_tperm t t' path :
  tperm t t' → wf_tree t → read_file t path = read_file t' path.
Proof.
  intros Ht Hwf. rewrite /read_file.
  destruct (entry_at_tperm t t' path Ht Hwf) as [Hret Hraise].
  destruct (entry_at t path) as [it|e].
  - destruct (Hret it eq_refl) as (it' & -> & Hit). by destruct Hit.
  - by rewrite (Hraise e eq_refl).
Qed.

Lemma scandir_tperm t t' dirname it :
  tperm t t' → wf_tree t → scandir t dirname = Return it →
  ∃ it', scandir t' dirname = Return it' ∧ tperm it it'.
Proof.
  intros Ht Hwf. rewrite /scandir.
  destruct (entry_at_tperm t t' dirname Ht Hwf) as [Hret _].
  destruct (entry_at t dirname) as [found|e]; [|done].
  destruct (Hret found eq_refl) as (found' & -> & Hfound). simpl.
  destruct Hfound as [| |es es' Hes]; [done..|].
  intros [= <-]. eexists. split; [done|]. by constructor.
Qed.

Lemma hash_dir_app root dirname ext paths :
  hash_dir root dirname ext paths
  = (paths ++.) <$> hash_dir root dirname ext [].
Proof.
  rewrite /hash_dir. destruct (scandir root dirname); [|done].
  by rewrite /= hash_dir_in_app.
Qed.

Lemma hash_dir_tperm t t' dirname ext paths :
  tperm t t' → wf_tree t → hash_dir t dirname ext [] = Return paths →
  ∃ paths', hash_dir t' dirname ext [] = Return paths' ∧ paths ≡ₚ paths'.
Proof.
  intros Ht Hwf. rewrite /hash_dir.
  destruct (scandir t dirname) as [it|] eqn:Hit; [|done].
  destruct (scandir_tperm _ _ _ _ Ht Hwf Hit) as (it' & -> & Hperm).
  intros [= <-]. eexists. split; [done|].
  by apply tperm_eperm_found.
Qed.

Lemma collect_paths_mapM root dirs :
  collect_paths root dirs
  = (λ parts, concat parts)
      <$> mapM_o (λ '(dirname, ext), hash_dir root dirname ext []) dirs.
Proof.
  rewrite /collect_paths.
  assert (∀ acc,
    foldM (λ paths '(dirname, ext), hash_dir root dirname ext paths)
      acc dirs
    = (λ parts, acc ++ concat parts)
        <$> mapM_o (λ '(dirname, ext), hash_dir root dirname ext []) dirs)
    as Hacc; [|by rewrite Hacc].
  induction dirs as [|[dirname ext] dirs IH]; intros acc.
  { by rewrite /= app_nil_r. }
  rewrite /= hash_dir_app.
  destruct (hash_dir root dirname ext []) as [found|]; [|done].
  rewrite /= IH.
  destruct (mapM_o _ dirs) as [parts|]; [|done].
  by rewrite /= app_assoc.
Qed.

Lemma mapM_o_rel {A B} (f g : A → outcome (list B)) (l : list A) bs :
  (∀ a b, f a = Return b → ∃ b', g a = Return b' ∧ b ≡ₚ b') →
  mapM_o f l = Return bs →
  ∃ bs', mapM_o g l = Return bs' ∧ concat bs ≡ₚ concat bs'.
Proof.
  intros Hfg. revert bs. induction l as [|a l IH]; intros bs.
  { intros [= <-]. by exists []. }
  simpl. destruct (f a) as [b|] eqn:Hb; [|done].
  destruct (Hfg a b Hb) as (b' & -> & Hbb').
  destruct (mapM_o f l) as [bs0|]; [|done].
  destruct (IH bs0 eq_refl) as (bs0' & -> & Hperm).
  intros [= <-]. eexists. split; [done|]. by rewrite /= Hbb' Hperm.
Qed.

Lemma mapM_o_perm {A B} (f : A → outcome (list B)) (l l' : list A) bs :
  l ≡ₚ l' → mapM_o f l = Return bs →
  ∃ bs', mapM_o f l' = Return bs' ∧ concat bs ≡ₚ concat bs'.
Proof.
  intros Hl. revert bs.
  induction Hl as [|a l l' _ IH|a1 a2 l|l1 l2 l3 _ IH1 _ IH2]; intros bs.
  - intros [= <-]. by exists [].
  - simpl. destruct (f a) as [b|]; [|done].
    destruct (mapM_o f l) as [bs0|]; [|done].
    destruct (IH bs0 eq_refl) as (bs0' & -> & Hperm).
    intros [= <-]. eexists. split; [done|]. by rewrite /= Hperm.
  - simpl. destruct (f a1) as [b1|], (f a2) as [b2|]; try done.
    destruct (mapM_o f l) as [bs0|]; [|done].
    intros [= <-]. eexists. split; [done|].
    by rewrite /= !app_assoc (comm app b1).
  - intros (bs2 & H2 & Hp2)%IH1. apply IH2 in H2 as (bs3 & H3 & Hp3).
    exists bs3. split; [done|]. by etrans.
Qed.

(** The collected paths are the same, up to their order, when the
    directories are enumerated differently and the pairs are permuted. *)
Lemma collect_paths_perm root root' dirs dirs' paths :
  wf_tree root → tperm root root' → dirs ≡ₚ dirs' →
  collect_paths root dirs = Return paths →
  ∃ paths', collect_paths root' dirs' = Return paths' ∧ paths ≡ₚ paths'.
Proof.
  intros Hwf Ht Hd. rewrite !collect_paths_mapM.
  destruct (mapM_o _ dirs) as [bs|] eqn:Hbs; [|done]. intros [= <-].
  eapply (mapM_o_rel _
            (λ '(dirname, ext), hash_dir root' dirname ext [])) in Hbs
    as (bs1 & Hbs1 & Hp1).
  - eapply mapM_o_perm in Hbs1 as (bs2 & -> & Hp2); [|done].
    eexists. split; [done|]. by etrans.
  - intros [dirname ext] b. by apply hash_dir_tperm.
Qed.

Lemma sorted_perm (l l' : list string) : l ≡ₚ l' → sorted l = sorted l'.
Proof.
  intros Hl. rewrite /sorted.
  apply (Sorted_unique String.le); [apply Sorted_merge_sort, _..|].
  by rewrite !merge_sort_Permutation.
Qed.

End hasher_facts.

Section hash_dirs_spec.
Context `{Hashlib}.
Implicit Types (root t : tree) (dirs : list (string * string)).

(** The digest is SHA-1 of the concatenated contents. *)
Lemma hash_dirs_stream root dirs :
  hash_dirs root dirs = sha1_digest <$> hashed_stream root dirs.
Proof.
  rewrite /hash_dirs /hashed_stream.
  destruct (collect_paths root dirs) as [paths|]; [|done]. simpl.
  assert (∀ l h,
    foldM (λ h path, data ← read_file root path;
                      Return (sha1_update h data)) h l
    = (λ parts, mkSha1 (fed h ++ concat parts))
        <$> mapM_o (read_file root) l) as Hfold.
  { induction l as [|path l IH]; intros h.
    { rewrite /= app_nil_r. by destruct h. }
    simpl. destruct (read_file root path) as [data|]; [|done].
    rewrite /= IH. destruct (mapM_o _ l) as [parts|]; [|done].
    by rewrite /= app_assoc. }
  rewrite Hfold. by destruct (mapM_o _ (sorted paths)).
Qed.

Lemma mapM_o_ext {A B} (f g : A → outcome B) (l : list A) :
  (∀ a, f a = g a) → mapM_o f l = mapM_o g l.
Proof.
  intros Hfg. induction l as [|a l IH]; [done|]. by rewrite /= Hfg IH.
Qed.

Lemma hashed_stream_perm root root' dirs dirs' stream :
  wf_tree root → tperm root root' → dirs ≡ₚ dirs' →
  hashed_stream root dirs = Return stream →
  hashed_stream root' dirs' = Return stream.
Proof.
  intros Hwf Ht Hd. rewrite /hashed_stream.
  destruct (collect_paths root dirs) as [paths|] eqn:Hp; [|done].
  destruct (collect_paths_perm _ _ _ _ _ Hwf Ht Hd Hp)
    as (paths' & -> & Hperm).
  rewrite /= (sorted_perm _ _ Hperm).
  rewrite (mapM_o_ext (read_file root) (read_file root')) //.
  intros p. by apply read_file_tperm.
Qed.

Lemma hash_dirs_perm root root' dirs dirs' d :
  wf_tree root → tperm root root' → dirs ≡ₚ dirs' →
  hash_dirs root dirs = Return d → hash_dirs root' dirs' = Return d.
Proof.
  intros Hwf Ht Hd. rewrite !hash_dirs_stream.
  destruct (hashed_stream root dirs) as [stream|] eqn:Hs; [|done].
  by rewrite (hashed_stream_perm _ _ _ _ _ Hwf Ht Hd Hs).
Qed.

(** C4: on the same directory contents, with the entries of any directory
    enumerated in another order and the (directory, extension) pairs
    permuted, [hash_dirs] returns the same digest (and returns one whenever
    the other run does). *)
Theorem hash_dirs_order_independent root root' dirs dirs' :
  wf_tree root → tperm root root' → dirs ≡ₚ dirs' →
  ∀ d, hash_dirs root dirs = Return d ↔ hash_dirs root' dirs' = Return d.
Proof.
  intros Hwf Ht Hd d. split; [by apply hash_dirs_perm|].
  apply hash_dirs_perm; [| |done].
  - by apply (proj1 tperm_eperm_wf root).
  - by apply tperm_eperm_sym.
Qed.

End hash_dirs_spec.

Section sensitivity.
Implicit Types (root t : tree) (dirs : list (string * string)).
Implicit Types (c x : bytes) (l paths : list string).

Lemma stream_changed root root' c c' l :
  c ≠ c' →
  (∀ q, q ∈ l →
     (read_file root q = Return c ∧ read_file root' q = Return c')
     ∨ ∃ x, read_file root q = Return x ∧ read_file root' q = Return x) →
  ∃ parts parts' (k : nat),
    mapM_o (read_file root) l = Return parts
    ∧ mapM_o (read_file root') l = Return parts'
    ∧ (length (concat parts') + k * length c
       = length (concat parts) + k * length c')%nat
    ∧ ((∃ p, p ∈ l ∧ read_file root p = Return c
                   ∧ read_file root' p = Return c') → (1 ≤ k)%nat)
    ∧ (length c = length c' → concat parts = concat parts' →
       ¬ ∃ p, p ∈ l ∧ read_file root p = Return c
                    ∧ read_file root' p = Return c').
Proof.
  intros Hne. induction l as [|q l IH]; intros Hl.
  { exists [], [], 0%nat. do 3 (split; [done|]). split.
    - by intros (p & ?%elem_of_nil & _).
    - by intros _ _ (p & ?%elem_of_nil & _). }
  destruct IH as (parts & parts' & k & Hr & Hr' & Hlen & Hk & Heq).
  { intros q' ?. apply Hl. by right. }
  destruct (Hl q) as [[Hq Hq']|(x & Hq & Hq')]; [by left|..].
  - exists (c :: parts), (c' :: parts'), (S k).
    rewrite /= Hq Hq' Hr Hr' /= !length_app.
    do 2 (split; [done|]). split; [lia|]. split; [lia|].
    intros Hcc Happ. by apply app_inj_1 in Happ as [? _].
  - exists (x :: parts), (x :: parts'), k.
    rewrite /= Hq Hq' Hr Hr' /= !length_app.
    assert (¬ (read_file root q = Return c
               ∧ read_file root' q = Return c')) as Hsame.
    { rewrite Hq Hq'. by intros [[= ->] [= ->]]. }
    do 2 (split; [done|]). split; [lia|]. split.
    + intros (p & [->|Hp]%elem_of_cons & Hc & Hc'); [by destruct Hsame|].
      apply Hk. by exists p.
    + intros Hcc Hx%(inj (app x)).
      intros (p & [->|Hp]%elem_of_cons & Hc & Hc'); [by destruct Hsame|].
      apply Heq; [done..|]. by exists p.
Qed.

Lemma mapM_o_same {A B} (f g : A → outcome B) (l : list A) :
  (∀ a, a ∈ l → ∃ y, f a = Return y ∧ g a = Return y) →
  ∃ parts, mapM_o f l = Return parts ∧ mapM_o g l = Return parts.
Proof.
  induction l as [|a l IH]; intros Hl; [by exists []|].
  destruct (Hl a) as (y & Hf & Hg); [by left|].
  destruct IH as (parts & Hfs & Hgs); [intros a' ?; apply Hl; by right|].
  exists (y :: parts). by rewrite /= Hf Hg Hfs Hgs.
Qed.

Lemma hashed_stream_changed root root' dirs paths :
  collect_paths root dirs = Return paths →
  collect_paths root' dirs = Return paths →
  one_file_changed root root' paths →
  ∃ st st', hashed_stream root dirs = Return st
            ∧ hashed_stream root' dirs = Return st' ∧ st ≠ st'.
Proof.
  intros Hp Hp' (c & c' & Hne & (p & Hin & Hc & Hc') & Hall).
  rewrite /hashed_stream Hp Hp' /=.
  destruct (stream_changed root root' c c' (sorted paths) Hne)
    as (parts & parts' & k & -> & -> & Hlen & Hk & Heq).
  { intros q Hq. apply Hall. by rewrite /sorted merge_sort_Permutation in Hq. }
  exists (concat parts), (concat parts'). split; [done|]. split; [done|].
  assert (∃ p, p ∈ sorted paths ∧ read_file root p = Return c
               ∧ read_file root' p = Return c') as Hex.
  { exists p. by rewrite /sorted merge_sort_Permutation. }
  intros Hst. destruct (decide (length c = length c')) as [Hcc|Hcc].
  - by apply (Heq Hcc Hst).
  - specialize (Hk Hex). rewrite Hst in Hlen. nia.
Qed.

Lemma hashed_stream_added root root' dirs paths paths' :
  collect_paths root dirs = Return paths →
  collect_paths root' dirs = Return paths' →
  one_file_added root root' paths paths' →
  ∃ st st', hashed_stream root dirs = Return st
            ∧ hashed_stream root' dirs = Return st'
            ∧ (length st < length st')%nat.
Proof.
  intros Hp Hp' (p & c & Hperm & Hne & Hc & Hall).
  rewrite /hashed_stream Hp Hp' /=.
  destruct (mapM_o_same (read_file root) (read_file root') (sorted paths))
    as (parts & Hr & Hr').
  { intros q Hq. apply Hall. by rewrite /sorted merge_sort_Permutation in Hq. }
  assert (mapM_o (read_file root') (p :: sorted paths)
          = Return (c :: parts)) as Hcons by by rewrite /= Hc Hr'.
  eapply (mapM_o_perm _ _ (sorted paths')) in Hcons
    as (parts' & Hr'' & Hlen%Permutation_length).
  - rewrite Hr Hr'' /=. eexists _, _. split; [done|]. split; [done|].
    rewrite -Hlen /= length_app. destruct c; [done|simpl; lia].
  - by rewrite /sorted !merge_sort_Permutation Hperm.
Qed.

End sensitivity.

Section hash_dirs_sensitivity.
Context `{Hashlib}.

(** C5, amended: the digest is SHA-1 of the matched files' contents put
    end to end in sorted path order.  That byte stream changes when one
    matched file's contents change, and when a matched file that is not
    empty is added or removed, the other files staying as they are; the
    digest then changes too unless SHA-1 collides on the two streams. *)
Theorem hash_dirs_sensitive root root' dirs paths paths' :
  collect_paths root dirs = Return paths →
  collect_paths root' dirs = Return paths' →
  (paths' = paths ∧ one_file_changed root root' paths)
  ∨ one_file_added root root' paths paths'
  ∨ one_file_added root' root paths' paths →
  ∃ st st',
    hashed_stream root dirs = Return st
    ∧ hashed_stream root' dirs = Return st'
    ∧ hash_dirs root dirs = Return (sha1_digest st)
    ∧ hash_dirs root' dirs = Return (sha1_digest st')
    ∧ st ≠ st'
    ∧ ((sha1_digest st = sha1_digest st' → st = st') →
       hash_dirs root dirs ≠ hash_dirs root' dirs).
Proof.
  intros Hp Hp' Hcase.
  assert (∃ st st', hashed_stream root dirs = Return st
                    ∧ hashed_stream root' dirs = Return st' ∧ st ≠ st')
    as (st & st' & Hs & Hs' & Hne).
  { destruct Hcase as [[-> Hch]|[Hadd|Hrem]].
    - by eapply hashed_stream_changed.
    - destruct (hashed_stream_added _ _ _ _ _ Hp Hp' Hadd)
        as (st & st' & ? & ? & Hlt).
      exists st, st'. split; [done|]. split; [done|]. intros ->. lia.
    - destruct (hashed_stream_added _ _ _ _ _ Hp' Hp Hrem)
        as (st' & st & ? & ? & Hlt).
      exists st, st'. split; [done|]. split; [done|]. intros ->. lia. }
  exists st, st'. rewrite !hash_dirs_stream Hs Hs' /=.
  repeat split; [done|]. intros Hinj [= Heq]. by apply Hne, Hinj.
Qed.

End hash_dirs_sensitivity.

(** ** The directory hasher on concrete trees *)

Lemma hash_dirs_order_independent_witness :
  @hash_dirs hashlib_sha1 demo_tree [("lib", ".py"); ("etc", ".py")]
  = Return (SHA1.sha1 (b "XABC"))
  ∧ @hash_dirs hashlib_sha1 demo_tree_reordered
      [("etc", ".py"); ("lib", ".py")]
    = Return (SHA1.sha1 (b "XABC")).
Proof.
  assert (@hash_dirs hashlib_sha1 demo_tree [("lib", ".py"); ("etc", ".py")]
          = Return (SHA1.sha1 (b "XABC"))) as Hrun
    by (vm_compute; reflexivity).
  split; [exact Hrun|].
  apply (@hash_dirs_order_independent hashlib_sha1 demo_tree
           demo_tree_reordered [("lib", ".py"); ("etc", ".py")]
           [("etc", ".py"); ("lib", ".py")]); [| | |exact Hrun].
  - apply wf_tree_dir. split; [by apply (bool_decide_unpack _)|].
    repeat (constructor || apply wf_tree_dir || split);
      by apply (bool_decide_unpack _).
  - constructor. eapply eperm_trans; [apply eperm_swap|].
    apply eperm_skip; [apply tperm_refl|].
    apply eperm_skip; [|constructor].
    constructor. eapply eperm_trans; [apply eperm_swap|].
    do 2 (apply eperm_skip; [apply tperm_refl|]).
    apply eperm_skip; [|apply eperm_refl].
    constructor. apply eperm_swap.
  - apply Permutation_swap.
Defined.

(** C5 as stated fails on these trees: [lib] with [a.py] alone and [lib]
    with an empty [__init__.py] added have the same digest, for SHA-1 and
    for any other digest function; and so have [lib] with [a.py], [b.py]
    holding [AB], [C] and holding [A], [BC]. *)
Lemma hash_dirs_blind_to_file_boundaries :
  collect_paths (one_file (b "A")) [("lib", ".py")] = Return ["lib/a.py"]
  ∧ collect_paths with_empty_init [("lib", ".py")]
    = Return ["lib/a.py"; "lib/__init__.py"]
  ∧ @hash_dirs hashlib_sha1 (one_file (b "A")) [("lib", ".py")]
    = @hash_dirs hashlib_sha1 with_empty_init [("lib", ".py")]
  ∧ @hash_dirs hashlib_sha1 (two_files (b "AB") (b "C")) [("lib", ".py")]
    = @hash_dirs hashlib_sha1 (two_files (b "A") (b "BC")) [("lib", ".py")]
  ∧ (∀ H : Hashlib,
       @hash_dirs H (one_file (b "A")) [("lib", ".py")]
       = @hash_dirs H with_empty_init [("lib", ".py")]).
Proof.
  split; [done|]. split; [done|].
  split; [by vm_compute|]. split; [by vm_compute|].
  intros H. by rewrite !hash_dirs_stream.
Qed.

Lemma hash_dirs_sensitive_witness :
  @hash_dirs hashlib_sha1 (one_file (b "A")) [("lib", ".py")]
  ≠ @hash_dirs hashlib_sha1 (one_file (b "B")) [("lib", ".py")]
  ∧ @hash_dirs hashlib_sha1 (one_file (b "A")) [("lib", ".py")]
    ≠ @hash_dirs hashlib_sha1 (two_files (b "A") (b "B")) [("lib", ".py")].
Proof.
  split.
  - destruct (@hash_dirs_sensitive hashlib_sha1 (one_file (b "A"))
                (one_file (b "B")) [("lib", ".py")]
                ["lib/a.py"] ["lib/a.py"] eq_refl eq_refl)
      as (st & st' & [= <-] & [= <-] & _ & _ & _ & Hdiff).
    + left. split; [done|]. exists (b "A"), (b "B"). split; [done|].
      split; [exists "lib/a.py"; split; [by left|done]|].
      intros q ->%list_elem_of_singleton. by left.
    + apply Hdiff. by vm_compute.
  - destruct (@hash_dirs_sensitive hashlib_sha1 (one_file (b "A"))
                (two_files (b "A") (b "B")) [("lib", ".py")]
                ["lib/a.py"] ["lib/a.py"; "lib/b.py"] eq_refl eq_refl)
      as (st & st' & [= <-] & [= <-] & _ & _ & _ & Hdiff).
    + right. left. exists "lib/b.py", (b "B").
      split; [apply Permutation_swap|]. split; [done|]. split; [done|].
      intros q ->%list_elem_of_singleton. by exists (b "A").
    + apply Hdiff. by vm_compute.
Defined.

(** * Further properties *)

(** ** The version accessors *)

Section version_accessors.
Implicit Types (w : World) (tools : DevTools) (m : Memo) (st : VersionStage).

Lemma VersionStage_of_int_value st :
  VersionStage_of_int (VersionStage_value st) = Ok st.
Proof. by destruct st. Qed.

Lemma VersionStage_of_int_inv n st :
  VersionStage_of_int n = Ok st → n = VersionStage_value st.
Proof.
  rewrite /VersionStage_of_int.
  destruct (List.find _ _) as [s|] eqn:Hfind; [|done].
  apply find_some in Hfind as [_ Hs%bool_decide_eq_true]. by intros [= <-].
Qed.

Lemma VersionStage_of_value_cases (x : value) :
  (∃ st, VersionStage_of_value x = Ok st
         ∧ (x = VInt (VersionStage_value st) ∨ (x = VBool false ∧ st = DEV)))
  ∨ VersionStage_of_value x = Fail ValueError.
Proof.
  destruct x as [|[]|n| | |]; try by right.
  - left. exists DEV. split; [done|by right].
  - rewrite /=. destruct (VersionStage_of_int n) as [st|r] eqn:Hn.
    + left. exists st. split; [done|]. left.
      by rewrite (VersionStage_of_int_inv n st).
    + right. rewrite /VersionStage_of_int in Hn.
      by destruct (List.find _ _).
Qed.

(** X1: outside development mode, a [VERSION] entry that is a 5-tuple whose
    third element is the integer value of a stage comes back as the version
    with these fields, the stage as the member with that value. *)
Theorem get_version_installed w tools (a c d1 d2 : value) st :
  is_in_dev_mode w = false →
  get_build_metadata_value w "VERSION"
  = Return (VTuple [a; c; VInt (VersionStage_value st); d1; d2]) →
  get_version w tools = Ok (mkVersionTuple a c st d1 d2).
Proof.
  intros Hd Hv. rewrite /get_version Hd Hv /=.
  by rewrite VersionStage_of_int_value.
Qed.

Lemma get_version_installed_witness :
  get_version
    (mkWorld ∅
       (Some {[ "VERSION" :=
                  VTuple [VInt 1; VInt 0; VInt 20; VInt 2;
                          VTuple [VStr "dev"; VStr "8"]] ]})
       false [] "/srv/edb/server" id)
    (mkDevTools None None)
  = Ok (mkVersionTuple (VInt 1) (VInt 0) BETA (VInt 2)
          (VTuple [VStr "dev"; VStr "8"])).
Proof.
  by apply (get_version_installed _ _ (VInt 1) (VInt 0) (VInt 2)
              (VTuple [VStr "dev"; VStr "8"]) BETA).
Defined.

(** X2: outside development mode, a malformed [VERSION] tuple is refused in
    this order: fewer than three elements raise [IndexError]; a third
    element that is not the value of a stage raises [ValueError], whatever
    the length; a valid stage in a tuple that has not exactly five elements
    raises [TypeError]. *)
Theorem get_version_installed_malformed w tools (items : list value) :
  is_in_dev_mode w = false →
  get_build_metadata_value w "VERSION" = Return (VTuple items) →
  ((length items < 3)%nat → get_version w tools = Fail (Known IndexError))
  ∧ (∀ x, items !! 2%nat = Some x →
          VersionStage_of_value x = Fail ValueError →
          get_version w tools = Fail ValueError)
  ∧ (∀ x st, items !! 2%nat = Some x →
             VersionStage_of_value x = Ok st →
             length items ≠ 5%nat →
             get_version w tools = Fail (Known TypeError)).
Proof.
  intros Hd Hv. rewrite /get_version Hd Hv /= /getitem.
  split; [|split].
  - intros Hlen. rewrite lookup_ge_None_2 //. lia.
  - intros x Hx Hst. by rewrite Hx /= Hst.
  - intros x st Hx Hst Hlen. rewrite Hx /= Hst /=.
    by destruct items as [|? [|? [|? [|? [|? [|??]]]]]].
Qed.

Lemma get_version_installed_malformed_witness :
  let broken items :=
    mkWorld ∅ (Some {[ "VERSION" := VTuple items ]}) false []
      "/srv/edb/server" id in
  get_version (broken [VInt 1; VInt 0]) (mkDevTools None None)
  = Fail (Known IndexError)
  ∧ get_version (broken [VInt 1; VInt 0; VInt 41]) (mkDevTools None None)
    = Fail ValueError
  ∧ get_version (broken [VInt 1; VInt 0; VInt 40; VInt 0])
      (mkDevTools None None)
    = Fail (Known TypeError).
Proof.
  intros broken. split; [|split].
  - destruct (get_version_installed_malformed (broken [VInt 1; VInt 0])
                (mkDevTools None None) [VInt 1; VInt 0]) as (Hshort & _);
      [done..|].
    apply Hshort. simpl. lia.
  - destruct (get_version_installed_malformed
                (broken [VInt 1; VInt 0; VInt 41]) (mkDevTools None None)
                [VInt 1; VInt 0; VInt 41]) as (_ & Hstage & _); [done..|].
    by apply (Hstage (VInt 41)).
  - destruct (get_version_installed_malformed
                (broken [VInt 1; VInt 0; VInt 40; VInt 0])
                (mkDevTools None None) [VInt 1; VInt 0; VInt 40; VInt 0])
      as (_ & _ & Hlen); [done..|].
    by apply (Hlen (VInt 40) FINAL).
Defined.

(** X3: outside development mode, an environment override of [VERSION]
    never yields a version: the override is a string, [list] splits it into
    characters, and the third of them is no stage ([ValueError]); with fewer
    than three characters there is no third ([IndexError]). *)
Theorem get_version_env_override_fails w tools (s : string) :
  is_in_dev_mode w = false →
  os_environ w !! env_name "VERSION" = Some s → s ≠ "" →
  get_version w tools
  = if decide (length (chars s) < 3)%nat then Fail (Known IndexError)
    else Fail ValueError.
Proof.
  intros Hd Hs Hne. rewrite /get_version Hd.
  rewrite (get_build_metadata_value_env _ _ s);
    [|by rewrite /env_override Hs decide_True].
  rewrite /= /getitem list_lookup_fmap.
  destruct (chars s !! 2%nat) as [c|] eqn:Hc.
  - apply lookup_lt_Some in Hc. rewrite decide_False //. lia.
  - apply lookup_ge_None in Hc. rewrite decide_True //. lia.
Qed.

Lemma get_version_env_override_fails_witness :
  let w s :=
    mkWorld {[ env_name "VERSION" := s ]}
      (Some {[ "VERSION" := VTuple [VInt 1; VInt 0; VInt 40; VInt 0;
                                    VTuple []] ]})
      false [] "/srv/edb/server" id in
  let e_acute_1 := String "195" (String "169" "1") in
  get_version (w "1.0") (mkDevTools None None) = Fail ValueError
  ∧ get_version (w "10") (mkDevTools None None) = Fail (Known IndexError)
  ∧ chars e_acute_1 = [String "195" (String "169" ""); "1"]
  ∧ chars (String "226" (String "130" "A"))
    = [String "226" ""; String "130" ""; "A"]
  ∧ get_version (w e_acute_1) (mkDevTools None None)
    = Fail (Known IndexError).
Proof.
  intros w e_acute_1. split; [|split; [|split; [|split]]].
  - by apply (get_version_env_override_fails (w "1.0") (mkDevTools None None)
                "1.0").
  - by apply (get_version_env_override_fails (w "10") (mkDevTools None None)
                "10").
  - done.
  - done.
  - by apply (get_version_env_override_fails (w e_acute_1)
                (mkDevTools None None) e_acute_1).
Defined.

(** X4: in development mode the build metadata is never consulted:
    a missing [pkg_resources] is reported first, then a missing
    [setuptools_scm], each as [MetadataError]; with both present the version
    is what [parse_version] makes of the parsed source-control version, and a
    failure of either collaborator or of [parse_version] is passed on. *)
Theorem get_version_dev_mode w tools :
  is_in_dev_mode w = true →
  (pkg_resources tools = None →
   get_version w tools
   = Fail (Known (MetadataError
             "cannot determine build version: no pkg_resources module")))
  ∧ (is_Some (pkg_resources tools) → setuptools_scm tools = None →
     get_version w tools
     = Fail (Known (MetadataError
               "cannot determine build version: no setuptools_scm module")))
  ∧ (∀ parse text pv,
       pkg_resources tools = Some parse →
       setuptools_scm tools = Some (Ok text) → parse text = Ok pv →
       get_version w tools
       = match parse_version pv with
         | Return v => Ok (Version_as_tuple v)
         | Raise e => Fail (Known e)
         end)
  ∧ (∀ parse r,
       pkg_resources tools = Some parse →
       setuptools_scm tools = Some (Fail r)
       ∨ (∃ text, setuptools_scm tools = Some (Ok text)
                  ∧ parse text = Fail r) →
       get_version w tools = Fail r)
  ∧ (∀ w', is_in_dev_mode w' = true →
           get_version w' tools = get_version w tools).
Proof.
  intros Hd. rewrite /get_version Hd. split; [by intros ->|].
  split; [by intros [p ->] ->|]. split; [|split].
  - intros parse text pv -> -> Hpv. rewrite /= Hpv /=.
    by destruct (parse_version pv).
  - intros parse r -> [->|(text & -> & Hr)]; [done|]. by rewrite /= Hr.
  - intros w' Hd'. by rewrite /get_version Hd'.
Qed.

Lemma get_version_dev_mode_witness :
  let w := mkWorld ∅ None true [] "/src/edb/server" id in
  let parse (text : string) : result ForeignVersion :=
    Ok (mkForeignVersion text
          (mkRawVersion [1; 0] (Some ("a", 1)) (Some ("dev", 3350))
             (Some ["g1a2b3c4"]))) in
  get_version w (mkDevTools (Some parse) (Some (Ok "1.0a1.dev3350+g1a2b3c4")))
  = Ok (mkVersionTuple (VInt 1) (VInt 0) ALPHA (VInt 1)
          (VTuple [VStr "dev"; VStr "3350"; VStr "g1a2b3c4"]))
  ∧ get_version w (mkDevTools None None)
    = Fail (Known (MetadataError
              "cannot determine build version: no pkg_resources module")).
Proof.
  intros w parse. split.
  - destruct (get_version_dev_mode w
                (mkDevTools (Some parse)
                   (Some (Ok "1.0a1.dev3350+g1a2b3c4"))) eq_refl)
      as (_ & _ & Hrun & _).
    by rewrite (Hrun parse "1.0a1.dev3350+g1a2b3c4" _ eq_refl eq_refl eq_refl).
  - by apply (get_version_dev_mode w (mkDevTools None None) eq_refl).
Defined.

Lemma version_dict_of_inv (ver : VersionTuple) (d : gmap string value) :
  version_dict_of ver = Return d →
  ∃ local,
    (if truthy (vt_local ver) then tuple_of_value (vt_local ver)
     else Return (VTuple [])) = Return local
    ∧ d = <["major" := vt_major ver]>
          (<["minor" := vt_minor ver]>
           (<["stage" := VStr (lower (VersionStage_name (vt_stage ver)))]>
            (<["stage_no" := vt_stage_no ver]>
             (<["local" := local]> ∅)))).
Proof.
  rewrite /version_dict_of.
  destruct (if truthy _ then _ else _) as [local|]; [|done].
  intros [= <-]. by exists local.
Qed.

Lemma get_version_dict_fresh w tools m :
  _version_dict m = None →
  get_version_dict w tools m
  = match ver ← get_version w tools; of_outcome (version_dict_of ver) with
    | Ok d => (Ok d, mkMemo (Some d) (_version_json m))
    | Fail r => (Fail r, m)
    end.
Proof. rewrite /get_version_dict. by intros ->. Qed.

(** X5: the mapping a first call of [get_version_dict] builds has exactly
    the keys major, minor, stage, stage_no and local; major, minor and
    stage_no are the version's own, stage is the lower-case name of its
    stage, and local is the empty tuple when the version's local part is
    empty, and that part as a tuple otherwise. *)
Theorem get_version_dict_shape w tools m d m' :
  _version_dict m = None →
  get_version_dict w tools m = (Ok d, m') →
  ∃ ver,
    get_version w tools = Ok ver
    ∧ dom d = ({["major"; "minor"; "stage"; "stage_no"; "local"]}
               : gset string)
    ∧ d !! "major" = Some (vt_major ver)
    ∧ d !! "minor" = Some (vt_minor ver)
    ∧ d !! "stage_no" = Some (vt_stage_no ver)
    ∧ d !! "stage" = Some (VStr (lower (VersionStage_name (vt_stage ver))))
    ∧ lower (VersionStage_name (vt_stage ver))
      ∈ ["dev"; "alpha"; "beta"; "rc"; "final"]
    ∧ (truthy (vt_local ver) = false → d !! "local" = Some (VTuple []))
    ∧ (∀ items, vt_local ver = VTuple items →
                d !! "local" = Some (VTuple items)).
Proof.
  intros Hm. rewrite get_version_dict_fresh //.
  destruct (get_version w tools) as [ver|] eqn:Hver; [|done]. simpl.
  destruct (version_dict_of ver) as [d0|] eqn:Hd; [|done]. simpl.
  intros [= <- <-]. exists ver. split; [done|].
  apply version_dict_of_inv in Hd as (local & Hlocal & ->).
  split; [by rewrite !dom_insert_L dom_empty_L; set_solver|].
  do 4 (split; [done|]). split.
  { destruct (vt_stage ver); set_solver. }
  split.
  - intros Hfalse. rewrite Hfalse in Hlocal. by simplify_eq.
  - intros items Hitems. rewrite Hitems /= in Hlocal.
    rewrite /tuple_of_value /= in Hlocal.
    destruct items as [|x items]; case_bool_decide as Hne; by simplify_eq/=.
Qed.

Lemma get_version_dict_shape_witness :
  let w :=
    mkWorld ∅
      (Some {[ "VERSION" :=
                 VTuple [VInt 1; VInt 0; VInt 30; VInt 2; VTuple []] ]})
      false [] "/srv/edb/server" id in
  ∃ d m',
    get_version_dict w (mkDevTools None None) (mkMemo None None) = (Ok d, m')
    ∧ d !! "stage" = Some (VStr "rc")
    ∧ d !! "local" = Some (VTuple [])
    ∧ dom d = ({["major"; "minor"; "stage"; "stage_no"; "local"]}
               : gset string).
Proof.
  intros w.
  destruct (get_version_dict w (mkDevTools None None) (mkMemo None None))
    as [[d|] m'] eqn:Hrun; [|by vm_compute in Hrun].
  exists d, m'. split; [done|].
  destruct (get_version_dict_shape w (mkDevTools None None) (mkMemo None None)
              d m' eq_refl Hrun)
    as (ver & [= <-] & Hdom & _ & _ & _ & Hstage & _ & Hlocal & _).
  split; [exact Hstage|]. split; [by apply Hlocal|exact Hdom].
Defined.

(** X6: [get_version_dict] computes its mapping once.  A call that returns
    fills the memo, after which every call returns the same mapping and
    changes nothing, whatever the environment and the development tools are
    by then; a call that fails leaves the memo as it was, so the next call
    tries again.  The JSON memo is never touched. *)
Theorem get_version_dict_memo w tools m :
  (∀ d m', get_version_dict w tools m = (Ok d, m') →
     _version_dict m' = Some d
     ∧ ∀ w' tools', get_version_dict w' tools' m' = (Ok d, m'))
  ∧ (∀ r m', get_version_dict w tools m = (Fail r, m') →
       m' = m ∧ _version_dict m = None
       ∧ get_version_dict w tools m' = (Fail r, m'))
  ∧ _version_json (get_version_dict w tools m).2 = _version_json m.
Proof.
  destruct (_version_dict m) as [d0|] eqn:Hm.
  - rewrite /get_version_dict Hm. split; [|split; [done|done]].
    intros d m' [= <- <-]. split; [done|]. intros w' tools'.
    by rewrite /get_version_dict Hm.
  - rewrite get_version_dict_fresh //.
    destruct (ver ← get_version w tools; of_outcome (version_dict_of ver))
      as [d0|r0] eqn:Hrun.
    + split; [|split; [done|done]].
      intros d m' [= <- <-]. split; [done|]. intros w' tools'.
      by rewrite /get_version_dict.
    + split; [done|]. split; [|done].
      intros r m' [= <- <-]. do 2 (split; [done|]).
      by rewrite get_version_dict_fresh // Hrun.
Qed.

Lemma get_version_dict_memo_witness :
  let built :=
    mkWorld ∅
      (Some {[ "VERSION" :=
                 VTuple [VInt 1; VInt 0; VInt 40; VInt 0; VTuple []] ]})
      false [] "/srv/edb/server" id in
  let bare := mkWorld ∅ None false [] "/srv/edb/server" id in
  let first := get_version_dict built (mkDevTools None None)
                 (mkMemo None None) in
  get_version_dict bare (mkDevTools None None) first.2 = (first.1, first.2)
  ∧ (get_version_dict bare (mkDevTools None None) (mkMemo None None)).2
    = mkMemo None None.
Proof.
  intros built bare first.
  destruct (get_version_dict_memo built (mkDevTools None None)
              (mkMemo None None)) as (Hok & _).
  destruct (get_version_dict_memo bare (mkDevTools None None)
              (mkMemo None None)) as (_ & Hfail & _).
  destruct first as [[d|r] m'] eqn:Hfirst; [|by vm_compute in Hfirst].
  split.
  - by apply (Hok d m' Hfirst).
  - destruct (get_version_dict bare _ _) as [[d'|r'] m''] eqn:Hbare;
      [by vm_compute in Hbare|].
    by apply (Hfail r' m'').
Defined.

(** X7: [get_version_json] serializes once.  A call that returns stores the
    text, after which every call returns that text and changes nothing,
    whatever the environment, the tools and the serializer are by then.  A
    first call returns what the serializer makes of the mapping
    [get_version_dict] returns; when it fails no text is stored, though the
    mapping is when only the serializer failed. *)
Theorem get_version_json_memo json_dumps w tools m :
  (∀ text m', get_version_json json_dumps w tools m = (Ok text, m') →
     _version_json m' = Some text
     ∧ ∀ json_dumps' w' tools',
         get_version_json json_dumps' w' tools' m' = (Ok text, m'))
  ∧ (_version_json m = None →
     get_version_json json_dumps w tools m
     = match get_version_dict w tools m with
       | (Ok d, m') =>
           match json_dumps d with
           | Ok text => (Ok text, mkMemo (_version_dict m') (Some text))
           | Fail r => (Fail r, m')
           end
       | (Fail r, m') => (Fail r, m')
       end)
  ∧ (∀ r m', get_version_json json_dumps w tools m = (Fail r, m') →
       _version_json m' = None
       ∧ ∀ d, get_version_dict w tools m = (Ok d, m') → json_dumps d = Fail r).
Proof.
  rewrite /get_version_json.
  destruct (_version_json m) as [t0|] eqn:Hm.
  - split; [|split; [done|done]].
    intros text m' [= <- <-]. split; [done|]. intros j' w' tools'.
    by rewrite /get_version_json Hm.
  - pose proof (get_version_dict_memo w tools m) as (_ & _ & Hjson).
    destruct (get_version_dict w tools m) as [[d|r0] m0] eqn:Hdict.
    + destruct (json_dumps d) as [t|r1] eqn:Hdump.
      * split; [|split; [done|done]].
        intros text m' [= <- <-]. split; [done|]. intros j' w' tools'.
        by rewrite /get_version_json.
      * split; [done|]. split; [done|].
        intros r m' [= <- <-]. simpl in Hjson. rewrite Hjson Hm.
        split; [done|]. by intros d' [= <-].
    + split; [done|]. split; [done|].
      intros r m' [= <- <-]. simpl in Hjson. by rewrite Hjson Hm.
Qed.

Lemma get_version_json_memo_witness :
  let built :=
    mkWorld ∅
      (Some {[ "VERSION" :=
                 VTuple [VInt 1; VInt 0; VInt 40; VInt 0; VTuple []] ]})
      false [] "/srv/edb/server" id in
  let bare := mkWorld ∅ None false [] "/srv/edb/server" id in
  let dumps (d : gmap string value) : result string :=
    Ok "version-json" in
  let refuse (d : gmap string value) : result string :=
    Fail (Known TypeError) in
  let first := get_version_json dumps built (mkDevTools None None)
                 (mkMemo None None) in
  first.1 = Ok "version-json"
  ∧ get_version_json refuse bare (mkDevTools None None) first.2
    = (Ok "version-json", first.2).
Proof.
  intros built bare dumps refuse first.
  destruct (get_version_json_memo dumps built (mkDevTools None None)
              (mkMemo None None)) as (Hok & _).
  destruct first as [[t|r] m'] eqn:Hfirst; [|by vm_compute in Hfirst].
  destruct (Hok t m' Hfirst) as [_ Hsticky].
  assert (t = "version-json") as -> by (by vm_compute in Hfirst; simplify_eq).
  split; [done|]. apply Hsticky.
Defined.

End version_accessors.

(** ** The path resolvers *)

Section resolvers.
Implicit Types (w : World) (data_dir : Path).

Lemma accessor_path_cases w prop :
  (∀ s, env_override w prop = Some s →
        (v ← get_build_metadata_value w prop; Path_of_value v)
        = Return (Path_of_str s))
  ∧ (env_override w prop = None → embedded_value w prop = None →
     ∃ msg, (v ← get_build_metadata_value w prop; Path_of_value v)
            = Raise (MetadataError msg))
  ∧ (∀ v, env_override w prop = None → embedded_value w prop = Some v →
          (v ← get_build_metadata_value w prop; Path_of_value v)
          = Path_of_value v).
Proof.
  split; [|split].
  - intros s Hs. by rewrite (get_build_metadata_value_env _ _ s).
  - intros He Hb. rewrite get_build_metadata_value_embedded // Hb. by eexists.
  - intros v He Hb. by rewrite get_build_metadata_value_embedded // Hb.
Qed.

(** X8: in development mode [get_runstate_path] returns the data directory
    it is given and [get_shared_data_dir_path] the development cache
    directory, without consulting the build metadata.  Otherwise each returns
    its metadata entry ([RUNSTATE_DIR], [SHARED_DATA_DIR]) as a path, the
    environment override first, without looking at the file system; each
    raises [MetadataError] when neither source has the entry, and
    [TypeError] when the embedded entry is not a string. *)
Theorem path_resolvers_spec w data_dir :
  (is_in_dev_mode w = true →
   get_runstate_path w data_dir = Return data_dir
   ∧ get_shared_data_dir_path w = Return (get_dev_mode_cache_dir w))
  ∧ (is_in_dev_mode w = false →
     (∀ s, env_override w "RUNSTATE_DIR" = Some s →
           get_runstate_path w data_dir = Return (Path_of_str s))
     ∧ (∀ s, env_override w "SHARED_DATA_DIR" = Some s →
             get_shared_data_dir_path w = Return (Path_of_str s))
     ∧ (env_override w "RUNSTATE_DIR" = None →
        embedded_value w "RUNSTATE_DIR" = None →
        ∃ msg, get_runstate_path w data_dir = Raise (MetadataError msg))
     ∧ (env_override w "SHARED_DATA_DIR" = None →
        embedded_value w "SHARED_DATA_DIR" = None →
        ∃ msg, get_shared_data_dir_path w = Raise (MetadataError msg))
     ∧ (∀ v, env_override w "RUNSTATE_DIR" = None →
             embedded_value w "RUNSTATE_DIR" = Some v →
             get_runstate_path w data_dir
             = match v with
               | VStr s => Return (Path_of_str s)
               | _ => Raise TypeError
               end)
     ∧ (∀ v, env_override w "SHARED_DATA_DIR" = None →
             embedded_value w "SHARED_DATA_DIR" = Some v →
             get_shared_data_dir_path w
             = match v with
               | VStr s => Return (Path_of_str s)
               | _ => Raise TypeError
               end)).
Proof.
  rewrite /get_runstate_path /get_shared_data_dir_path. split.
  - by intros ->.
  - intros ->.
    destruct (accessor_path_cases w "RUNSTATE_DIR") as (Hr1 & Hr2 & Hr3).
    destruct (accessor_path_cases w "SHARED_DATA_DIR") as (Hs1 & Hs2 & Hs3).
    do 4 (split; [done|]). split.
    + intros v ??. by rewrite (Hr3 v).
    + intros v ??. by rewrite (Hs3 v).
Qed.

Lemma path_resolvers_spec_witness :
  let installed :=
    mkWorld {[ env_name "RUNSTATE_DIR" := "/run/edgedb" ]}
      (Some {[ "RUNSTATE_DIR" := VStr "/var/run/edb";
               "SHARED_DATA_DIR" := VInt 3 ]})
      false [] "/srv/edb/server" id in
  let shared :=
    mkWorld {[ env_name "SHARED_DATA_DIR" := "//net/share/" ]} None
      false [] "/srv/edb/server" id in
  let dev := mkWorld ∅ None true ["home"; "cache"] "/src/edb/server" id in
  get_runstate_path dev ["data"] = Return ["data"]
  ∧ get_shared_data_dir_path dev = Return ["home"; "cache"]
  ∧ get_runstate_path installed ["data"] = Return ["/"; "run"; "edgedb"]
  ∧ get_shared_data_dir_path installed = Raise TypeError
  ∧ get_shared_data_dir_path shared = Return ["//"; "net"; "share"].
Proof.
  intros installed shared dev.
  destruct (path_resolvers_spec dev ["data"]) as [Hdev _].
  destruct (path_resolvers_spec installed ["data"])
    as (_ & Hrun & _ & _ & _ & _ & Hshared); [done|].
  destruct (path_resolvers_spec shared ["data"])
    as (_ & _ & Hnet & _); [done|].
  destruct Hdev as [Hd1 Hd2]; [done|].
  split; [exact Hd1|]. split; [exact Hd2|]. split; [|split].
  - by apply (Hrun "/run/edgedb").
  - by rewrite (Hshared (VInt 3)).
  - by apply (Hnet "//net/share/").
Defined.

End resolvers.

(** ** The cache, further *)

Section cache_more.
Context `{Pickle}.
Implicit Types (w : World) (s : machine) (key : bytes) (path d : Path).

(** What a lookup returns or raises is decided by the entry at the resolved
    path alone. *)
Lemma read_depends_on_entry w key path pickled dir d s1 s2 :
  dir_or_default w dir = Return d →
  files s1 !! (d / path)%path = files s2 !! (d / path)%path →
  (read_data_cache w key path pickled dir s1).1
  = (read_data_cache w key path pickled dir s2).1.
Proof.
  intros Hd Hf. rewrite !(read_data_cache_eq _ _ _ _ _ d) // Hf.
  destruct (files s2 !! (d / path)%path) as [[content|]|]; [|done..].
  case_decide; [|done]. destruct pickled; [|done].
  by destruct (pickle_loads _).
Qed.

(** X9: a raw entry comes back as written: after
    [write_data_cache(data, key, p, pickled=False)] has returned,
    [read_data_cache(key, p, pickled=False)] returns [data]; and a raw
    write of anything but [bytes] never returns. *)
Theorem write_then_read_raw w key path dir s :
  (∀ data s',
     write_data_cache w (VBytes data) key path false dir s = (Return (), s') →
     read_data_cache w key path false dir s' = (Return (VBytes data), s'))
  ∧ (∀ obj, (∀ data, obj ≠ VBytes data) →
            (write_data_cache w obj key path false dir s).1 ≠ Return ()).
Proof.
  split.
  - intros data s' (d & data' & Hd & [= <-] & Hf)%write_returns_inv.
    rewrite (read_data_cache_eq _ _ _ _ _ d) // Hf lookup_insert_eq.
    by rewrite take_app_length drop_app_length decide_True.
  - intros obj Hobj Hret.
    destruct (write_data_cache w obj key path false dir s) as [r s'] eqn:Hw.
    simpl in Hret. subst r.
    apply write_returns_inv in Hw as (d & data' & _ & Hp & _).
    destruct obj; simplify_eq/=. by eapply Hobj.
Qed.

(** X10: a write that returns changes the destination entry and nothing
    else.  The destination's directory was there already (no directory is
    created).  For paths that name their file directly (a root ["/"] or
    none, no [".."]), with the destination such a path too and both
    absolute or both relative: every other path of the file system is as
    before (no temporary file is left), and a lookup of any other entry
    gives what it gave before. *)
Theorem write_data_cache_frame w obj key path pickled dir s s' :
  write_data_cache w obj key path pickled dir s = (Return (), s') →
  ∃ d, dir_or_default w dir = Return d
       ∧ files s !! parent (d / path)%path = Some Dir
       ∧ (direct (d / path)%path →
          (∀ p : Path,
             direct p → is_absolute p = is_absolute (d / path)%path →
             p ≠ (d / path)%path → files s' !! p = files s !! p)
          ∧ (∀ key2 path2 pickled2,
               direct (d / path2)%path →
               is_absolute (d / path2)%path = is_absolute (d / path)%path →
               (d / path2)%path ≠ (d / path)%path →
               (read_data_cache w key2 path2 pickled2 dir s').1
               = (read_data_cache w key2 path2 pickled2 dir s).1)).
Proof.
  intros Hw. pose proof Hw as (d & data & Hd & _ & Hf)%write_returns_inv.
  exists d. split; [done|]. split; [|intros _; split].
  - destruct (files s !! parent (d / path)%path) as [[c|]|] eqn:Hpar; [|done|].
    + rewrite (write_no_temporary_file _ _ _ _ _ _ d) // in Hw.
      left. by rewrite Hpar.
    + rewrite (write_no_temporary_file _ _ _ _ _ _ d) // in Hw.
      left. by rewrite Hpar.
  - intros p _ _ Hp. by rewrite Hf lookup_insert_ne.
  - intros key2 path2 pickled2 _ _ Hp.
    apply (read_depends_on_entry _ _ _ _ _ d); [done|].
    by rewrite Hf lookup_insert_ne.
Qed.


(** X12: an entry answers to its own key only, among keys of that length:
    after a write under [key] has returned, a lookup under another key of
    the same length returns [None] and logs nothing, pickled or raw. *)
Theorem read_data_cache_other_key w obj key key' path pickled pickled' dir
    s s' :
  write_data_cache w obj key path pickled dir s = (Return (), s') →
  length key' = length key → key' ≠ key →
  read_data_cache w key' path pickled' dir s' = (Return VNone, s').
Proof.
  intros (d & data & Hd & _ & Hf)%write_returns_inv Hlen Hne.
  rewrite (read_data_cache_eq _ _ _ _ _ d) // Hf lookup_insert_eq Hlen.
  by rewrite take_app_length decide_False.
Qed.

(** X13: the stored key is compared as a prefix only: a raw entry written
    under the key [k1 ++ k2] is accepted under the shorter key [k1], and
    the lookup returns the rest of the stored key followed by the data. *)
Theorem read_data_cache_shorter_key w data k1 k2 path dir s s' :
  write_data_cache w (VBytes data) (k1 ++ k2) path false dir s
  = (Return (), s') →
  read_data_cache w k1 path false dir s' = (Return (VBytes (k2 ++ data)), s').
Proof.
  intros (d & data' & Hd & [= <-] & Hf)%write_returns_inv.
  rewrite (read_data_cache_eq _ _ _ _ _ d) // Hf lookup_insert_eq.
  by rewrite -app_assoc take_app_length drop_app_length decide_True.
Qed.

(** X14: when the temporary file cannot be created (the destination's
    directory is missing or is no directory, or every name drawn is taken),
    [write_data_cache] raises [UnboundLocalError], not the error that
    occurred, and changes nothing. *)
Theorem write_data_cache_no_temporary_file w obj key path pickled dir d s :
  dir_or_default w dir = Return d →
  files s !! parent (d / path)%path = None
  ∨ (∃ data, files s !! parent (d / path)%path = Some (File data))
  ∨ (∀ n, n ∈ tmp_names s →
          is_Some (files s !! (parent (d / path)%path ++ [n]))) →
  write_data_cache w obj key path pickled dir s
  = (Raise UnboundLocalError, s).
Proof.
  intros Hd Hcase. apply (write_no_temporary_file _ _ _ _ _ _ d); [done|].
  destruct Hcase as [Hnone|[[data Hfile]|Htaken]].
  - left. by rewrite Hnone.
  - left. by rewrite Hfile.
  - right. rewrite /fresh_name.
    destruct (List.find _ _) as [n|] eqn:Hfind; [|done].
    apply find_some in Hfind as [Hin Hfree%bool_decide_eq_true].
    apply list_elem_of_In, Htaken in Hin as [? Hsome]. by rewrite Hfree in Hsome.
Qed.

(** X15: when the destination is an existing directory, the write phase
    goes through and the rename fails: [write_data_cache] raises
    [IsADirectoryError], the destination is still the directory, and the
    temporary file stays behind with the complete entry in it. *)
Theorem write_data_cache_onto_directory w obj key path pickled dir d s n
    data :
  dir_or_default w dir = Return d →
  files s !! parent (d / path)%path = Some Dir →
  fresh_name s (parent (d / path)%path) = Some n →
  payload obj pickled = Return data →
  fits (free_space s) (length key + length data) →
  files s !! (d / path)%path = Some Dir →
  ∃ s', write_data_cache w obj key path pickled dir s
        = (Raise IsADirectoryError, s')
        ∧ files s'
          = <[parent (d / path)%path ++ [n] := File (key ++ data)]> (files s)
        ∧ files s' !! (d / path)%path = Some Dir
        ∧ files s !! (parent (d / path)%path ++ [n]) = None.
Proof.
  intros Hd Hdir Hn Hp Hfit Hfull.
  destruct (write_onto_directory w obj key path pickled dir d s n Hd Hdir Hn
              data Hp Hfit Hfull) as (s' & Hw & Hf & _).
  pose proof (fresh_name_free _ _ _ Hn) as Hfree.
  exists s'. split; [done|]. split; [done|]. split; [|done].
  rewrite Hf lookup_insert_ne //. intros Heq. by rewrite Heq Hfull in Hfree.
Qed.

(** X16: without an explicit directory, a cache call whose default
    directory cannot be resolved raises what [get_shared_data_dir_path]
    raises and touches nothing; outside development mode that is a
    [MetadataError] whenever neither the environment nor the embedded
    record has [SHARED_DATA_DIR]. *)
Theorem cache_default_directory_unresolved w obj key path pickled s :
  (∀ e, get_shared_data_dir_path w = Raise e →
        read_data_cache w key path pickled None s = (Raise e, s)
        ∧ write_data_cache w obj key path pickled None s = (Raise e, s))
  ∧ (is_in_dev_mode w = false → env_override w "SHARED_DATA_DIR" = None →
     embedded_value w "SHARED_DATA_DIR" = None →
     ∃ msg,
       read_data_cache w key path pickled None s
       = (Raise (MetadataError msg), s)
       ∧ write_data_cache w obj key path pickled None s
         = (Raise (MetadataError msg), s)).
Proof.
  assert (∀ e, get_shared_data_dir_path w = Raise e →
            read_data_cache w key path pickled None s = (Raise e, s)
            ∧ write_data_cache w obj key path pickled None s = (Raise e, s))
    as Hraise.
  { intros e He. by rewrite /read_data_cache /write_data_cache /= He. }
  split; [done|]. intros Hd He Hb.
  destruct (accessor_path_cases w "SHARED_DATA_DIR") as (_ & [msg Hmsg] & _);
    [done..|].
  exists msg. apply Hraise. by rewrite /get_shared_data_dir_path Hd.
Qed.

End cache_more.

Lemma write_then_read_raw_witness :
  let s := demo_machine None false in
  let run := @write_data_cache mini_pickle demo_world (VBytes (b "blob"))
               (b "KEY") ["c.bin"] false (Some ["d"]) s in
  run.1 = Return ()
  ∧ @read_data_cache mini_pickle demo_world (b "KEY") ["c.bin"] false
      (Some ["d"]) run.2
    = (Return (VBytes (b "blob")), run.2)
  ∧ (@write_data_cache mini_pickle demo_world (VInt 7) (b "KEY") ["c.bin"]
       false (Some ["d"]) s).1 = Raise TypeError.
Proof.
  intros s run. split; [done|]. split; [|done].
  apply (@write_then_read_raw mini_pickle demo_world (b "KEY") ["c.bin"]
           (Some ["d"]) s).
  by vm_compute.
Defined.

Lemma write_data_cache_frame_witness :
  let s1 := (demo_write (VInt 7) (demo_machine None false)).2 in
  let run := @write_data_cache mini_pickle demo_world (VInt 9) (b "KEY")
               ["other.pickle"] true (Some ["d"]) s1 in
  run.1 = Return ()
  ∧ direct ["d"; "other.pickle"] ∧ direct ["d"; "c.pickle"]
  ∧ (demo_read run.2).1 = (demo_read s1).1
  ∧ (demo_read s1).1 = Return (VInt 7).
Proof.
  intros s1 run.
  assert (direct ["d"; "other.pickle"] ∧ direct ["d"; "c.pickle"])
    as [Hother Hc].
  { rewrite /direct /valid_name.
    split; repeat constructor; (done || by apply (bool_decide_unpack _)). }
  destruct (@write_data_cache_frame mini_pickle demo_world (VInt 9) (b "KEY")
              ["other.pickle"] true (Some ["d"]) s1 run.2)
    as (d & [= <-] & _ & Hframe); [by vm_compute|].
  destruct (Hframe Hother) as [_ Hread].
  split; [done|]. split; [done|]. split; [done|]. split; [|done].
  by apply (Hread (b "KEY") ["c.pickle"] true).
Defined.

Lemma read_data_cache_other_key_witness :
  let s' := (demo_write (VInt 7) (demo_machine None false)).2 in
  @read_data_cache mini_pickle demo_world (b "KEZ") ["c.pickle"] true
    (Some ["d"]) s'
  = (Return VNone, s').
Proof.
  intros s'.
  by apply (@read_data_cache_other_key mini_pickle demo_world (VInt 7)
              (b "KEY") (b "KEZ") ["c.pickle"] true true (Some ["d"])
              (demo_machine None false) s').
Defined.

Lemma read_data_cache_shorter_key_witness :
  let run := @write_data_cache mini_pickle demo_world (VBytes (b "blob"))
               (b "KEY") ["c.bin"] false (Some ["d"])
               (demo_machine None false) in
  @read_data_cache mini_pickle demo_world (b "KE") ["c.bin"] false
    (Some ["d"]) run.2
  = (Return (VBytes (b "Yblob")), run.2).
Proof.
  intros run.
  by apply (@read_data_cache_shorter_key mini_pickle demo_world (b "blob")
              (b "KE") (b "Y") ["c.bin"] (Some ["d"])
              (demo_machine None false) run.2).
Defined.

Lemma write_data_cache_no_temporary_file_witness :
  demo_write (VInt 7) (mkMachine ∅ None false ["tmpq1w2e3r4"] [] [])
  = (Raise UnboundLocalError, mkMachine ∅ None false ["tmpq1w2e3r4"] [] [])
  ∧ @write_data_cache mini_pickle demo_world (VInt 7) (b "KEY") ["c.pickle"]
      true (Some ["d"])
      (mkMachine {[ ["d"] := Dir; ["d"; "t"] := File [] ]} None false ["t"]
         [] [])
    = (Raise UnboundLocalError,
       mkMachine {[ ["d"] := Dir; ["d"; "t"] := File [] ]} None false ["t"]
         [] []).
Proof.
  split.
  - apply (@write_data_cache_no_temporary_file mini_pickle demo_world (VInt 7)
             (b "KEY") ["c.pickle"] true (Some ["d"]) ["d"]); [done|].
    by left.
  - apply (@write_data_cache_no_temporary_file mini_pickle demo_world (VInt 7)
             (b "KEY") ["c.pickle"] true (Some ["d"]) ["d"]); [done|].
    right; right. intros n ->%list_elem_of_singleton. by eexists.
Defined.

Lemma write_data_cache_onto_directory_witness :
  let s :=
    mkMachine {[ ["d"] := Dir; ["d"; "c.pickle"] := Dir ]} None false
      ["tmpq1w2e3r4"] [] [] in
  (demo_write (VInt 7) s).1 = Raise IsADirectoryError
  ∧ is_Some (files (demo_write (VInt 7) s).2 !! ["d"; "tmpq1w2e3r4"]).
Proof.
  intros s.
  destruct (@write_data_cache_onto_directory mini_pickle demo_world (VInt 7)
              (b "KEY") ["c.pickle"] true (Some ["d"]) ["d"] s "tmpq1w2e3r4"
              ([Byte.x80; Byte.x05] ++ b "K" ++ [Byte.x07]
                                 ++ b "."))
    as (s' & Hw & Hf & _); [done..|].
  rewrite /demo_write Hw /= Hf lookup_insert_eq. by split.
Defined.

Lemma cache_default_directory_unresolved_witness :
  let w := mkWorld ∅ None false [] "/srv/edb/server" id in
  ∃ msg,
    @read_data_cache mini_pickle w (b "KEY") ["c.pickle"] true None
      (demo_machine None false)
    = (Raise (MetadataError msg), demo_machine None false)
    ∧ @write_data_cache mini_pickle w (VInt 7) (b "KEY") ["c.pickle"] true
        None (demo_machine None false)
      = (Raise (MetadataError msg), demo_machine None false).
Proof.
  intros w.
  by apply (@cache_default_directory_unresolved mini_pickle w (VInt 7)
              (b "KEY") ["c.pickle"] true (demo_machine None false)).
Defined.

(** ** Versions, further *)

Section version_more.
Implicit Types (v : Version) (ver : ForeignVersion).

Lemma parse_version_cases ver :
  (∃ letter n, pre (_version ver) = Some (letter, n)
               ∧ stage_of_letter letter = None)
  ∨ ((∀ letter n, pre (_version ver) = Some (letter, n) →
                  is_Some (stage_of_letter letter))
     ∧ ((length (release (_version ver)) < 2)%nat
        ∨ ∃ M m rest, release (_version ver) = M :: m :: rest)).
Proof.
  assert ((length (release (_version ver)) < 2)%nat
          ∨ ∃ M m rest, release (_version ver) = M :: m :: rest) as Hrel.
  { destruct (release (_version ver)) as [|M [|m rest]];
      [left; simpl; lia..|right; by eauto]. }
  destruct (pre (_version ver)) as [[letter n]|]; [|by right].
  destruct (stage_of_letter letter) as [st|] eqn:Hst.
  - right. split; [|done]. intros ?? [= <- <-]. by rewrite Hst.
  - left. by eauto.
Qed.

Lemma parse_version_returns ver :
  (∀ letter n, pre (_version ver) = Some (letter, n) →
               is_Some (stage_of_letter letter)) →
  ∀ M m rest, release (_version ver) = M :: m :: rest →
  ∃ st k l,
    parse_version ver = Return (mkVersion M m st k l)
    ∧ (st = FINAL → k = 0)
    ∧ (st = FINAL ↔ pre (_version ver) = None ∧ dev (_version ver) = None)
    ∧ (st = DEV ↔ pre (_version ver) = None ∧ is_Some (dev (_version ver))).
Proof.
  intros Hpre M m rest Hrel.
  destruct (pre (_version ver)) as [[letter n]|] eqn:Hp.
  - destruct (Hpre letter n eq_refl) as [st Hst].
    rewrite (parse_version_pre ver letter n st M m rest) //.
    eexists _, _, _. split; [done|].
    assert (st ≠ FINAL ∧ st ≠ DEV) as [??].
    { revert Hst. rewrite /stage_of_letter.
      repeat case_decide; by intros [= <-]. }
    split; [done|]. split; split; (done || by intros [??]).
  - destruct (dev (_version ver)) as [[tag k]|] eqn:Hd.
    + rewrite (parse_version_dev ver tag k M m rest) //.
      eexists _, _, _. split; [done|]. split; [done|].
      split; split; (done || by intros [??] || by eauto).
    + rewrite (parse_version_final ver M m rest) //.
      eexists _, _, _. split; [done|]. split; [done|].
      split; split; try done. by intros [_ [??]].
Qed.

(** X17: [parse_version] returns a version exactly when the release has a
    major and a minor number and the pre-release letter, if there is one,
    is a, b or c.  An unknown letter is reported first, as [MetadataError]
    naming the version; a release that is too short raises [IndexError];
    nothing else is raised.  A version it returns has stage FINAL exactly
    when there is neither a pre-release nor a dev marker (and then
    [stage_no] is 0), and stage DEV exactly when there is a dev marker and
    no pre-release. *)
Theorem parse_version_outcome ver :
  ((∃ v, parse_version ver = Return v)
   ↔ (2 ≤ length (release (_version ver)))%nat
     ∧ ∀ letter n, pre (_version ver) = Some (letter, n) →
                   is_Some (stage_of_letter letter))
  ∧ (∀ e, parse_version ver = Raise e →
       (e = MetadataError
              ("cannot determine release stage from " +:+ ver_str ver)
        ∧ ∃ letter n, pre (_version ver) = Some (letter, n)
                      ∧ stage_of_letter letter = None)
       ∨ (e = IndexError
          ∧ (length (release (_version ver)) < 2)%nat
          ∧ ∀ letter n, pre (_version ver) = Some (letter, n) →
                        is_Some (stage_of_letter letter)))
  ∧ (∀ v, parse_version ver = Return v →
       (stage v = FINAL → stage_no v = 0)
       ∧ (stage v = FINAL
          ↔ pre (_version ver) = None ∧ dev (_version ver) = None)
       ∧ (stage v = DEV
          ↔ pre (_version ver) = None ∧ is_Some (dev (_version ver)))).
Proof.
  destruct (parse_version_cases ver)
    as [(letter & n & Hp & Hst)|[Hpre [Hshort|(M & m & rest & Hrel)]]].
  - rewrite (parse_version_bad_letter ver letter n) //.
    split; [|split]; [|intros e [= <-]; left; by eauto|done].
    split; [by intros [v ?]|].
    intros [_ Hall]. destruct (Hall letter n Hp) as [? Hsome].
    by rewrite Hst in Hsome.
  - rewrite parse_version_short_release //.
    split; [|split]; [|intros e [= <-]; by right|done].
    split; [by intros [v ?]|]. intros [? _]. lia.
  - destruct (parse_version_returns ver Hpre M m rest Hrel)
      as (st & k & l & -> & Hk & Hf & Hd).
    split; [|split]; [|done|by intros v [= <-]].
    split; [|by eauto]. intros _. split; [|done]. rewrite Hrel /=. lia.
Qed.

(** The [+seg1.seg2...] suffix of a printed version. *)
Lemma Version_str_parts v :
  Version_str v
  = plain v
    +:+ (if decide (stage v = FINAL) then ""
         else "-" +:+ lower (VersionStage_name (stage v)) +:+ "."
              +:+ str_of_int (stage_no v))
    +:+ (if decide (local v = []) then "" else "+" +:+ join "." (local v)).
Proof.
  rewrite /Version_str /plain. cbv zeta.
  repeat case_decide; try done; by rewrite ?append_assoc ?append_nil_r.
Qed.

Lemma texts_Str (l : list string) :
  Untyped.texts (Untyped.Str <$> l) = Return l.
Proof. induction l as [|x l IH]; [done|]. by rewrite /= IH. Qed.

Lemma texts_Int (items : list Untyped.segment) n :
  Untyped.Int n ∈ items → Untyped.texts items = Raise TypeError.
Proof.
  induction items as [|[x|k] items IH]; [by intros ?%elem_of_nil|..].
  - intros [?|Hin]%elem_of_cons; [done|]. by rewrite /= IH.
  - done.
Qed.

(** On versions that keep to the annotation, the functions at run time are
    the annotated ones. *)
Lemma Version_str_at_run_time v :
  Untyped.Version_str (Version_at_run_time v) = Return (Version_str v).
Proof.
  rewrite /Untyped.Version_str /Version_str /Version_at_run_time /=.
  destruct (local v) as [|x l] eqn:Hl; simpl.
  { by repeat case_decide. }
  rewrite (texts_Str l) /=. by repeat case_decide.
Qed.

Lemma parse_version_at_run_time ver :
  Untyped.parse_version (ForeignVersion_at_run_time ver)
  = Version_at_run_time <$> parse_version ver.
Proof.
  rewrite /Untyped.parse_version /parse_version /ForeignVersion_at_run_time
    /Version_at_run_time /=.
  destruct (pre (_version ver)) as [[letter n]|],
    (dev (_version ver)) as [[tag k]|],
    (raw_local (_version ver)) as [[|x l]|],
    (release (_version ver)) as [|M [|m rest]];
    repeat case_decide; try done; by rewrite /= ?fmap_app.
Qed.

(** What [parse_version] returns, at run time. *)
Lemma parse_version_untyped (ver : Untyped.ForeignVersion)
    (v : Untyped.Version) M m rest :
  Untyped.parse_version ver = Return v →
  Untyped.release (Untyped._version ver) = M :: m :: rest →
  ∃ st k segs,
    v = Untyped.mkVersion M m st k
          ((Untyped.Str <$> segs)
             ++ default [] (Untyped.raw_local (Untyped._version ver)))
    ∧ match Untyped.pre (Untyped._version ver),
            Untyped.dev (Untyped._version ver) with
      | Some (letter, n), d =>
          stage_of_letter letter = Some st ∧ k = n ∧ segs = dev_segments d
      | None, Some (_, k') => st = DEV ∧ k = k' ∧ segs = []
      | None, None => st = FINAL ∧ k = 0 ∧ segs = []
      end.
Proof.
  rewrite /Untyped.parse_version /stage_of_letter /dev_segments.
  intros Hv Hrel. rewrite Hrel in Hv. revert Hv.
  destruct (Untyped.pre _) as [[letter n]|],
    (Untyped.dev _) as [[tag k]|],
    (Untyped.raw_local _) as [[|x l]|];
    repeat case_decide; try done; intros [= <-];
    eexists _, _, _; (split; [|done]); by rewrite /= ?app_nil_r.
Qed.

(** X18: what a parsed version prints as, at run time.  For a foreign
    version with release [M.m...] whose local segments are all text, the
    text is ["M.m"], then ["-alpha.n"], ["-beta.n"] or ["-rc.n"] for a
    pre-release [n] of letter a, b or c, or ["-dev.k"] for a dev marker [k]
    without a pre-release; then, when there are any, ["+"] and the
    dot-separated local segments, where a dev marker next to a pre-release
    shows up as the leading segments ["dev.k"].  When one of the foreign
    local segments is a number, printing the parsed version raises
    [TypeError]. *)
Theorem parse_version_then_str (ver : Untyped.ForeignVersion)
    (v : Untyped.Version) M m rest :
  Untyped.parse_version ver = Return v →
  Untyped.release (Untyped._version ver) = M :: m :: rest →
  let foreign := default [] (Untyped.raw_local (Untyped._version ver)) in
  let plus (l : list string) : string :=
    if decide (l = []) then "" else "+" +:+ join "." l in
  (∀ l, foreign = Untyped.Str <$> l →
     Untyped.Version_str v
     = Return
         (str_of_int M +:+ "." +:+ str_of_int m
          +:+ match Untyped.pre (Untyped._version ver),
                    Untyped.dev (Untyped._version ver) with
              | Some (letter, n), d =>
                  "-" +:+ (if decide (letter = "a") then "alpha"
                           else if decide (letter = "b") then "beta"
                           else "rc")
                  +:+ "." +:+ str_of_int n +:+ plus (dev_segments d ++ l)
              | None, Some (_, k) => "-dev." +:+ str_of_int k +:+ plus l
              | None, None => plus l
              end))
  ∧ (∀ n, Untyped.Int n ∈ foreign →
          Untyped.Version_str v = Raise TypeError).
Proof.
  intros Hv Hrel foreign plus.
  destruct (parse_version_untyped ver v M m rest Hv Hrel)
    as (st & k & segs & -> & Hcase).
  fold foreign. split.
  - intros l ->. rewrite -fmap_app.
    rewrite (Version_str_at_run_time (mkVersion M m st k (segs ++ l))).
    f_equal. rewrite Version_str_parts /plain /= /plus.
    destruct (Untyped.pre _) as [[letter n]|].
    + destruct Hcase as (Hst & -> & ->). revert Hst. rewrite /stage_of_letter.
      repeat case_decide; intros [= <-]; simpl; try done;
        by rewrite ?append_assoc ?append_nil_r.
    + destruct (Untyped.dev _) as [[tag k']|];
        destruct Hcase as (-> & -> & ->); simpl;
        repeat case_decide; try done;
        by rewrite ?append_assoc ?append_nil_r.
  - intros n Hn. rewrite /Untyped.Version_str /=.
    assert (Untyped.texts ((Untyped.Str <$> segs) ++ foreign)
            = Raise TypeError) as Htexts.
    { apply (texts_Int _ n), elem_of_app. by right. }
    rewrite Htexts. case_decide as Hl; [by case_decide|].
    apply app_eq_nil in Hl as [_ Hf]. rewrite /foreign in Hf.
    rewrite /foreign Hf in Hn.
    by apply elem_of_nil in Hn.
Qed.

Lemma parse_version_then_str_witness :
  let text :=
    Untyped.mkForeignVersion "1.0b2.dev3+abc.x"
      (Untyped.mkRawVersion [1; 0] (Some ("b", 2)) (Some ("dev", 3))
         (Some [Untyped.Str "abc"; Untyped.Str "x"])) in
  let number :=
    Untyped.mkForeignVersion "1.0+abc.5"
      (Untyped.mkRawVersion [1; 0] None None
         (Some [Untyped.Str "abc"; Untyped.Int 5])) in
  Untyped.parse_version text ≫= Untyped.Version_str
  = Return "1.0-beta.2+dev.3.abc.x"
  ∧ Untyped.parse_version number
    = Return (Untyped.mkVersion 1 0 FINAL 0
                [Untyped.Str "abc"; Untyped.Int 5])
  ∧ Untyped.parse_version number ≫= Untyped.Version_str = Raise TypeError.
Proof.
  intros text number.
  destruct (parse_version_then_str text
              (Untyped.mkVersion 1 0 BETA 2
                 [Untyped.Str "dev"; Untyped.Str "3"; Untyped.Str "abc";
                  Untyped.Str "x"]) 1 0 [] eq_refl eq_refl) as [Htext _].
  destruct (parse_version_then_str number
              (Untyped.mkVersion 1 0 FINAL 0
                 [Untyped.Str "abc"; Untyped.Int 5]) 1 0 [] eq_refl eq_refl)
    as [_ Hnumber].
  split; [|split].
  - by rewrite /= (Htext ["abc"; "x"]).
  - done.
  - rewrite /=. apply (Hnumber 5). simpl. right. by left.
Defined.

End version_more.

(** ** The path of [pg_config], further *)

Section pg_config_more.
Context `{Repr}.
Implicit Types (w : World) (fs : FS).



End pg_config_more.

(** ** The directory hasher, further *)

Section string_more.
Implicit Types (s t p : string) (c : ascii).

Lemma rev_app_spec s acc : String.rev_app s acc = String.rev s +:+ acc.
Proof.
  rewrite /String.rev. revert acc.
  induction s as [|c s IH]; intros acc; [done|].
  by rewrite /= (IH (String c acc)) (IH (String c "")) append_assoc.
Qed.

Lemma rev_cons c s : String.rev (String c s) = String.rev s +:+ String c "".
Proof. by rewrite {1}/String.rev /= rev_app_spec. Qed.

Lemma rev_append s t : String.rev (s +:+ t) = String.rev t +:+ String.rev s.
Proof.
  induction s as [|c s IH]; [by rewrite append_nil_r|].
  by rewrite append_cons !rev_cons IH append_assoc.
Qed.

Lemma rev_involutive s : String.rev (String.rev s) = s.
Proof.
  induction s as [|c s IH]; [done|]. by rewrite rev_cons rev_append IH.
Qed.

Lemma prefix_nil s : String.prefix "" s = true.
Proof. by destruct s. Qed.

Lemma prefix_cons c c' p s :
  String.prefix (String c p) (String c' s)
  = if ascii_dec c c' then String.prefix p s else false.
Proof. reflexivity. Qed.

Lemma prefix_spec p s : String.prefix p s = true ↔ ∃ r, s = p +:+ r.
Proof.
  revert s. induction p as [|c p IH]; intros s.
  { rewrite prefix_nil. split; [by exists s|done]. }
  destruct s as [|c' s]; [split; [done|by intros [? ?]]|].
  rewrite prefix_cons. destruct (ascii_dec c c') as [<-|Hne].
  - rewrite IH. split; intros [r Hr]; exists r.
    + by rewrite Hr.
    + rewrite append_cons in Hr. by simplify_eq.
  - split; [done|]. intros [r Hr]. rewrite append_cons in Hr. by simplify_eq.
Qed.

Lemma endswith_spec s sfx : endswith s sfx = true ↔ ∃ r, s = r +:+ sfx.
Proof.
  rewrite /endswith prefix_spec. split; intros [r Hr].
  - exists (String.rev r).
    by rewrite -(rev_involutive s) Hr rev_append rev_involutive.
  - exists (String.rev r). by rewrite Hr rev_append.
Qed.

Lemma split_on_ne c s : split_on c s ≠ [].
Proof.
  destruct s as [|x s]; [done|]. simpl. case_decide; [done|].
  by destruct (split_on c s).
Qed.

Lemma split_on_sep c s t :
  split_on c (s +:+ String c t) = split_on c s ++ split_on c t.
Proof.
  induction s as [|x s IH].
  { change ("" +:+ String c t) with (String c t). by rewrite /= decide_True. }
  rewrite append_cons /= IH. case_decide; [done|].
  pose proof (split_on_ne c s). by destruct (split_on c s).
Qed.

Lemma split_on_none c s :
  c ∉ String.list_ascii_of_string s → split_on c s = [s].
Proof.
  induction s as [|x s IH]; [done|]. simpl.
  intros [Hx Hs]%not_elem_of_cons. rewrite decide_False; [|by intros ->].
  by rewrite IH.
Qed.

Lemma os_path_join_cases a name :
  valid_name name →
  os_path_join a name = a +:+ name ∧ (a = "" ∨ ∃ a', a = a' +:+ "/")
  ∨ os_path_join a name = a +:+ "/" +:+ name.
Proof.
  intros (Hne & Hdot & Hdots & Hslash). rewrite /os_path_join.
  assert (startswith name "/" = false) as ->.
  { destruct name as [|c name]; [done|]. rewrite /startswith prefix_cons.
    destruct (ascii_dec "/" c) as [<-|?]; [|done].
    destruct Hslash. by left. }
  case_bool_decide as Ha; simpl; [left; by eauto|].
  destruct (endswith a "/") eqn:He; [|by right].
  left. split; [done|]. right. by apply endswith_spec.
Qed.

Lemma split_on_join a name :
  valid_name name →
  (a = "" ∧ split_on "/" (os_path_join a name) = [name])
  ∨ (∃ a', a = a' +:+ "/"
           ∧ split_on "/" a = split_on "/" a' ++ [""]
           ∧ split_on "/" (os_path_join a name) = split_on "/" a' ++ [name])
  ∨ split_on "/" (os_path_join a name) = split_on "/" a ++ [name].
Proof.
  intros Hname. pose proof Hname as (Hne & Hdot & Hdots & Hslash).
  destruct (os_path_join_cases a name Hname)
    as [[-> [->|[a' ->]]]| ->].
  - left. split; [done|]. by apply split_on_none.
  - right; left. exists a'. split; [done|]. split; [by rewrite split_on_sep|].
    by rewrite append_assoc split_on_sep (split_on_none _ name).
  - right; right. by rewrite split_on_sep (split_on_none _ name).
Qed.

Lemma os_path_join_ne a name : valid_name name → os_path_join a name ≠ "".
Proof.
  intros Hname Hempty. pose proof Hname as (Hne & _).
  apply (f_equal String.length) in Hempty.
  destruct (os_path_join_cases a name Hname) as [[Heq _]|Heq];
    rewrite Heq !length_append in Hempty;
    destruct name; simpl in *; (done || lia).
Qed.

Lemma endswith_join a name ext :
  valid_name name → endswith name ext = true →
  endswith (os_path_join a name) ext = true.
Proof.
  intros Hname [r ->]%endswith_spec. apply endswith_spec.
  destruct (os_path_join_cases a _ Hname) as [[-> _]| ->].
  - exists (a +:+ r). by rewrite append_assoc.
  - exists (a +:+ "/" +:+ r). by rewrite !append_assoc.
Qed.

End string_more.

Section hasher_more.
Implicit Types (root t : tree) (dirs : list (string * string)).
Implicit Types (es : list (string * tree)) (p dirname ext name : string).

Lemma foldM_app {A B} (f : B → A → outcome B) (acc : B) (l1 l2 : list A) :
  foldM f acc (l1 ++ l2) = foldM f acc l1 ≫= λ acc', foldM f acc' l2.
Proof.
  revert acc. induction l1 as [|a l1 IH]; intros acc; [done|].
  simpl. destruct (f acc a) as [acc'|]; [apply IH|done].
Qed.

Lemma find_entry es name entry :
  NoDup es.*1 → (name, entry) ∈ es →
  List.find (λ e, bool_decide (e.1 = name)) es = Some (name, entry).
Proof.
  induction es as [|[n t] es IH]; [by intros _ ?%elem_of_nil|].
  rewrite fmap_cons NoDup_cons. intros [Hn Hnd] [[= <- <-]|Hin]%elem_of_cons.
  { by rewrite /= bool_decide_true. }
  rewrite /=.
  rewrite bool_decide_false; [by apply IH|].
  intros ->. apply Hn. apply list_elem_of_fmap. by exists (name, entry).
Qed.

Lemma valid_names_dir es :
  valid_names (TDir es) ↔ Forall (λ e, valid_name e.1 ∧ valid_names e.2) es.
Proof.
  induction es as [|e es IH]; [by split; [constructor|]|].
  rewrite Forall_cons -IH /=. tauto.
Qed.

(** Every directory on the way lists a name once, under names the file
    system can give. *)
Lemma walk_step_wf (h k : place) name :
  walk_step h name = Return k →
  Forall (λ t, wf_tree t ∧ valid_names t) (h.1 :: h.2) →
  Forall (λ t, wf_tree t ∧ valid_names t) (k.1 :: k.2).
Proof.
  destruct h as [t above]. rewrite /walk_step /=.
  destruct t as [data|es|]; [done| |done].
  case_decide; [by intros [= <-]|]. case_decide.
  { intros [= <-] [? Habove]%Forall_cons.
    destruct above; simpl; [by constructor|done]. }
  destruct (List.find _ es) as [e|] eqn:He; [|done]. intros [= <-] Hall.
  constructor; [|done]. apply Forall_cons in Hall as [[Hwf Hv] _].
  apply wf_tree_dir in Hwf as [_ Hwf]. apply valid_names_dir in Hv.
  apply find_some in He as [He%list_elem_of_In _].
  rewrite !Forall_forall in Hwf Hv. split; [by apply Hwf|by apply Hv].
Qed.

Lemma foldM_walk_wf (parts : list string) (h k : place) :
  foldM walk_step h parts = Return k →
  Forall (λ t, wf_tree t ∧ valid_names t) (h.1 :: h.2) →
  Forall (λ t, wf_tree t ∧ valid_names t) (k.1 :: k.2).
Proof.
  revert h. induction parts as [|name parts IH]; intros h.
  { by intros [= <-]. }
  simpl. destruct (walk_step h name) as [h'|] eqn:Hstep; [|done].
  intros Hk Hh. apply (IH h' Hk). by eapply walk_step_wf.
Qed.

Lemma walk_wf root path (k : place) :
  walk root path = Return k → wf_tree root → valid_names root →
  wf_tree k.1 ∧ valid_names k.1.
Proof.
  intros Hk Hwf Hv.
  pose proof (foldM_walk_wf _ (root, []) k Hk) as Hall.
  apply Forall_cons in Hall as [Hhere _]; [done|]. by repeat constructor.
Qed.

Lemma walk_step_stay (h k : place) :
  walk_step h "" = Return k → k = h.
Proof.
  rewrite /walk_step. destruct (h.1); [done| |done].
  case_decide as Hstay; [by intros [= <-]|]. destruct Hstay. by left.
Qed.

Lemma walk_step_name es above name entry :
  NoDup es.*1 → (name, entry) ∈ es → valid_name name →
  walk_step (TDir es, above) name = Return (entry, TDir es :: above).
Proof.
  intros Hnd Hin (Hne & Hdot & Hdots & _). rewrite /walk_step /=.
  rewrite decide_False; [|by intros [?|?]]. rewrite decide_False //.
  by rewrite (find_entry es name entry).
Qed.

(** The walk to an entry of a directory goes through the directory. *)
Lemma walk_join root dirname es above name entry :
  walk root dirname = Return (TDir es, above) →
  NoDup es.*1 → (name, entry) ∈ es → valid_name name →
  walk root (os_path_join dirname name)
  = Return (entry, TDir es :: above).
Proof.
  rewrite /walk. intros Hdir Hnd Hin Hname.
  destruct (split_on_join dirname name Hname)
    as [[-> ->]|[(a' & -> & Hsplit & ->)| ->]].
  - simpl in Hdir.
    destruct (walk_step (root, []) "") as [k|] eqn:Hstay; [|done].
    apply walk_step_stay in Hstay as ->. injection Hdir as -> ->.
    by rewrite /= (walk_step_name _ _ _ entry).
  - rewrite Hsplit foldM_app in Hdir. rewrite foldM_app.
    destruct (foldM walk_step (root, []) (split_on "/" a')) as [k|]; [|done].
    simpl in *.
    destruct (walk_step k "") as [k'|] eqn:Hstay; [|done].
    apply walk_step_stay in Hstay as ->. injection Hdir as ->.
    by rewrite (walk_step_name _ _ _ entry).
  - rewrite foldM_app Hdir /=. by rewrite (walk_step_name _ _ _ entry).
Qed.


(** The paths a scan collects are those of the matched files. *)
Lemma hash_dir_in_matched ext t dirname p :
  p ∈ hash_dir_in t dirname ext [] ↔ matched ext t dirname p.
Proof.
  split.
  - revert dirname.
    induction t as [data| |es IH] using tree_ind'; intros dirname;
      [by intros ?%elem_of_nil..|].
    rewrite hash_dir_in_visit.
    intros ([name entry] & Hp & Hin)%list_elem_of_bind.
    rewrite Forall_forall in IH. specialize (IH _ Hin). simpl in *.
    revert Hp. rewrite /visit.
    destruct entry as [data|sub|]; simpl.
    + destruct (endswith name ext) eqn:He; [|by intros ?%elem_of_nil].
      intros ->%list_elem_of_singleton. by econstructor.
    + intros Hp. eapply matched_below; [done|]. by apply IH.
    + by intros ?%elem_of_nil.
  - induction 1 as [es dirname name data Hin He
                   |es dirname name sub path Hin _ IH];
      rewrite hash_dir_in_visit; apply list_elem_of_bind.
    + exists (name, TFile data). split; [|done].
      rewrite /visit /= He. by apply list_elem_of_singleton.
    + exists (name, TDir sub). split; [|done]. by rewrite /visit /=.
Qed.

(** A matched file is found again at its path, and the path ends as the
    name does. *)
Lemma matched_resolves root ext t dirname p :
  matched ext t dirname p → wf_tree t → valid_names t →
  ∀ above, walk root dirname = Return (t, above) →
  ∃ data above', walk root p = Return (TFile data, above')
                 ∧ endswith p ext = true ∧ p ≠ "".
Proof.
  induction 1 as [es dirname name data Hin He
                 |es dirname name sub path Hin _ IH];
    intros [Hnd Hwf]%wf_tree_dir Hv%valid_names_dir above Hdir;
    rewrite !Forall_forall in Hwf Hv;
    destruct (Hv _ Hin) as [Hname Hsub]; simpl in *.
  - exists data, (TDir es :: above).
    split; [by eapply walk_join|].
    split; [by apply endswith_join|by apply os_path_join_ne].
  - apply (IH (Hwf _ Hin) Hsub (TDir es :: above)). by eapply walk_join.
Qed.

Lemma scandir_inv root dirname it :
  scandir root dirname = Return it →
  ∃ es above, it = TDir es ∧ walk root dirname = Return (TDir es, above).
Proof.
  rewrite /scandir /entry_at. case_decide; [done|].
  destruct (walk root dirname) as [[found above]|]; [|done]. simpl.
  destruct found as [data|es|]; try done. intros [= <-]. by eauto.
Qed.


Lemma mapM_o_Return {A B} (f : A → outcome B) (l : list A) bs :
  mapM_o f l = Return bs ↔ Forall2 (λ a y, f a = Return y) l bs.
Proof.
  revert bs. induction l as [|a l IH]; intros bs; simpl.
  { split; [intros [= <-]; constructor|by intros ->%Forall2_nil_inv_l]. }
  split.
  - destruct (f a) as [y|] eqn:Hy; [|done]. simpl.
    destruct (mapM_o f l) as [ys|]; [|done]. intros [= <-].
    constructor; [done|]. by apply IH.
  - intros (y & ys & Hy & Hys%IH & ->)%Forall2_cons_inv_l.
    by rewrite Hy /= Hys.
Qed.



Lemma elem_of_concat {A} (x : A) (ls : list (list A)) :
  x ∈ concat ls ↔ ∃ l, x ∈ l ∧ l ∈ ls.
Proof.
  induction ls as [|l ls IH]; simpl.
  { split; [by intros ?%elem_of_nil|by intros (? & _ & ?%elem_of_nil)]. }
  rewrite elem_of_app IH. split.
  - intros [?|(l' & ? & ?)]; [exists l|exists l']; split; (done || by constructor).
  - intros (l' & ? & [->|?]%elem_of_cons); [by left|right; by eauto].
Qed.

Local Arguments hash_dir_in : simpl never.

(** The paths collected from the listed directories, one by one. *)
Lemma collect_paths_matched root dirs paths p :
  collect_paths root dirs = Return paths →
  p ∈ paths
  ↔ ∃ dirname ext es,
      (dirname, ext) ∈ dirs ∧ scandir root dirname = Return (TDir es)
      ∧ matched ext (TDir es) dirname p.
Proof.
  rewrite collect_paths_mapM.
  destruct (mapM_o _ dirs) as [parts|] eqn:Hparts; [|done].
  intros [= <-]. apply mapM_o_Return in Hparts.
  rewrite elem_of_concat. split.
  - intros (found & Hp & Hfound).
    apply list_elem_of_lookup in Hfound as [i Hi].
    destruct (Forall2_lookup_r _ _ _ _ _ Hparts Hi)
      as ([dirname ext] & Hd & Hrun).
    exists dirname, ext. revert Hrun. rewrite /hash_dir.
    destruct (scandir root dirname) as [it|] eqn:Hit; [|done].
    intros [= <-]. destruct (scandir_inv _ _ _ Hit) as (es & ? & -> & _).
    exists es. split; [by eapply list_elem_of_lookup_2|]. split; [done|].
    by apply hash_dir_in_matched.
  - intros (dirname & ext & es & Hin & Hit & Hm).
    apply list_elem_of_lookup in Hin as [i Hi].
    destruct (Forall2_lookup_l _ _ _ _ _ Hparts Hi) as (found & Hf & Hrun).
    exists found. split; [|by eapply list_elem_of_lookup_2].
    revert Hrun. rewrite /hash_dir Hit /=. intros [= <-].
    by apply hash_dir_in_matched.
Qed.

Lemma scandir_matched_resolves root ext dirname es p :
  wf_tree root → valid_names root →
  scandir root dirname = Return (TDir es) →
  matched ext (TDir es) dirname p →
  ∃ data, read_file root p = Return data ∧ endswith p ext = true.
Proof.
  intros Hwf Hv Hit Hm.
  destruct (scandir_inv _ _ _ Hit) as (? & above & [= <-] & Hdir).
  destruct (walk_wf _ _ _ Hdir Hwf Hv) as [Hwf' Hv'].
  destruct (matched_resolves root ext _ _ _ Hm Hwf' Hv' above Hdir)
    as (data & above' & Hdata & Hext & Hne).
  exists data. split; [|done].
  by rewrite /read_file /entry_at decide_False // Hdata.
Qed.

Lemma collect_paths_readable root dirs paths p :
  wf_tree root → valid_names root →
  collect_paths root dirs = Return paths → p ∈ paths →
  ∃ data, read_file root p = Return data.
Proof.
  intros Hwf Hv Hpaths (dirname & ext & es & _ & Hit & Hm)%(collect_paths_matched
    _ _ _ _ Hpaths).
  by destruct (scandir_matched_resolves _ _ _ _ _ Hwf Hv Hit Hm)
    as (data & ? & _); eauto.
Qed.

End hasher_more.

Section hash_dirs_more.
Context `{Hashlib}.
Implicit Types (root t : tree) (dirs : list (string * string)).
Implicit Types (es : list (string * tree)) (p dirname ext name : string).

(** X20: what the first loop of [hash_dirs] collects.  The paths are those
    of the regular files whose name ends with the extension given for a
    listed directory, found in that directory or in a directory below it,
    however deep; nothing else is collected (entries that are neither file
    nor directory are skipped, and so are files with another ending).  In a
    tree where every directory lists a name once, each collected path
    leads back to a regular file, so that the second loop can read it, and
    ends with the extension of one of the listed directories. *)
Theorem hash_dirs_collects root dirs paths :
  collect_paths root dirs = Return paths →
  (∀ p, p ∈ paths
        ↔ ∃ dirname ext es,
            (dirname, ext) ∈ dirs ∧ scandir root dirname = Return (TDir es)
            ∧ matched ext (TDir es) dirname p)
  ∧ (wf_tree root → valid_names root →
     ∀ p, p ∈ paths →
          (∃ data, read_file root p = Return data)
          ∧ ∃ dirname ext, (dirname, ext) ∈ dirs ∧ endswith p ext = true).
Proof.
  intros Hpaths. split; [intros p; by apply collect_paths_matched|].
  intros Hwf Hv p Hp. split; [by eapply collect_paths_readable|].
  apply (collect_paths_matched _ _ _ _ Hpaths) in Hp
    as (dirname & ext & es & Hin & Hit & Hm).
  exists dirname, ext. split; [done|].
  by destruct (scandir_matched_resolves _ _ _ _ _ Hwf Hv Hit Hm)
    as (data & _ & ?).
Qed.


End hash_dirs_more.

Lemma demo_tree_wf : wf_tree demo_tree ∧ valid_names demo_tree.
Proof.
  split.
  - apply wf_tree_dir. split; [by apply (bool_decide_unpack _)|].
    repeat (constructor || apply wf_tree_dir || split);
      by apply (bool_decide_unpack _).
  - rewrite /demo_tree /= /valid_name.
    repeat split; (done || by apply (bool_decide_unpack _)).
Qed.

Lemma hash_dirs_collects_witness :
  collect_paths demo_tree [("lib", ".py"); ("etc", ".py")]
  = Return ["lib/b.py"; "lib/a.py"; "lib/sub/c.py"; "etc/x.py"]
  ∧ (∃ data, read_file demo_tree "lib/sub/c.py" = Return data)
  ∧ ∃ dirname ext es,
      (dirname, ext) ∈ [("lib", ".py"); ("etc", ".py")]
      ∧ scandir demo_tree dirname = Return (TDir es)
      ∧ matched ext (TDir es) dirname "lib/sub/c.py".
Proof.
  assert (collect_paths demo_tree [("lib", ".py"); ("etc", ".py")]
          = Return ["lib/b.py"; "lib/a.py"; "lib/sub/c.py"; "etc/x.py"])
    as Hrun by (vm_compute; reflexivity).
  destruct (hash_dirs_collects demo_tree _ _ Hrun) as [Hm Hr].
  destruct demo_tree_wf as [Hwf Hv].
  split; [exact Hrun|]. split.
  - apply (Hr Hwf Hv). by apply (bool_decide_unpack _).
  - apply Hm. by apply (bool_decide_unpack _).
Defined.


(** ** The source hash as the cache key *)

Section source_hash_key.
Context `{Pickle} `{Hashlib}.
Implicit Types (root : tree) (dirs : list (string * string)) (k : bytes).

(** X22: the digest of [hash_dirs] as the cache key invalidates the cache.
    With digests of 20 bytes, as SHA-1 gives them, an entry written under
    the digest of one state of the sources is not returned under the digest
    of another: when the two digests differ, the lookup returns [None] and
    logs nothing, pickled or raw. *)
Theorem source_hash_invalidates_cache root root' dirs dirs' k k' w obj path
    pickled pickled' dir s s' :
  (∀ x, length (sha1_digest x) = 20%nat) →
  hash_dirs root dirs = Return k → hash_dirs root' dirs' = Return k' →
  k ≠ k' →
  write_data_cache w obj k path pickled dir s = (Return (), s') →
  read_data_cache w k' path pickled' dir s' = (Return VNone, s').
Proof.
  intros Hlen Hk Hk' Hne (d & data & Hd & _ & Hf)%write_returns_inv.
  assert (∀ r ds x, hash_dirs r ds = Return x → length x = 20%nat) as H20.
  { intros r ds x. rewrite hash_dirs_stream.
    destruct (hashed_stream r ds) as [st|]; [|done]. simpl.
    intros [= <-]. apply Hlen. }
  rewrite (read_data_cache_eq _ _ _ _ _ d) // Hf lookup_insert_eq.
  rewrite (H20 _ _ _ Hk') -(H20 _ _ _ Hk) take_app_length.
  by rewrite decide_False.
Qed.

End source_hash_key.

Lemma source_hash_invalidates_cache_witness :
  let k := SHA1.sha1 (b "A") in
  let k' := SHA1.sha1 (b "B") in
  let run := @write_data_cache mini_pickle demo_world (VInt 7) k
               ["c.pickle"] true (Some ["d"]) (demo_machine None false) in
  @hash_dirs hashlib_sha1 (one_file (b "A")) [("lib", ".py")] = Return k
  ∧ @hash_dirs hashlib_sha1 (one_file (b "B")) [("lib", ".py")] = Return k'
  ∧ run.1 = Return ()
  ∧ @read_data_cache mini_pickle demo_world k' ["c.pickle"] true
      (Some ["d"]) run.2
    = (Return VNone, run.2).
Proof.
  intros k k' run.
  assert (@hash_dirs hashlib_sha1 (one_file (b "A")) [("lib", ".py")]
          = Return k) as Hk by (vm_compute; reflexivity).
  assert (@hash_dirs hashlib_sha1 (one_file (b "B")) [("lib", ".py")]
          = Return k') as Hk' by (vm_compute; reflexivity).
  assert (run.1 = Return ()) as Hret by (vm_compute; reflexivity).
  assert (run = (Return (), run.2)) as Hrun by (vm_compute; reflexivity).
  assert (k ≠ k') as Hne.
  { apply (bool_decide_unpack _). vm_compute. exact I. }
  split; [exact Hk|]. split; [exact Hk'|]. split; [exact Hret|].
  exact (@source_hash_invalidates_cache mini_pickle hashlib_sha1
           (one_file (b "A")) (one_file (b "B")) [("lib", ".py")]
           [("lib", ".py")] k k' demo_world (VInt 7) ["c.pickle"] true true
           (Some ["d"]) (demo_machine None false) run.2
           sha1_length Hk Hk' Hne Hrun).
Defined.
